(** * ogr2osm: the geometry-to-graph conversion engine (osm_data.py)

    A shallow embedding of [OsmData] (src/ogr2osm/osm_data.py): node
    interning, ring canonicalisation, duplicate detection of ways and
    relations, the polygon and multipolygon parsers and the way splitter.

    Python objects live on a heap addressed by their identity (the [id]
    attribute); lists such as [self.__nodes] and [way.nodes] hold
    references, that is identities.  Equality of two objects is equality
    of their identities. *)

From Stdlib Require Import ZArith Lia.
From stdpp Require Import base numbers option list gmap strings.

#[local] Set Warnings "-register-all".

Local Open Scope string_scope.
Local Open Scope list_scope.

(** ** Pure list operations *)

Section Ordered.

(** The nodes of a sequence are compared by their [id] attribute;
    [node_id] reads it. *)
Context {Node : Type} (node_id : Node → Z).

(** [for i in range(1, len(nodes))]: [rest] holds [nodes[i:]], the pair
    (lowest_index, lowest_node_id) is threaded through; the result is the
    final lowest_index. *)
Fixpoint lowest_from (i : nat) (rest : list Node)
    (lowest_index : nat) (lowest_node_id : Z) : nat :=
  match rest with
  | [] => lowest_index
  | n :: rest' =>
      if (node_id n <? lowest_node_id)%Z
      then lowest_from (S i) rest' i (node_id n)
      else lowest_from (S i) rest' lowest_index lowest_node_id
  end.

(** [len(nodes) > 2 and nodes[0].id == nodes[-1].id] *)
Definition is_closed (nodes : list Node) : bool :=
  match nodes, last nodes with
  | first :: _, Some final =>
      bool_decide (2 < length nodes) && (node_id first =? node_id final)%Z
  | _, _ => false
  end.

(** [OsmData.__get_ordered_nodes]; the slice [nodes[lowest_index:-1]] is
    [drop lowest_index (take (len - 1) nodes)]. *)
Definition get_ordered_nodes (nodes : list Node) : list Node :=
  if is_closed nodes then
    match nodes with
    | [] => nodes
    | first :: rest =>
        let lowest_index := lowest_from 1 rest 0 (node_id first) in
        drop lowest_index (take (length nodes - 1) nodes)
          ++ take (lowest_index + 1) nodes
    end
  else nodes.

End Ordered.

(** A sequence is a ring when it is closed: [ring ++ take 1 ring].  The
    rotation by [k] of a closed sequence starts [k] places further along
    the ring and is closed again. *)
Definition close_ring {A : Type} (ring : list A) : list A := ring ++ take 1 ring.

Definition open_ring {A : Type} (nodes : list A) : list A :=
  take (length nodes - 1) nodes.

Definition ring_rotate {A : Type} (k : nat) (nodes : list A) : list A :=
  close_ring (rotate k (open_ring nodes)).

(** The places of a ring that carry its lowest identity. *)
Definition lowest_places {Node : Type} (node_id : Node → Z) (ring : list Node)
    : list Node :=
  filter (λ a, Forall (λ b, (node_id a ≤ node_id b)%Z) ring) ring.

(** [range(0, stop, step)] for [step >= 1]: 0, step, 2*step, ... below
    [stop]. *)
Definition range_step (stop step : nat) : list nat :=
  (λ k, k * step) <$> seq 0 ((stop + step - 1) / step).

(** The chunks of [__split_way]:
    [[nodes[i:i + limit] for i in range(0, len(nodes), limit - 1)]]. *)
Definition split_chunks {A : Type} (limit : nat) (nodes : list A) : list (list A) :=
  (λ i, take limit (drop i nodes)) <$> range_step (length nodes) (limit - 1).

(** ** The data model *)

(** A reference to an entity, tagged with its class: the answer of
    [type(p)] on the referenced object. *)
Inductive entity :=
  | EPoint (id : Z)
  | EWay (id : Z)
  | ERelation (id : Z).

#[global] Instance entity_eq_dec : EqDecision entity.
Proof. solve_decision. Defined.

Abbreviation tags := (gmap string string).

(** The key of [self.__unique_node_index]: the tuple [(rx, ry)] for the
    node of a way, or whatever else the translation supplies. *)
Abbreviation node_key := ((Z * Z) + string)%type.

(** The geometry types of [ogr] that the parsers tell apart. *)
Inductive wkb_type :=
  | wkbPoint | wkbPoint25D
  | wkbLineString | wkbLinearRing | wkbLineString25D
  | wkbPolygon | wkbPolygon25D
  | wkbMultiPoint | wkbMultiPoint25D
  | wkbMultiLineString | wkbMultiLineString25D
  | wkbMultiPolygon | wkbMultiPolygon25D
  | wkbGeometryCollection | wkbGeometryCollection25D
  | wkbUnknown.

#[global] Instance wkb_type_eq_dec : EqDecision wkb_type.
Proof. solve_decision. Defined.

(** [self.translation]: the pluggable policy, of which the parsers use
    [merge_tags] and [get_unique_node_identifier]. *)
Record Translation := {
  merge_tags : string → tags → tags → option tags;
  get_unique_node_identifier : Z → Z → tags → node_key
}.

Section Model.

(** Coordinates are Python floats; the type and the quantizer
    [int(round(n * 10**digits))] of [__round_number] are kept abstract. *)
Variable coord : Type.
Variable py_round_scaled : Z → coord → Z.

(** An [ogr] geometry as the parsers read it: [GetGeometryType],
    [GetPointCount] / [GetPoint] and [GetGeometryCount] / [GetGeometryRef]. *)
Inductive OgrGeometry :=
  | Geometry (geometry_type : wkb_type)
             (points : list (coord * coord * coord))
             (geometries : list OgrGeometry).

Definition GetGeometryType (g : OgrGeometry) : wkb_type :=
  match g with Geometry t _ _ => t end.

Definition GetPoints (g : OgrGeometry) : list (coord * coord * coord) :=
  match g with Geometry _ ps _ => ps end.

Definition GetGeometries (g : OgrGeometry) : list OgrGeometry :=
  match g with Geometry _ _ gs => gs end.

(** Modelled from the spec: the entity classes of osm_geometries.py, which
    osm_data.py imports.  A Point has a position, a tag map and a set of
    parents; a Way has a tag map, an ordered sequence of node references
    and a set of parents; a Relation has a tag map and an ordered sequence
    of (member, role) pairs.  The identity is the heap address.  A parent
    set is kept as a list without repetition, in order of insertion. *)
Record OsmPoint := {
  p_x : coord;
  p_y : coord;
  p_tags : tags;
  p_parents : list entity
}.

Record OsmWay := {
  w_tags : tags;
  w_nodes : list Z;
  w_parents : list entity
}.

Record OsmRelation := {
  r_tags : tags;
  r_members : list (entity * string);
  r_parents : list entity
}.

(** The state of an [OsmData] object together with the objects it
    reaches.  [id_counter] and [id_incr] are the identity generator
    (modelled from the spec: identities are unique and monotonically
    assigned); [warnings] collects the messages given to [logging.warning]. *)
Record OsmData := {
  translation : Translation;
  rounding_digits : Z;
  max_points_in_way : Z;
  add_bounds : bool;
  nodes : list Z;
  unique_node_index : gmap node_key (list nat);
  ways : list Z;
  relations : list Z;
  heap_points : gmap Z OsmPoint;
  heap_ways : gmap Z OsmWay;
  heap_relations : gmap Z OsmRelation;
  id_counter : Z;
  id_incr : Z;
  warnings : list string
}.

Definition with_nodes (f : list Z → list Z) (st : OsmData) : OsmData :=
  {| translation := translation st; rounding_digits := rounding_digits st;
     max_points_in_way := max_points_in_way st; add_bounds := add_bounds st;
     nodes := f (nodes st); unique_node_index := unique_node_index st;
     ways := ways st; relations := relations st;
     heap_points := heap_points st; heap_ways := heap_ways st;
     heap_relations := heap_relations st;
     id_counter := id_counter st; id_incr := id_incr st;
     warnings := warnings st |}.

Definition with_index (f : gmap node_key (list nat) → gmap node_key (list nat))
    (st : OsmData) : OsmData :=
  {| translation := translation st; rounding_digits := rounding_digits st;
     max_points_in_way := max_points_in_way st; add_bounds := add_bounds st;
     nodes := nodes st; unique_node_index := f (unique_node_index st);
     ways := ways st; relations := relations st;
     heap_points := heap_points st; heap_ways := heap_ways st;
     heap_relations := heap_relations st;
     id_counter := id_counter st; id_incr := id_incr st;
     warnings := warnings st |}.

Definition with_ways (f : list Z → list Z) (st : OsmData) : OsmData :=
  {| translation := translation st; rounding_digits := rounding_digits st;
     max_points_in_way := max_points_in_way st; add_bounds := add_bounds st;
     nodes := nodes st; unique_node_index := unique_node_index st;
     ways := f (ways st); relations := relations st;
     heap_points := heap_points st; heap_ways := heap_ways st;
     heap_relations := heap_relations st;
     id_counter := id_counter st; id_incr := id_incr st;
     warnings := warnings st |}.

Definition with_relations (f : list Z → list Z) (st : OsmData) : OsmData :=
  {| translation := translation st; rounding_digits := rounding_digits st;
     max_points_in_way := max_points_in_way st; add_bounds := add_bounds st;
     nodes := nodes st; unique_node_index := unique_node_index st;
     ways := ways st; relations := f (relations st);
     heap_points := heap_points st; heap_ways := heap_ways st;
     heap_relations := heap_relations st;
     id_counter := id_counter st; id_incr := id_incr st;
     warnings := warnings st |}.

Definition with_heap_points (f : gmap Z OsmPoint → gmap Z OsmPoint)
    (st : OsmData) : OsmData :=
  {| translation := translation st; rounding_digits := rounding_digits st;
     max_points_in_way := max_points_in_way st; add_bounds := add_bounds st;
     nodes := nodes st; unique_node_index := unique_node_index st;
     ways := ways st; relations := relations st;
     heap_points := f (heap_points st); heap_ways := heap_ways st;
     heap_relations := heap_relations st;
     id_counter := id_counter st; id_incr := id_incr st;
     warnings := warnings st |}.

Definition with_heap_ways (f : gmap Z OsmWay → gmap Z OsmWay)
    (st : OsmData) : OsmData :=
  {| translation := translation st; rounding_digits := rounding_digits st;
     max_points_in_way := max_points_in_way st; add_bounds := add_bounds st;
     nodes := nodes st; unique_node_index := unique_node_index st;
     ways := ways st; relations := relations st;
     heap_points := heap_points st; heap_ways := f (heap_ways st);
     heap_relations := heap_relations st;
     id_counter := id_counter st; id_incr := id_incr st;
     warnings := warnings st |}.

Definition with_heap_relations (f : gmap Z OsmRelation → gmap Z OsmRelation)
    (st : OsmData) : OsmData :=
  {| translation := translation st; rounding_digits := rounding_digits st;
     max_points_in_way := max_points_in_way st; add_bounds := add_bounds st;
     nodes := nodes st; unique_node_index := unique_node_index st;
     ways := ways st; relations := relations st;
     heap_points := heap_points st; heap_ways := heap_ways st;
     heap_relations := f (heap_relations st);
     id_counter := id_counter st; id_incr := id_incr st;
     warnings := warnings st |}.

Definition with_id_counter (c : Z) (st : OsmData) : OsmData :=
  {| translation := translation st; rounding_digits := rounding_digits st;
     max_points_in_way := max_points_in_way st; add_bounds := add_bounds st;
     nodes := nodes st; unique_node_index := unique_node_index st;
     ways := ways st; relations := relations st;
     heap_points := heap_points st; heap_ways := heap_ways st;
     heap_relations := heap_relations st;
     id_counter := c; id_incr := id_incr st;
     warnings := warnings st |}.

Definition with_warnings (f : list string → list string) (st : OsmData) : OsmData :=
  {| translation := translation st; rounding_digits := rounding_digits st;
     max_points_in_way := max_points_in_way st; add_bounds := add_bounds st;
     nodes := nodes st; unique_node_index := unique_node_index st;
     ways := ways st; relations := relations st;
     heap_points := heap_points st; heap_ways := heap_ways st;
     heap_relations := heap_relations st;
     id_counter := id_counter st; id_incr := id_incr st;
     warnings := f (warnings st) |}.

(** ** Computations on the store: a state monad with exceptions *)

Inductive outcome (A : Type) :=
  | Returns (a : A) (st : OsmData)
  | Raises (exn : string).
Arguments Returns {A} a st.
Arguments Raises {A} exn.

Definition M (A : Type) : Type := OsmData → outcome A.

Definition ret {A} (a : A) : M A := λ st, Returns a st.

Definition bind {A B} (m : M A) (k : A → M B) : M B :=
  λ st, match m st with
        | Returns a st' => k a st'
        | Raises e => Raises e
        end.

Definition raise {A} (e : string) : M A := λ _, Raises e.

Definition gets {A} (f : OsmData → A) : M A := λ st, Returns (f st) st.

Definition modify (f : OsmData → OsmData) : M unit := λ st, Returns tt (f st).

Notation "'let*' x ':=' m 'in' k" := (bind m (λ x, k))
  (at level 10, x pattern, m at level 100, k at level 200).
Notation "m ';;' k" := (bind m (λ _, k))
  (at level 100, k at level 200, right associativity).

(** [for x in xs: body x] *)
Fixpoint for_each {A} (xs : list A) (body : A → M unit) : M unit :=
  match xs with
  | [] => ret tt
  | x :: xs' => body x ;; for_each xs' body
  end.

(** A loop that threads an accumulator through its body. *)
Fixpoint fold_each {A S} (xs : list A) (body : S → A → M S) (s : S) : M S :=
  match xs with
  | [] => ret s
  | x :: xs' => let* s' := body s x in fold_each xs' body s'
  end.

(** [any(xs)] on a collection of objects, all of them truthy. *)
Definition py_any {A} (xs : list A) : bool :=
  match xs with [] => false | _ :: _ => true end.

(** Calling a method on what may be [None] raises AttributeError. *)
Definition deref {A} (o : option A) : M A :=
  match o with Some a => ret a | None => raise "AttributeError" end.

Definition GetGeometryCount (g : OgrGeometry) : nat := length (GetGeometries g).

Definition GetPointCount (g : OgrGeometry) : nat := length (GetPoints g).

(** [GetGeometryRef(i)] answers [None] out of range. *)
Definition GetGeometryRef (g : OgrGeometry) (i : nat) : option OgrGeometry :=
  GetGeometries g !! i.

(** [logging.warning(msg)] *)
Definition warn (msg : string) : M unit := modify (with_warnings (λ l, l ++ [msg])).

(** ** The heap: attributes of the referenced objects

    A reference that the heap does not hold reads as an empty object and
    is written to without effect; the operations below never produce one. *)

Definition point_tags (st : OsmData) (n : Z) : tags :=
  from_option p_tags ∅ (heap_points st !! n).

Definition way_tags (st : OsmData) (w : Z) : tags :=
  from_option w_tags ∅ (heap_ways st !! w).

Definition way_nodes (st : OsmData) (w : Z) : list Z :=
  from_option w_nodes [] (heap_ways st !! w).

Definition relation_tags (st : OsmData) (r : Z) : tags :=
  from_option r_tags ∅ (heap_relations st !! r).

Definition relation_members (st : OsmData) (r : Z) : list (entity * string) :=
  from_option r_members [] (heap_relations st !! r).

(** [entity.get_parents()] *)
Definition get_parents (st : OsmData) (e : entity) : list entity :=
  match e with
  | EPoint i => from_option p_parents [] (heap_points st !! i)
  | EWay i => from_option w_parents [] (heap_ways st !! i)
  | ERelation i => from_option r_parents [] (heap_relations st !! i)
  end.

(** Modelled from the spec: [relation.get_member_role(member)], the role
    under which [member] is listed in the relation (the first one when it
    is listed more than once, the empty string when it is not). *)
Definition get_member_role (st : OsmData) (rel : Z) (member : entity) : string :=
  from_option snd "" (head (filter (λ m, m.1 = member) (relation_members st rel))).

Definition set_point_tags (n : Z) (t : tags) : M unit :=
  modify (with_heap_points (alter (λ p,
    {| p_x := p_x p; p_y := p_y p; p_tags := t; p_parents := p_parents p |}) n)).

Definition set_way_tags (w : Z) (t : tags) : M unit :=
  modify (with_heap_ways (alter (λ o,
    {| w_tags := t; w_nodes := w_nodes o; w_parents := w_parents o |}) w)).

Definition set_way_nodes (w : Z) (ns : list Z) : M unit :=
  modify (with_heap_ways (alter (λ o,
    {| w_tags := w_tags o; w_nodes := ns; w_parents := w_parents o |}) w)).

Definition set_relation_tags (r : Z) (t : tags) : M unit :=
  modify (with_heap_relations (alter (λ o,
    {| r_tags := t; r_members := r_members o; r_parents := r_parents o |}) r)).

Definition set_relation_members (r : Z) (ms : list (entity * string)) : M unit :=
  modify (with_heap_relations (alter (λ o,
    {| r_tags := r_tags o; r_members := ms; r_parents := r_parents o |}) r)).

(** [relation.members.append(m)] *)
Definition append_member (r : Z) (m : entity * string) : M unit :=
  modify (with_heap_relations (alter (λ o,
    {| r_tags := r_tags o; r_members := r_members o ++ [m];
       r_parents := r_parents o |}) r)).

Definition set_add (p : entity) (s : list entity) : list entity :=
  if bool_decide (p ∈ s) then s else s ++ [p].

Definition set_discard (p : entity) (s : list entity) : list entity :=
  filter (λ q, q ≠ p) s.

Definition update_parents (f : list entity → list entity) (e : entity) : M unit :=
  modify
    match e with
    | EPoint i => with_heap_points (alter (λ o,
        {| p_x := p_x o; p_y := p_y o; p_tags := p_tags o;
           p_parents := f (p_parents o) |}) i)
    | EWay i => with_heap_ways (alter (λ o,
        {| w_tags := w_tags o; w_nodes := w_nodes o;
           w_parents := f (w_parents o) |}) i)
    | ERelation i => with_heap_relations (alter (λ o,
        {| r_tags := r_tags o; r_members := r_members o;
           r_parents := f (r_parents o) |}) i)
    end.

(** Modelled from the spec: [entity.addparent(parent)] and
    [entity.removeparent(parent)] keep the back-references: adding an
    entity as a member adds the container as a parent, replacing a member
    removes the old parent link. *)
Definition addparent (e parent : entity) : M unit :=
  update_parents (set_add parent) e.

Definition removeparent (e parent : entity) : M unit :=
  update_parents (set_discard parent) e.

(** Modelled from the spec: a new entity takes the next identity of the
    generator. *)
Definition new_id : M Z :=
  λ st, let c := (id_counter st + id_incr st)%Z in Returns c (with_id_counter c st).

(** [OsmPoint(x, y, tags)], [OsmWay(tags)], [OsmRelation(tags)] *)
Definition new_OsmPoint (x y : coord) (t : tags) : M Z :=
  let* i := new_id in
  modify (with_heap_points
    (insert i {| p_x := x; p_y := y; p_tags := t; p_parents := [] |})) ;;
  ret i.

Definition new_OsmWay (t : tags) : M Z :=
  let* i := new_id in
  modify (with_heap_ways
    (insert i {| w_tags := t; w_nodes := []; w_parents := [] |})) ;;
  ret i.

Definition new_OsmRelation (t : tags) : M Z :=
  let* i := new_id in
  modify (with_heap_relations
    (insert i {| r_tags := t; r_members := []; r_parents := [] |})) ;;
  ret i.

(** ** Node interning *)

(** [OsmData.__round_number] *)
Definition round_number (n : coord) : M Z :=
  gets (λ st, py_round_scaled (rounding_digits st) n).

(** The loop of [__add_node] over the bucket of a key that is already in
    the index: the first node that the policy merges with, if any. *)
Fixpoint merge_into_bucket (t : tags) (bucket : list nat) : M (option Z) :=
  match bucket with
  | [] => ret None
  | index :: bucket' =>
      let* found := gets (λ st, nodes st !! index) in
      match found with
      | None => raise "IndexError"
      | Some duplicate_node =>
          let* merged_tags := gets (λ st,
            merge_tags (translation st) "node" (point_tags st duplicate_node) t) in
          match merged_tags with
          | Some merged => set_point_tags duplicate_node merged ;; ret (Some duplicate_node)
          | None => merge_into_bucket t bucket'
          end
      end
  end.

(** [OsmData.__add_node] *)
Definition add_node (x y : coord) (t : tags) (is_way_member : bool) : M Z :=
  let* rx := round_number x in
  let* ry := round_number y in
  let* unique_node_id :=
    (if is_way_member then ret (inl (rx, ry))
     else gets (λ st, get_unique_node_identifier (translation st) rx ry t)) in
  let* bucket := gets (λ st, unique_node_index st !! unique_node_id) in
  match bucket with
  | Some indices =>
      let* hit := merge_into_bucket t indices in
      match hit with
      | Some duplicate_node => ret duplicate_node
      | None =>
          let* node := new_OsmPoint x y t in
          let* n := gets (λ st, length (nodes st)) in
          modify (with_index (alter (λ b, b ++ [n]) unique_node_id)) ;;
          modify (with_nodes (λ l, l ++ [node])) ;;
          ret node
      end
  | None =>
      let* node := new_OsmPoint x y t in
      let* n := gets (λ st, length (nodes st)) in
      modify (with_index (insert unique_node_id [n])) ;;
      modify (with_nodes (λ l, l ++ [node])) ;;
      ret node
  end.

(** [OsmData.__add_way], [OsmData.__add_relation] *)
Definition add_way (t : tags) : M Z :=
  let* way := new_OsmWay t in
  modify (with_ways (λ l, l ++ [way])) ;;
  ret way.

Definition add_relation (t : tags) : M Z :=
  let* relation := new_OsmRelation t in
  modify (with_relations (λ l, l ++ [relation])) ;;
  ret relation.

(** ** Ways and their duplicates *)

(** The identity of a referenced node: the reference itself. *)
Definition id_of (node : Z) : Z := node.

(** [OsmData.__verify_duplicate_ways] *)
Definition verify_duplicate_ways (st : OsmData)
    (potential_duplicate_ways : list Z) (nodes : list Z) : list (Z * string) :=
  let ordered_nodes := get_ordered_nodes id_of nodes in
  flat_map (λ dupway,
    if (length (way_nodes st dupway) =? length nodes)%nat then
      let dupnodes := get_ordered_nodes id_of (way_nodes st dupway) in
      if bool_decide (dupnodes = ordered_nodes) then [(dupway, "way")]
      else if bool_decide (dupnodes = reverse ordered_nodes)
           then [(dupway, "reverse_way")]
           else []
    else []) potential_duplicate_ways.

(** [[p for p in parents if type(p) == OsmWay]] *)
Definition way_parents (parents : list entity) : list Z :=
  omap (λ p, match p with EWay w => Some w | _ => None end) parents.

(** The body of the loop of [__parse_linestring] over the points; the
    accumulator is (previous_node_id, nodes, potential_duplicate_ways). *)
Definition linestring_point (acc : option Z * list Z * list Z)
    (pt : coord * coord * coord) : M (option Z * list Z * list Z) :=
  let '(previous_node_id, nodes, potential_duplicate_ways) := acc in
  let '(x, y, z_unused) := pt in
  let* node := add_node x y ∅ true in
  if match previous_node_id with
     | None => true
     | Some previous => negb (previous =? id_of node)%Z
     end
  then
    let* parents := gets (λ st, get_parents st (EPoint node)) in
    let potential :=
      match previous_node_id with
      | None => way_parents parents
      | Some _ =>
          if negb (py_any parents) && py_any potential_duplicate_ways
          then [] else potential_duplicate_ways
      end in
    ret (Some (id_of node), nodes ++ [node], potential)
  else ret acc.

(** The loop of [__parse_linestring] over the duplicates: the first one
    that the policy merges with, if any. *)
Fixpoint merge_duplicate_way (duplicate_ways : list (Z * string)) (t : tags)
    : M (option Z) :=
  match duplicate_ways with
  | [] => ret None
  | duplicate_way :: rest =>
      let* merged_tags := gets (λ st,
        merge_tags (translation st) duplicate_way.2
                   (way_tags st duplicate_way.1) t) in
      match merged_tags with
      | Some merged => set_way_tags duplicate_way.1 merged ;; ret (Some duplicate_way.1)
      | None => merge_duplicate_way rest t
      end
  end.

(** [OsmData.__parse_linestring] *)
Definition parse_linestring (g : OgrGeometry) (t : tags) : M Z :=
  let* (_, nodes, potential_duplicate_ways) :=
    fold_each (GetPoints g) linestring_point (None, [], []) in
  let* duplicate_ways := gets (λ st,
    verify_duplicate_ways st potential_duplicate_ways nodes) in
  let* merged := merge_duplicate_way duplicate_ways t in
  match merged with
  | Some way => ret way
  | None =>
      let* way := add_way t in
      set_way_nodes way nodes ;;
      for_each nodes (λ node, addparent (EPoint node) (EWay way)) ;;
      ret way
  end.

(** ** Polygons, relations and their duplicates *)

(** [OsmData.__verify_duplicate_relations] *)
Definition verify_duplicate_relations (st : OsmData)
    (potential_duplicate_relations : list Z)
    (members : list (entity * string)) : list Z :=
  filter (λ duprelation, relation_members st duprelation = members)
         potential_duplicate_relations.

(** [[p for p in parents if type(p) == OsmRelation
        and p.get_member_role(exterior) == "outer"]] *)
Definition outer_parents (st : OsmData) (exterior : entity)
    (parents : list entity) : list Z :=
  omap (λ p, match p with
             | ERelation r =>
                 if bool_decide (get_member_role st r exterior = "outer")
                 then Some r else None
             | _ => None
             end) parents.

(** The body of the loop of [__parse_polygon] over the interior rings;
    the accumulator is (members, potential_duplicate_relations). *)
Definition polygon_interior (acc : list (entity * string) * list Z)
    (ring : OgrGeometry) : M (list (entity * string) * list Z) :=
  let '(members, potential_duplicate_relations) := acc in
  let* interior := parse_linestring ring ∅ in
  let* parents := gets (λ st, get_parents st (EWay interior)) in
  ret (members ++ [(EWay interior, "inner")],
       if negb (py_any parents) && py_any potential_duplicate_relations
       then [] else potential_duplicate_relations).

Fixpoint merge_duplicate_relation (duplicate_relations : list Z) (t : tags)
    : M (option Z) :=
  match duplicate_relations with
  | [] => ret None
  | duplicate_relation :: rest =>
      let* merged_tags := gets (λ st,
        merge_tags (translation st) "relation"
                   (relation_tags st duplicate_relation) t) in
      match merged_tags with
      | Some merged =>
          set_relation_tags duplicate_relation merged ;; ret (Some duplicate_relation)
      | None => merge_duplicate_relation rest t
      end
  end.

Definition linestring_types : list wkb_type :=
  [wkbLineString; wkbLinearRing; wkbLineString25D].

(** [OsmData.__parse_polygon]; [None] is Python's [None]. *)
Definition parse_polygon (g : OgrGeometry) (t : tags) : M (option entity) :=
  if (GetGeometryCount g =? 0)%nat then
    warn "Polygon with no rings?" ;; ret None
  else
    let* ring0 := deref (GetGeometryRef g 0) in
    let* limit := gets max_points_in_way in
    if (GetGeometryCount g =? 1)%nat && (Z.of_nat (GetPointCount ring0) <=? limit)%Z then
      let* result := parse_linestring ring0 t in
      ret (Some (EWay result))
    else
      let exterior_geom_type := GetGeometryType ring0 in
      if bool_decide (exterior_geom_type ∈ linestring_types) then
        let* exterior := parse_linestring ring0 ∅ in
        let* potential := gets (λ st,
          outer_parents st (EWay exterior) (get_parents st (EWay exterior))) in
        let* (members, potential_duplicate_relations) :=
          fold_each (drop 1 (GetGeometries g)) polygon_interior
                    ([(EWay exterior, "outer")], potential) in
        let* duplicate_relations := gets (λ st,
          verify_duplicate_relations st potential_duplicate_relations members) in
        let* merged := merge_duplicate_relation duplicate_relations t in
        match merged with
        | Some relation => ret (Some (ERelation relation))
        | None =>
            let* relation := add_relation t in
            for_each members (λ m, addparent m.1 (ERelation relation)) ;;
            set_relation_members relation members ;;
            ret (Some (ERelation relation))
        end
      else
        warn "Polygon with no exterior ring?" ;; ret None.

(** What [__parse_collection] does with a ring of a multipolygon, be it
    the exterior ring (role "outer") or an interior one (role "inner"). *)
Definition multipolygon_ring (relation : Z) (role : string) (ring : OgrGeometry)
    : M unit :=
  let* way := parse_linestring ring ∅ in
  addparent (EWay way) (ERelation relation) ;;
  append_member relation (EWay way, role).

(** The body of the loop of [__parse_collection] over the parts of a
    multipolygon. *)
Definition multipolygon_part (relation : Z) (polygon : OgrGeometry) : M unit :=
  let* ext_geom := deref (GetGeometryRef polygon 0) in
  multipolygon_ring relation "outer" ext_geom ;;
  for_each (drop 1 (GetGeometries polygon)) (multipolygon_ring relation "inner").

(** [OsmData.__parse_collection].  The recursive call of the last branch,
    [self.__parse_geometry], is the argument [parse_geometry]; what it
    returns is a list, on which [addparent] raises AttributeError. *)
Definition parse_collection
    (parse_geometry : OgrGeometry → tags → M (list (option entity)))
    (g : OgrGeometry) (t : tags) : M (list (option entity)) :=
  let geometry_type := GetGeometryType g in
  if bool_decide (geometry_type ∈ [wkbMultiPolygon; wkbMultiPolygon25D]) then
    if (1 <? GetGeometryCount g)%nat then
      let* relation := add_relation t in
      for_each (GetGeometries g) (multipolygon_part relation) ;;
      ret [Some (ERelation relation)]
    else
      let* polygon := deref (GetGeometryRef g 0) in
      let* result := parse_polygon polygon t in
      ret [result]
  else if bool_decide (geometry_type ∈ [wkbMultiLineString; wkbMultiLineString25D]) then
    fold_each (GetGeometries g) (λ geometries linestring,
      let* way := parse_linestring linestring t in
      ret (geometries ++ [Some (EWay way)])) []
  else
    let* relation := add_relation t in
    for_each (GetGeometries g) (λ sub,
      let* member := parse_geometry sub ∅ in
      raise "AttributeError") ;;
    ret [Some (ERelation relation)].

(** ** The way splitter *)

(** [[OsmWay(tags) for i in range(count)]]: the new ways, in the order of
    their creation. *)
Definition create_way (t : tags) (created : list Z) (i : nat) : M (list Z) :=
  let* w := new_OsmWay t in
  ret (created ++ [w]).

Definition create_ways (t : tags) (count : nat) : M (list Z) :=
  fold_each (seq 0 count) (create_way t) [].

(** [node.removeparent(way); node.addparent(new_way)] *)
Definition reparent_node (way new_way node : Z) : M unit :=
  removeparent (EPoint node) (EWay way) ;;
  addparent (EPoint node) (EWay new_way).

(** The body of the loop of [__split_way] over [zip(new_ways, new_nodes)]. *)
Definition assign_chunk (way : Z) (part : Z * list Z) : M unit :=
  set_way_nodes part.1 part.2 ;;
  if negb (id_of part.1 =? id_of way)%Z then
    modify (with_ways (λ l, l ++ [part.1])) ;;
    for_each part.2 (reparent_node way part.1)
  else ret tt.

(** [OsmData.__split_way].  [range] refuses a step of 0 and is empty for a
    negative one. *)
Definition split_way (way : Z) : M (list Z) :=
  let* limit := gets max_points_in_way in
  let* nodes_of_way := gets (λ st, way_nodes st way) in
  if (limit - 1 =? 0)%Z then raise "ValueError" else
  let new_nodes :=
    if (limit - 1 <? 0)%Z then []
    else split_chunks (Z.to_nat limit) nodes_of_way in
  let* t := gets (λ st, way_tags st way) in
  let* created := create_ways t (length new_nodes - 1) in
  let new_ways := way :: created in
  for_each (zip new_ways new_nodes) (assign_chunk way) ;;
  ret new_ways.

(** The body of the loop of [__split_way_in_relation]. *)
Definition add_way_part (rel : Z) (way_role : string) (way : Z) : M unit :=
  addparent (EWay way) (ERelation rel) ;;
  append_member rel (EWay way, way_role).

(** [OsmData.__split_way_in_relation] *)
Definition split_way_in_relation (rel : Z) (way_parts : list Z) : M unit :=
  match way_parts with
  | [] => raise "IndexError"
  | first :: others =>
      let* way_role := gets (λ st, get_member_role st rel (EWay first)) in
      for_each others (add_way_part rel way_role)
  end.

(** The body of the loop of [split_long_ways] over the parents of a way;
    only a relation has [get_member_role]. *)
Definition split_in_parent (way_parts : list Z) (rel : entity) : M unit :=
  match rel with
  | ERelation r => split_way_in_relation r way_parts
  | _ => raise "AttributeError"
  end.

(** The body of the loop of [split_long_ways] for a way that is too long. *)
Definition split_long_way (way : Z) : M unit :=
  let* way_parts := split_way way in
  let* parents := gets (λ st, get_parents st (EWay way)) in
  for_each parents (split_in_parent way_parts).

(** The loop of [split_long_ways]: [for way in self.__ways] walks the
    list by position while [__split_way] appends to it.  [fuel] bounds the
    number of iterations ([None]: not enough); the list returned names the
    ways that were split, in order. *)
Fixpoint split_ways_loop (fuel i : nat) (st : OsmData) : option (outcome (list Z)) :=
  match fuel with
  | 0 => None
  | S fuel' =>
      match ways st !! i with
      | None => Some (Returns [] st)
      | Some way =>
          if (max_points_in_way st <? Z.of_nat (length (way_nodes st way)))%Z then
            match split_long_way way st with
            | Returns _ st' =>
                match split_ways_loop fuel' (S i) st' with
                | Some (Returns split st'') => Some (Returns (way :: split) st'')
                | other => other
                end
            | Raises e => Some (Raises e)
            end
          else split_ways_loop fuel' (S i) st
      end
  end.

(** [OsmData.split_long_ways]; the message of [logging.debug] is not kept. *)
Definition split_long_ways (fuel : nat) (st : OsmData) : option (outcome unit) :=
  if (max_points_in_way st <? 2)%Z then Some (Returns tt st)
  else
    match split_ways_loop fuel 0 st with
    | Some (Returns _ st') => Some (Returns tt st')
    | Some (Raises e) => Some (Raises e)
    | None => None
    end.

(** [OsmData.__init__]: empty stores; the identity generator starts at
    [counter] and moves by [incr]. *)
Definition new_OsmData (tr : Translation) (digits limit : Z) (bounds : bool)
    (counter incr : Z) : OsmData :=
  {| translation := tr; rounding_digits := digits;
     max_points_in_way := limit; add_bounds := bounds;
     nodes := []; unique_node_index := ∅; ways := []; relations := [];
     heap_points := ∅; heap_ways := ∅; heap_relations := ∅;
     id_counter := counter; id_incr := incr; warnings := [] |}.

End Model.

Arguments Geometry {coord}.
Arguments GetGeometryType {coord}.
Arguments GetPoints {coord}.
Arguments GetGeometries {coord}.
Arguments GetGeometryCount {coord}.
Arguments GetPointCount {coord}.
Arguments GetGeometryRef {coord}.
Arguments p_x {coord}.
Arguments p_y {coord}.
Arguments p_tags {coord}.
Arguments p_parents {coord}.
Arguments translation {coord}.
Arguments rounding_digits {coord}.
Arguments max_points_in_way {coord}.
Arguments add_bounds {coord}.
Arguments nodes {coord}.
Arguments unique_node_index {coord}.
Arguments ways {coord}.
Arguments relations {coord}.
Arguments heap_points {coord}.
Arguments heap_ways {coord}.
Arguments heap_relations {coord}.
Arguments id_counter {coord}.
Arguments id_incr {coord}.
Arguments warnings {coord}.
Arguments with_nodes {coord}.
Arguments with_index {coord}.
Arguments with_ways {coord}.
Arguments with_relations {coord}.
Arguments with_heap_points {coord}.
Arguments with_heap_ways {coord}.
Arguments with_heap_relations {coord}.
Arguments with_id_counter {coord}.
Arguments with_warnings {coord}.
Arguments Returns {coord A}.
Arguments Raises {coord A}.
Arguments ret {coord A}.
Arguments bind {coord A B}.
Arguments raise {coord A}.
Arguments gets {coord A}.
Arguments modify {coord}.
Arguments for_each {coord A}.
Arguments fold_each {coord A S}.
Arguments deref {coord A}.
Arguments warn {coord}.
Arguments point_tags {coord}.
Arguments way_tags {coord}.
Arguments way_nodes {coord}.
Arguments relation_tags {coord}.
Arguments relation_members {coord}.
Arguments get_parents {coord}.
Arguments get_member_role {coord}.
Arguments set_point_tags {coord}.
Arguments set_way_tags {coord}.
Arguments set_way_nodes {coord}.
Arguments set_relation_tags {coord}.
Arguments set_relation_members {coord}.
Arguments append_member {coord}.
Arguments update_parents {coord}.
Arguments addparent {coord}.
Arguments removeparent {coord}.
Arguments new_id {coord}.
Arguments new_OsmPoint {coord}.
Arguments new_OsmWay {coord}.
Arguments new_OsmRelation {coord}.
Arguments round_number {coord}.
Arguments merge_into_bucket {coord}.
Arguments add_node {coord}.
Arguments add_way {coord}.
Arguments add_relation {coord}.
Arguments verify_duplicate_ways {coord}.
Arguments linestring_point {coord}.
Arguments merge_duplicate_way {coord}.
Arguments parse_linestring {coord}.
Arguments verify_duplicate_relations {coord}.
Arguments outer_parents {coord}.
Arguments polygon_interior {coord}.
Arguments merge_duplicate_relation {coord}.
Arguments parse_polygon {coord}.
Arguments multipolygon_ring {coord}.
Arguments multipolygon_part {coord}.
Arguments parse_collection {coord}.
Arguments create_way {coord}.
Arguments create_ways {coord}.
Arguments reparent_node {coord}.
Arguments assign_chunk {coord}.
Arguments split_way {coord}.
Arguments add_way_part {coord}.
Arguments split_in_parent {coord}.
Arguments split_way_in_relation {coord}.
Arguments split_long_way {coord}.
Arguments split_ways_loop {coord}.
Arguments split_long_ways {coord}.
Arguments new_OsmData {coord}.

(** ** Points and the dispatcher *)

Section Dispatch.

Context {coord : Type}.
Variable py_round_scaled : Z → coord → Z.

(** The float 0.0, which [GetX] and [GetY] answer on a geometry without
    points. *)
Variable zero : coord.

Notation "'let*' x ':=' m 'in' k" := (bind m (λ x, k))
  (at level 10, x pattern, m at level 100, k at level 200).
Notation "m ';;' k" := (bind m (λ _, k))
  (at level 100, k at level 200, right associativity).

(** [GetX()], [GetY()]: the coordinates of the first point. *)
Definition GetX (g : OgrGeometry coord) : coord :=
  match GetPoints g with
  | (x, _, _) :: _ => x
  | [] => zero
  end.

Definition GetY (g : OgrGeometry coord) : coord :=
  match GetPoints g with
  | (_, y, _) :: _ => y
  | [] => zero
  end.

(** [OsmData.__parse_point] *)
Definition parse_point (g : OgrGeometry coord) (t : tags) : M coord Z :=
  add_node py_round_scaled (GetX g) (GetY g) t false.

Definition point_types : list wkb_type := [wkbPoint; wkbPoint25D].

Definition polygon_types : list wkb_type := [wkbPolygon; wkbPolygon25D].

Definition collection_types : list wkb_type :=
  [wkbMultiPoint; wkbMultiLineString; wkbMultiPolygon; wkbGeometryCollection;
   wkbMultiPoint25D; wkbMultiLineString25D; wkbMultiPolygon25D;
   wkbGeometryCollection25D].

(** The body of [OsmData.__parse_geometry]; [parse_geometry] is the
    method itself, which [__parse_collection] calls on the members of a
    collection.  The log keeps the message as [logging.warning] is given
    it, before the type is filled in. *)
Definition parse_geometry_body
    (parse_geometry : OgrGeometry coord → tags → M coord (list (option entity)))
    (g : OgrGeometry coord) (t : tags) : M coord (list (option entity)) :=
  let geometry_type := GetGeometryType g in
  if bool_decide (geometry_type ∈ point_types) then
    let* node := parse_point g t in
    ret [Some (EPoint node)]
  else if bool_decide (geometry_type ∈ linestring_types) then
    let* way := parse_linestring py_round_scaled g t in
    ret [Some (EWay way)]
  else if bool_decide (geometry_type ∈ polygon_types) then
    let* result := parse_polygon py_round_scaled g t in
    ret [result]
  else if bool_decide (geometry_type ∈ collection_types) then
    parse_collection py_round_scaled parse_geometry g t
  else
    warn "Unhandled geometry, type %s" ;; ret [].

(** How deep a geometry is nested: 1 for a geometry without members. *)
Fixpoint nesting (g : OgrGeometry coord) : nat :=
  match g with
  | Geometry _ _ geometries =>
      S (foldr (λ sub deepest, nesting sub `max` deepest) 0 geometries)
  end.

(** [OsmData.__parse_geometry] calls itself, through
    [__parse_collection], on the members of a collection.
    [parse_geometry_at depth] follows the calls [depth] deep, and
    [parse_geometry] as deep as the geometry is nested, which is as deep
    as they go. *)
Fixpoint parse_geometry_at (depth : nat) (g : OgrGeometry coord) (t : tags)
    : M coord (list (option entity)) :=
  match depth with
  | 0 => raise "RecursionError"
  | S depth' => parse_geometry_body (parse_geometry_at depth') g t
  end.

Definition parse_geometry (g : OgrGeometry coord) (t : tags)
    : M coord (list (option entity)) :=
  parse_geometry_at (nesting g) g t.

End Dispatch.

Arguments GetX {coord}.
Arguments GetY {coord}.
Arguments parse_point {coord}.
Arguments parse_geometry_body {coord}.
Arguments nesting {coord}.
Arguments parse_geometry_at {coord}.
Arguments parse_geometry {coord}.

(** ** Invariants of the stores, frames and measures *)

(** The node stores are consistent when every position held by the index
    is a position of [self.__nodes] and every node listed there is on the
    heap. *)
Definition nodes_wf {coord : Type} (st : OsmData coord) : Prop :=
  map_Forall (λ _ bucket, Forall (λ i, i < length (nodes st)) bucket)
             (unique_node_index st)
  ∧ Forall (λ n, is_Some (heap_points st !! n)) (nodes st).

(** The key under which [__add_node] files the node of a way. *)
Definition key_of {coord : Type} (rnd : Z → coord → Z) (st : OsmData coord)
    (x y : coord) : node_key :=
  inl (rnd (rounding_digits st) x, rnd (rounding_digits st) y).


(** The identities that the generator gives out next. *)
Fixpoint fresh_ids (counter incr : Z) (count : nat) : list Z :=
  match count with
  | 0 => []
  | S count' => (counter + incr)%Z :: fresh_ids (counter + incr) incr count'
  end.

(** The part of the store that the way splitter works on. *)
Definition ways_view {coord : Type} (st : OsmData coord)
    : list Z * gmap Z OsmWay * Z * Z * Z :=
  (ways st, heap_ways st, id_counter st, id_incr st, max_points_in_way st).

(** Steps that leave that part as it is. *)
Definition view_kept {coord : Type} (st st' : OsmData coord) : Prop :=
  ways_view st' = ways_view st.

(** [way.nodes = ns] *)
Definition renode (ns : list Z) (o : OsmWay) : OsmWay :=
  {| w_tags := w_tags o; w_nodes := ns; w_parents := w_parents o |}.

(** The parents of a way are relations. *)
Definition is_relation (e : entity) : Prop :=
  match e with ERelation _ => True | _ => False end.

(** What the way splitter leaves of the ways when it moves on to the
    relations: the list, the node sequences, the generator and the limit
    stay, and parents that were relations still are. *)
Definition nodes_kept {coord : Type} (st st' : OsmData coord) : Prop :=
  ways st' = ways st
  ∧ id_counter st' = id_counter st
  ∧ id_incr st' = id_incr st
  ∧ max_points_in_way st' = max_points_in_way st
  ∧ (∀ w, way_nodes st' w = way_nodes st w)
  ∧ (∀ w, Forall is_relation (get_parents st (EWay w)) →
          Forall is_relation (get_parents st' (EWay w))).

(** The way stores are consistent when no way is listed twice, the
    identity of every listed way has already been given out by the
    generator (which moves by a step other than 0), and the parents of a
    way are relations. *)
Definition ways_wf {coord : Type} (st : OsmData coord) : Prop :=
  NoDup (ways st)
  ∧ id_incr st ≠ 0%Z
  ∧ Forall (λ w, ((w - id_counter st) * id_incr st ≤ 0)%Z
                 ∧ Forall is_relation (get_parents st (EWay w))) (ways st).

(** A way is too long for the store when [len(way.nodes) > max_points_in_way]. *)
Definition too_long {coord : Type} (st : OsmData coord) (way : Z) : Prop :=
  (max_points_in_way st < Z.of_nat (length (way_nodes st way)))%Z.

#[global] Instance too_long_dec {coord : Type} (st : OsmData coord) (way : Z) :
  Decision (too_long st way).
Proof. unfold too_long. apply _. Defined.

(** What is left for the loop of [split_long_ways] to do from position
    [i] on: one step for each way, and as many more as it has nodes for a
    way that is too long. *)
Definition split_weight {coord : Type} (st : OsmData coord) (way : Z) : nat :=
  if decide (too_long st way) then S (length (way_nodes st way)) else 1.

Definition split_measure {coord : Type} (st : OsmData coord) (i : nat) : nat :=
  sum_list_with (split_weight st) (drop i (ways st)).

(** Steps that leave the relations as they are. *)
Definition relations_kept {coord : Type} (st st' : OsmData coord) : Prop :=
  relations st' = relations st ∧ heap_relations st' = heap_relations st.





(** ** Rings, chunks and what the parsers return *)

(** Two sequences go around the same ring when one is the other, or the
    other is closed and the one is a rotation of it. *)
Definition same_cycle (nodes others : list Z) : Prop :=
  nodes = others
  ∨ (is_closed id_of others = true ∧ ∃ k, nodes = ring_rotate k others).

(** The node sequence that a list of chunks stands for: the first chunk,
    followed by the others without their first node (which is the last
    node of the chunk before). *)
Definition join_chunks {A : Type} (chunks : list (list A)) : list A :=
  match chunks with
  | [] => []
  | first :: others => first ++ concat (drop 1 <$> others)
  end.

(** One sequence is a rotation of another. *)
Definition rotation_of {A : Type} (l k : list A) : Prop := ∃ n, l = rotate n k.

(** ** Specifications of computations *)

(** Whenever [m] returns from a store that satisfies [P], the result and
    the store it leaves satisfy [Q]. *)
Definition hoare {coord A : Type} (P : OsmData coord → Prop) (m : M coord A)
    (Q : A → OsmData coord → Prop) : Prop :=
  ∀ st a st', P st → m st = Returns a st' → Q a st'.

(** [m] keeps the invariant [I] whenever it returns. *)
Definition keeps {coord A : Type} (I : OsmData coord → Prop) (m : M coord A) : Prop :=
  hoare I m (λ _, I).

(** From a store that satisfies [I], [m] returns, and keeps [I]. *)
Definition safe {coord A : Type} (I : OsmData coord → Prop) (m : M coord A) : Prop :=
  ∀ st, I st → ∃ a st', m st = Returns a st' ∧ I st'.

(** The geometries on which [__parse_geometry] raises AttributeError: a
    multipolygon without parts, or with several parts of which one has no
    ring, and any other collection, except a multilinestring, that has a
    member. *)
Definition raises_AttributeError {coord : Type} (g : OgrGeometry coord) : bool :=
  bool_decide (GetGeometryType g ∈ collection_types)
  && if bool_decide (GetGeometryType g ∈ [wkbMultiPolygon; wkbMultiPolygon25D])
     then match GetGeometries g with
          | [] => true
          | [_] => false
          | parts => bool_decide (Exists (λ polygon, GetGeometryCount polygon = 0) parts)
          end
     else if bool_decide (GetGeometryType g
                          ∈ [wkbMultiLineString; wkbMultiLineString25D])
          then false
          else bool_decide (1 ≤ GetGeometryCount g)%nat.







(** Where a node is and what it is tagged with. *)
Definition point_placed {coord : Type} (p : OsmPoint coord) : coord * coord * tags :=
  (p_x p, p_y p, p_tags p).

(** What the way splitter leaves alone: the list of nodes and its index,
    the place and the tags of every node, the list of relations and the
    tags of every relation. *)
Definition split_frame {coord : Type} (st st' : OsmData coord) : Prop :=
  nodes st' = nodes st
  ∧ unique_node_index st' = unique_node_index st
  ∧ relations st' = relations st
  ∧ (∀ n, point_placed <$> (heap_points st' !! n)
          = point_placed <$> (heap_points st !! n))
  ∧ (∀ r, r_tags <$> (heap_relations st' !! r)
          = r_tags <$> (heap_relations st !! r)).

(** The nodes that the splitter has moved from the way [way] to a new
    way: [moved] pairs each with the new way it belongs to.  Such a node
    has lost [way] as a parent and, if it is on the heap, has the new way
    as one. *)
Definition reparented {coord : Type} (way : Z) (moved : list (Z * Z))
    (st : OsmData coord) : Prop :=
  ∀ n c, (n, c) ∈ moved →
    c ≠ way
    ∧ (EWay way ∉ get_parents st (EPoint n))
    ∧ (is_Some (heap_points st !! n) → EWay c ∈ get_parents st (EPoint n)).

(** The nodes of the parts other than [way] itself, each with its part. *)
Definition moved_nodes (way : Z) (parts : list (Z * list Z)) : list (Z * Z) :=
  flat_map (λ part, if decide (part.1 = way) then []
                    else (λ n, (n, part.1)) <$> part.2) parts.

(** [relation.members] longer by [members]. *)
Definition with_members (members : list (entity * string)) (o : OsmRelation)
    : OsmRelation :=
  {| r_tags := r_tags o; r_members := r_members o ++ members;
     r_parents := r_parents o |}.

(** The members that a relation takes in when a way of its is split:
    the new parts in order, under the role of the way. *)
Definition part_members {coord : Type} (st : OsmData coord) (rel way : Z)
    (created : list Z) : list (entity * string) :=
  (λ part, (EWay part, get_member_role st rel (EWay way))) <$> created.







(** ** Sample policies, stores and geometries, on integer coordinates *)

(** A policy that never merges, and one that always does, by union. *)
Definition never_merge : Translation :=
  {| merge_tags := λ _ _ _, None;
     get_unique_node_identifier := λ rx ry _, inl (rx, ry) |}.

Definition always_merge : Translation :=
  {| merge_tags := λ _ existing incoming, Some (existing ∪ incoming);
     get_unique_node_identifier := λ rx ry _, inl (rx, ry) |}.

(** Sample coordinates are integers, ten of them to a quantum. *)
Definition round_Z (digits : Z) (n : Z) : Z := (n / 10)%Z.

Definition linestring_Z (t : wkb_type) (ps : list (Z * Z)) : OgrGeometry Z :=
  Geometry t ((λ p, (p.1, p.2, 0%Z)) <$> ps) [].

(** An empty store on integer coordinates, and one that holds a single
    way with the given nodes. *)
Definition empty_store (tr : Translation) (limit : Z) : OsmData Z :=
  new_OsmData tr 7 limit false 0 (-1).

Definition store_with_way (way : Z) (ns : list Z) : OsmData Z :=
  with_heap_ways (insert way {| w_tags := ∅; w_nodes := ns; w_parents := [] |})
    (with_ways (λ l, l ++ [way]) (empty_store never_merge 1800)).

Definition store_with_relation (rel : Z) (ms : list (entity * string)) : OsmData Z :=
  with_heap_relations
    (insert rel {| r_tags := ∅; r_members := ms; r_parents := [] |})
    (with_relations (λ l, l ++ [rel]) (empty_store never_merge 1800)).

(** What a computation returned. *)
Definition returned {coord A : Type} (o : outcome coord A) : option A :=
  match o with Returns a _ => Some a | Raises _ => None end.

(** The store after a polygon with one ring of three points has been
    parsed under a limit of two points per way: three nodes -1, -2, -3, the
    way -4 through them and the relation -5 with that way as its "outer"
    member. *)
Definition long_ring_store : OsmData Z :=
  match parse_polygon round_Z
          (Geometry wkbPolygon []
             [linestring_Z wkbLinearRing [(0, 0); (100, 0); (100, 100)]%Z]) ∅
          (empty_store never_merge 2) with
  | Returns _ st => st
  | Raises _ => empty_store never_merge 2
  end.

(** A multipolygon of two parts: a square with a hole, and a triangle. *)
Definition two_part_multipolygon : OgrGeometry Z :=
  Geometry wkbMultiPolygon []
    [Geometry wkbPolygon []
       [linestring_Z wkbLinearRing [(0, 0); (900, 0); (900, 900); (0, 900); (0, 0)]%Z;
        linestring_Z wkbLinearRing [(300, 300); (600, 300); (600, 600); (300, 300)]%Z];
     Geometry wkbPolygon []
       [linestring_Z wkbLinearRing [(2000, 0); (2900, 0); (2900, 900); (2000, 0)]%Z]].



Definition collection_of_a_point : OgrGeometry Z :=
  Geometry wkbGeometryCollection [] [linestring_Z wkbPoint [(0, 0)]%Z].


(** * Properties *)

Local Close Scope string_scope.

(** ** Ring canonicalisation *)

Section OrderedFacts.

Context {Node : Type} (node_id : Node → Z).

Lemma lowest_from_stay i rest li lid :
  Forall (λ a, (lid ≤ node_id a)%Z) rest →
  lowest_from node_id i rest li lid = li.
Proof.
  revert i. induction rest as [|n rest IH]; intros i Hall; [done|].
  inversion_clear Hall as [|? ? Hn Hrest]. simpl.
  destruct (Z.ltb_spec (node_id n) lid); [lia|]. by apply IH.
Qed.

Lemma lowest_from_find i pre m post li lid :
  Forall (λ a, (node_id m < node_id a)%Z) pre →
  Forall (λ a, (node_id m ≤ node_id a)%Z) post →
  (node_id m < lid)%Z →
  lowest_from node_id i (pre ++ m :: post) li lid = i + length pre.
Proof.
  revert i li lid. induction pre as [|n pre IH]; intros i li lid Hpre Hpost Hm.
  - simpl. destruct (Z.ltb_spec (node_id m) lid); [|lia].
    rewrite lowest_from_stay by done. lia.
  - inversion_clear Hpre as [|? ? Hn Hpre']. simpl.
    destruct (Z.ltb_spec (node_id n) lid).
    + rewrite IH by done. lia.
    + rewrite IH by done. lia.
Qed.

(** Every non-empty sequence splits at the first occurrence of its lowest
    identity. *)
Lemma first_lowest_split (l : list Node) :
  l ≠ [] →
  ∃ pre m post, l = pre ++ m :: post
    ∧ Forall (λ a, (node_id m < node_id a)%Z) pre
    ∧ Forall (λ a, (node_id m ≤ node_id a)%Z) post.
Proof.
  induction l as [|a l IH]; [done|]. intros _.
  destruct l as [|b l'].
  { exists [], a, []. by repeat constructor. }
  destruct IH as (pre & m & post & Heq & Hpre & Hpost); [done|].
  destruct (Z.lt_ge_cases (node_id m) (node_id a)) as [Hlt|Hge].
  - exists (a :: pre), m, post. rewrite Heq. split; [done|].
    split; [by constructor|done].
  - exists [], a, (b :: l'). split; [done|]. split; [constructor|].
    rewrite Heq. apply Forall_app. split.
    + eapply Forall_impl; [exact Hpre|]. simpl. intros; lia.
    + constructor; [lia|]. eapply Forall_impl; [exact Hpost|]. simpl. intros; lia.
Qed.


End OrderedFacts.

Section RingFacts.

Context {Node : Type} (node_id : Node → Z).

Lemma close_ring_cons (a : Node) (ring : list Node) :
  close_ring (a :: ring) = a :: ring ++ [a].
Proof. unfold close_ring. simpl. by rewrite take_0. Qed.

Lemma is_closed_cons_snoc (a b : Node) (l : list Node) :
  is_closed node_id (a :: l ++ [b])
  = bool_decide (1 ≤ length l) && (node_id a =? node_id b)%Z.
Proof.
  unfold is_closed. rewrite app_comm_cons, last_snoc.
  simpl length. rewrite length_app. simpl length.
  f_equal. apply bool_decide_ext. lia.
Qed.

Lemma is_closed_close_ring (ring : list Node) :
  2 ≤ length ring → is_closed node_id (close_ring ring) = true.
Proof.
  intros Hlen. destruct ring as [|a ring]; [simpl in Hlen; lia|].
  rewrite close_ring_cons, is_closed_cons_snoc. simpl in Hlen.
  rewrite bool_decide_eq_true_2 by lia. simpl. apply Z.eqb_refl.
Qed.

Lemma open_close_ring (ring : list Node) :
  ring ≠ [] → open_ring (close_ring ring) = ring.
Proof.
  intros Hne. destruct ring as [|a ring]; [done|].
  rewrite close_ring_cons. unfold open_ring.
  rewrite app_comm_cons, length_app. simpl length.
  replace (S (length ring) + 1 - 1) with (length (a :: ring)) by (simpl; lia).
  by rewrite take_app_length.
Qed.

Lemma get_ordered_nodes_closed first rest :
  is_closed node_id (first :: rest) = true →
  get_ordered_nodes node_id (first :: rest)
  = drop (lowest_from node_id 1 rest 0 (node_id first)) (open_ring (first :: rest))
    ++ take (lowest_from node_id 1 rest 0 (node_id first) + 1) (first :: rest).
Proof. intros Hclosed. unfold get_ordered_nodes. by rewrite Hclosed. Qed.

Lemma get_ordered_nodes_open nodes :
  is_closed node_id nodes = false → get_ordered_nodes node_id nodes = nodes.
Proof. intros Hopen. unfold get_ordered_nodes. by rewrite Hopen. Qed.

(** The canonical form of a ring: it starts at the first occurrence of
    the lowest identity, goes once around and ends there again. *)
Lemma get_ordered_nodes_ring pre m post :
  Forall (λ a, (node_id m < node_id a)%Z) pre →
  Forall (λ a, (node_id m ≤ node_id a)%Z) post →
  2 ≤ length (pre ++ m :: post) →
  get_ordered_nodes node_id (close_ring (pre ++ m :: post))
  = m :: post ++ pre ++ [m].
Proof.
  intros Hpre Hpost Hlen.
  pose proof (is_closed_close_ring _ Hlen) as Hclosed.
  pose proof (open_close_ring (pre ++ m :: post)) as Hopen.
  destruct pre as [|first pre].
  - simpl app in *. rewrite close_ring_cons in *.
    rewrite get_ordered_nodes_closed, Hopen by done.
    rewrite lowest_from_stay.
    + simpl. by rewrite take_0.
    + apply Forall_app. split; [done|]. constructor; [lia|constructor].
  - inversion_clear Hpre as [|? ? Hfirst Hpre'].
    simpl app in *. rewrite close_ring_cons in *.
    rewrite get_ordered_nodes_closed, Hopen by done.
    rewrite <- app_assoc. simpl app.
    rewrite lowest_from_find; [|done| |done].
    + replace (1 + length pre) with (length (first :: pre)) by done.
      change (first :: pre ++ m :: post) with ((first :: pre) ++ m :: post) at 1.
      rewrite (drop_app_length (first :: pre)).
      replace (length (first :: pre) + 1) with (length (first :: pre ++ [m]))
        by (simpl; rewrite length_app; simpl; lia).
      replace (first :: pre ++ m :: post ++ [first])
        with ((first :: pre ++ [m]) ++ (post ++ [first]))
        by (simpl; by rewrite <- app_assoc).
      rewrite take_app_length. simpl. by rewrite <- ?app_assoc.
    + apply Forall_app. split; [done|]. constructor; [lia|constructor].
Qed.

End RingFacts.

Section RotationFacts.

Context {Node : Type} (node_id : Node → Z).

Lemma filter_none (P : Node → Prop) `{!∀ x, Decision (P x)} (l : list Node) :
  Forall (λ a, ¬ P a) l → filter P l = [].
Proof.
  induction 1 as [|a l Ha Hl IH]; [done|]. by rewrite filter_cons_False.
Qed.

(** A ring whose lowest identity occurs once splits around it. *)
Lemma lowest_once_split (ring : list Node) :
  length (lowest_places node_id ring) = 1 →
  ∃ pre m post, ring = pre ++ m :: post
    ∧ Forall (λ a, (node_id m < node_id a)%Z) pre
    ∧ Forall (λ a, (node_id m < node_id a)%Z) post.
Proof.
  intros Hone.
  destruct (first_lowest_split node_id ring) as (pre & m & post & Heq & Hpre & Hpost).
  { intros ->. by simpl in Hone. }
  exists pre, m, post. split; [done|]. split; [done|].
  assert (Hm : Forall (λ b, (node_id m ≤ node_id b)%Z) ring).
  { rewrite Heq. apply Forall_app. split.
    - eapply Forall_impl; [exact Hpre|]. simpl. intros; lia.
    - constructor; [lia|done]. }
  assert (Hfpre : filter (λ a, Forall (λ b, (node_id a ≤ node_id b)%Z) ring) pre = []).
  { apply filter_none. eapply Forall_impl; [exact Hpre|].
    simpl. intros a Ha Hall. rewrite Forall_forall in Hall.
    assert (m ∈ ring) as Hin by (rewrite Heq; set_solver).
    specialize (Hall m Hin). lia. }
  assert (Hsplit : lowest_places node_id ring
    = filter (λ a, Forall (λ b, (node_id a ≤ node_id b)%Z) ring) pre
      ++ filter (λ a, Forall (λ b, (node_id a ≤ node_id b)%Z) ring) (m :: post)).
  { unfold lowest_places. rewrite <- filter_app. by rewrite <- Heq. }
  rewrite Hsplit, Hfpre, filter_cons_True in Hone by done.
  simpl in Hone.
  assert (Hnil : filter (λ a, Forall (λ b, (node_id a ≤ node_id b)%Z) ring) post = []).
  { apply nil_length_inv. lia. }
  apply Forall_forall. intros b Hb.
  destruct (Z.lt_ge_cases (node_id m) (node_id b)) as [|Hge]; [done|].
  exfalso. eapply (filter_nil_not_elem_of _ _ b Hnil); [|exact Hb].
  eapply Forall_impl; [exact Hm|]. simpl. intros; lia.
Qed.

(** Rotating a ring keeps what follows the lowest place, around the ring. *)
Lemma rotate_split (P : Node → Prop) k pre m post :
  Forall P pre → Forall P post →
  ∃ pre' post', rotate k (pre ++ m :: post) = pre' ++ m :: post'
    ∧ Forall P pre' ∧ Forall P post' ∧ post' ++ pre' = post ++ pre.
Proof.
  intros Hpre Hpost. unfold rotate.
  set (j := k mod length (pre ++ m :: post)).
  assert (Hj : j < length (pre ++ m :: post)).
  { apply Nat.mod_upper_bound. rewrite length_app. simpl. lia. }
  rewrite length_app in Hj. simpl in Hj. clearbody j.
  destruct (decide (j ≤ length pre)) as [Hle|Hgt].
  - exists (drop j pre), (post ++ take j pre).
    rewrite drop_app_le, take_app_le by done.
    split; [by rewrite <- app_assoc|].
    split; [by apply Forall_drop|].
    split; [apply Forall_app; split; [done|by apply Forall_take]|].
    by rewrite <- app_assoc, take_drop.
  - rewrite drop_app_ge, take_app_ge by lia.
    destruct (j - length pre) as [|j'] eqn:Hj'; [lia|].
    exists (drop j' post ++ pre), (take j' post).
    simpl. split; [by rewrite <- app_assoc|].
    split; [apply Forall_app; split; [by apply Forall_drop|done]|].
    split; [by apply Forall_take|].
    by rewrite app_assoc, take_drop.
Qed.

Lemma get_ordered_nodes_rotate k (ring : list Node) :
  2 ≤ length ring →
  length (lowest_places node_id ring) = 1 →
  get_ordered_nodes node_id (close_ring (rotate k ring))
  = get_ordered_nodes node_id (close_ring ring).
Proof.
  intros Hlen Hone.
  destruct (lowest_once_split ring Hone) as (pre & m & post & -> & Hpre & Hpost).
  destruct (rotate_split (λ a, (node_id m < node_id a)%Z) k pre m post Hpre Hpost)
    as (pre' & post' & Hrot & Hpre' & Hpost' & Heq).
  assert (Hlen' : 2 ≤ length (pre' ++ m :: post')).
  { rewrite <- Hrot, length_rotate. done. }
  rewrite Hrot.
  rewrite !get_ordered_nodes_ring; try done.
  - by rewrite !app_assoc, Heq.
  - eapply Forall_impl; [exact Hpost|]. simpl. intros; lia.
  - eapply Forall_impl; [exact Hpost'|]. simpl. intros; lia.
Qed.

Lemma reverse_close_ring (a : Node) (ring : list Node) :
  reverse (close_ring (a :: ring)) = close_ring (a :: reverse ring).
Proof.
  rewrite !close_ring_cons.
  by rewrite reverse_cons, reverse_app, reverse_singleton.
Qed.

Lemma get_ordered_nodes_reverse pre m post :
  Forall (λ a, (node_id m < node_id a)%Z) pre →
  Forall (λ a, (node_id m < node_id a)%Z) post →
  2 ≤ length (pre ++ m :: post) →
  get_ordered_nodes node_id (reverse (close_ring (pre ++ m :: post)))
  = reverse (get_ordered_nodes node_id (close_ring (pre ++ m :: post))).
Proof.
  intros Hpre Hpost Hlen.
  assert (Hpost' : Forall (λ a, (node_id m ≤ node_id a)%Z) post).
  { eapply Forall_impl; [exact Hpost|]. simpl. intros; lia. }
  assert (Hpre' : Forall (λ a, (node_id m ≤ node_id a)%Z) pre).
  { eapply Forall_impl; [exact Hpre|]. simpl. intros; lia. }
  rewrite (get_ordered_nodes_ring node_id pre m post) by done.
  destruct pre as [|h pre].
  - simpl app in *. rewrite reverse_close_ring.
    pose proof (get_ordered_nodes_ring node_id [] m (reverse post)) as Hrev.
    simpl app in Hrev. rewrite Hrev.
    + rewrite reverse_cons, reverse_app, reverse_singleton. simpl.
      by rewrite ?app_nil_r.
    + constructor.
    + by apply Forall_reverse.
    + simpl in *. rewrite length_reverse. done.
  - simpl app in *. rewrite reverse_close_ring.
    rewrite reverse_app, reverse_cons. rewrite <- app_assoc. simpl app.
    pose proof (get_ordered_nodes_ring node_id (h :: reverse post) m (reverse pre))
      as Hrev.
    simpl app in Hrev. rewrite Hrev.
    + rewrite reverse_cons, reverse_app, reverse_cons, reverse_snoc.
      simpl. by rewrite <- !app_assoc.
    + inversion_clear Hpre. constructor; [done|]. by apply Forall_reverse.
    + inversion_clear Hpre'. by apply Forall_reverse.
    + simpl in *. rewrite length_app in *. simpl in *.
      rewrite !length_reverse. lia.
Qed.

Lemma get_ordered_nodes_rotate_reverse k (ring : list Node) :
  2 ≤ length ring →
  length (lowest_places node_id ring) = 1 →
  get_ordered_nodes node_id (reverse (close_ring (rotate k ring)))
  = reverse (get_ordered_nodes node_id (close_ring ring)).
Proof.
  intros Hlen Hone.
  rewrite <- (get_ordered_nodes_rotate k ring Hlen Hone).
  destruct (lowest_once_split ring Hone) as (pre & m & post & -> & Hpre & Hpost).
  destruct (rotate_split (λ a, (node_id m < node_id a)%Z) k pre m post Hpre Hpost)
    as (pre' & post' & Hrot & Hpre' & Hpost' & Heq).
  rewrite Hrot. apply get_ordered_nodes_reverse; [done..|].
  by rewrite <- Hrot, length_rotate.
Qed.

Lemma length_close_ring (ring : list Node) :
  ring ≠ [] → length (close_ring ring) = S (length ring).
Proof.
  destruct ring as [|a ring]; [done|]. intros _.
  rewrite close_ring_cons. simpl. rewrite length_app. simpl. lia.
Qed.

End RotationFacts.

Section CanonicalWays.

Context {coord : Type}.
Implicit Types (st : OsmData coord) (nodes : list Z).

(** A closed sequence of references is a ring, closed by its first node. *)
Lemma is_closed_ring nodes :
  is_closed id_of nodes = true →
  nodes = close_ring (open_ring nodes) ∧ 2 ≤ length (open_ring nodes).
Proof.
  unfold is_closed, id_of. destruct nodes as [|first rest]; [done|].
  destruct (last (first :: rest)) as [final|] eqn:Hlast; [|done].
  intros [Hlen Heq]%andb_true_iff.
  apply bool_decide_eq_true in Hlen. apply Z.eqb_eq in Heq. subst final.
  apply last_Some in Hlast as [ring Hring].
  assert (Hlen' : 2 ≤ length ring).
  { rewrite Hring, length_app in Hlen. simpl in Hlen. lia. }
  assert (Hopen : open_ring (first :: rest) = ring).
  { rewrite Hring. unfold open_ring. rewrite length_app. simpl.
    replace (length ring + 1 - 1) with (length ring) by lia.
    apply take_app_length. }
  rewrite Hopen. split; [|done].
  rewrite Hring. destruct ring as [|a ring]; [simpl in Hlen'; lia|].
  simpl in Hring. injection Hring as -> _. by rewrite close_ring_cons.
Qed.

(** C3, as the code has it: the canonical form of a closed sequence
    starts at a node of lowest identity, ends at that same node and is as
    long as the sequence itself (the closing node is kept, not dropped);
    an open sequence is returned unchanged. *)
Theorem get_ordered_nodes_shape nodes :
  (is_closed id_of nodes = true →
    ∃ m, head (get_ordered_nodes id_of nodes) = Some m
      ∧ last (get_ordered_nodes id_of nodes) = Some m
      ∧ m ∈ nodes
      ∧ (∀ n, n ∈ nodes → (id_of m ≤ id_of n)%Z)
      ∧ length (get_ordered_nodes id_of nodes) = length nodes)
  ∧ (is_closed id_of nodes = false → get_ordered_nodes id_of nodes = nodes).
Proof.
  split; [|apply get_ordered_nodes_open].
  intros Hclosed. destruct (is_closed_ring nodes Hclosed) as [Hring Hlen].
  destruct (first_lowest_split id_of (open_ring nodes))
    as (pre & m & post & Hsplit & Hpre & Hpost).
  { intros Hnil. rewrite Hnil in Hlen. simpl in Hlen. lia. }
  assert (Hin : ∀ n, n ∈ nodes → n ∈ open_ring nodes).
  { intros n. rewrite Hring at 1. unfold close_ring.
    rewrite elem_of_app. intros [Hn|Hn]; [done|].
    by apply (subseteq_take 1). }
  rewrite Hring, Hsplit, get_ordered_nodes_ring by (by rewrite <- ?Hsplit).
  exists m. split; [done|]. split.
  { rewrite !app_comm_cons, !app_assoc. apply last_snoc. }
  split.
  { rewrite <- Hsplit, <- Hring. rewrite Hring. unfold close_ring.
    rewrite Hsplit. set_solver. }
  split.
  { intros n Hn. rewrite <- Hsplit, <- Hring in Hn. apply Hin in Hn.
    rewrite Hsplit in Hn.
    apply elem_of_app in Hn as [Hn|Hn].
    - rewrite Forall_forall in Hpre. specialize (Hpre n Hn). lia.
    - apply elem_of_cons in Hn as [->|Hn]; [lia|].
      rewrite Forall_forall in Hpost. by apply Hpost. }
  rewrite length_close_ring by (by destruct pre).
  simpl. rewrite ?length_app. simpl. rewrite ?length_app. simpl. lia.
Qed.

(** C2, as the code has it: for a closed sequence whose lowest identity
    occurs at one place of the ring only, every rotation has the same
    canonical form and is reported as a duplicate with role "way"; a
    reversed rotation is reported with role "reverse_way", unless the
    canonical form reads the same in both directions, in which case the
    role is "way". *)
Theorem verify_duplicate_ways_rotation st dupway nodes k :
  is_closed id_of nodes = true →
  length (lowest_places id_of (open_ring nodes)) = 1 →
  (way_nodes st dupway = ring_rotate k nodes →
     get_ordered_nodes id_of (way_nodes st dupway) = get_ordered_nodes id_of nodes
     ∧ verify_duplicate_ways st [dupway] nodes = [(dupway, "way"%string)])
  ∧ (way_nodes st dupway = reverse (ring_rotate k nodes) →
     get_ordered_nodes id_of (way_nodes st dupway)
       = reverse (get_ordered_nodes id_of nodes)
     ∧ verify_duplicate_ways st [dupway] nodes
       = [(dupway,
           if bool_decide (get_ordered_nodes id_of nodes
                           = reverse (get_ordered_nodes id_of nodes))
           then "way"%string else "reverse_way"%string)]).
Proof.
  intros Hclosed Hone. destruct (is_closed_ring nodes Hclosed) as [Hring Hlen].
  assert (Hne : open_ring nodes ≠ []).
  { intros Hnil. rewrite Hnil in Hlen. simpl in Hlen. lia. }
  assert (Hsame : length (ring_rotate k nodes) = length nodes).
  { unfold ring_rotate. rewrite Hring at 2.
    rewrite !length_close_ring, ?length_rotate; [done|done|].
    intros Hnil. apply (f_equal length) in Hnil.
    rewrite length_rotate in Hnil. simpl in Hnil. lia. }
  assert (Hrot : get_ordered_nodes id_of (ring_rotate k nodes)
                 = get_ordered_nodes id_of nodes).
  { unfold ring_rotate. rewrite Hring at 2.
    by apply get_ordered_nodes_rotate. }
  assert (Hrev : get_ordered_nodes id_of (reverse (ring_rotate k nodes))
                 = reverse (get_ordered_nodes id_of nodes)).
  { unfold ring_rotate. rewrite Hring at 2.
    by apply get_ordered_nodes_rotate_reverse. }
  split; intros Hway; unfold verify_duplicate_ways; simpl; rewrite Hway.
  - split; [done|]. rewrite Hsame, Nat.eqb_refl, Hrot.
    by rewrite bool_decide_eq_true_2.
  - split; [done|]. rewrite length_reverse, Hsame, Nat.eqb_refl, Hrev.
    case_bool_decide as Hpal.
    + by rewrite bool_decide_eq_true_2 by done.
    + rewrite bool_decide_eq_true_2 by done.
      by rewrite bool_decide_eq_false_2 by (intros E; apply Hpal; symmetry; exact E).
Qed.

End CanonicalWays.

(** C3 at [2;3;1;2]: the closed case of the theorem applies. *)
Lemma get_ordered_nodes_shape_witness :
  is_closed id_of [2; 3; 1; 2]%Z = true
  ∧ ∃ m, head (get_ordered_nodes id_of [2; 3; 1; 2]%Z) = Some m
      ∧ last (get_ordered_nodes id_of [2; 3; 1; 2]%Z) = Some m
      ∧ m ∈ [2; 3; 1; 2]%Z
      ∧ (∀ n, n ∈ [2; 3; 1; 2]%Z → (id_of m ≤ id_of n)%Z)
      ∧ length (get_ordered_nodes id_of [2; 3; 1; 2]%Z) = length [2; 3; 1; 2]%Z.
Proof.
  split; [reflexivity|].
  apply (proj1 (get_ordered_nodes_shape [2; 3; 1; 2]%Z)). reflexivity.
Defined.

(** C3 as stated fails: the canonical form of the closed sequence
    [2;3;1;2] is [1;2;3;1], which still holds the closing node and is not
    one element shorter than the input. *)
Lemma get_ordered_nodes_keeps_closing_node :
  is_closed id_of [2; 3; 1; 2]%Z = true
  ∧ get_ordered_nodes id_of [2; 3; 1; 2]%Z = [1; 2; 3; 1]%Z
  ∧ length (get_ordered_nodes id_of [2; 3; 1; 2]%Z) ≠ length [2; 3; 1; 2]%Z - 1.
Proof. split; [reflexivity|]. split; [reflexivity|]. simpl. lia. Qed.

(** C2 at the ring [2;3;1;2], rotated by one place to [3;1;2;3], and
    that rotation reversed, [3;2;1;3]. *)
Lemma verify_duplicate_ways_rotation_witness :
  (is_closed id_of [2; 3; 1; 2]%Z = true
   ∧ length (lowest_places id_of (open_ring [2; 3; 1; 2]%Z)) = 1)
  ∧ (get_ordered_nodes id_of (way_nodes (store_with_way 10 [3; 1; 2; 3]%Z) 10)
       = get_ordered_nodes id_of [2; 3; 1; 2]%Z
     ∧ verify_duplicate_ways (store_with_way 10 [3; 1; 2; 3]%Z) [10%Z] [2; 3; 1; 2]%Z
       = [(10%Z, "way"%string)])
  ∧ verify_duplicate_ways (store_with_way 10 [3; 2; 1; 3]%Z) [10%Z] [2; 3; 1; 2]%Z
    = [(10%Z, "reverse_way"%string)].
Proof.
  split; [split; reflexivity|]. split.
  - apply (proj1 (verify_duplicate_ways_rotation
      (store_with_way 10 [3; 1; 2; 3]%Z) 10%Z [2; 3; 1; 2]%Z 1
      eq_refl eq_refl) eq_refl).
  - apply (proj2 (proj2 (verify_duplicate_ways_rotation
      (store_with_way 10 [3; 2; 1; 3]%Z) 10%Z [2; 3; 1; 2]%Z 1
      eq_refl eq_refl) eq_refl)).
Defined.

(** C2 as stated fails: in the closed sequence [1;2;1;3;1] the lowest
    identity occurs twice in the ring; its rotation [2;1;3;1;2] has
    another canonical form, and the check reports "reverse_way". *)
Lemma verify_duplicate_ways_rotation_counterexample :
  is_closed id_of [1; 2; 1; 3; 1]%Z = true
  ∧ way_nodes (store_with_way 10 [2; 1; 3; 1; 2]%Z) 10 = ring_rotate 1 [1; 2; 1; 3; 1]%Z
  ∧ get_ordered_nodes id_of (ring_rotate 1 [1; 2; 1; 3; 1]%Z)
    ≠ get_ordered_nodes id_of [1; 2; 1; 3; 1]%Z
  ∧ verify_duplicate_ways (store_with_way 10 [2; 1; 3; 1; 2]%Z) [10%Z] [1; 2; 1; 3; 1]%Z
    = [(10%Z, "reverse_way"%string)].
Proof.
  split; [reflexivity|]. split; [reflexivity|]. split; [|reflexivity].
  vm_compute. discriminate.
Qed.

(** ** Duplicate relations *)

Section Relations.

Context {coord : Type}.
Implicit Types (st : OsmData coord).

Lemma verify_duplicate_relations_spec st potential members duprelation :
  duprelation ∈ verify_duplicate_relations st potential members
  ↔ duprelation ∈ potential ∧ relation_members st duprelation = members.
Proof.
  unfold verify_duplicate_relations. rewrite list_elem_of_filter. tauto.
Qed.

(** C6: a relation is reported exactly when its ordered (member, role)
    list equals the new one; so a relation whose list holds the same
    pairs in another order is not reported. *)
Theorem verify_duplicate_relations_order st potential members duprelation :
  (duprelation ∈ verify_duplicate_relations st potential members
   ↔ duprelation ∈ potential ∧ relation_members st duprelation = members)
  ∧ (relation_members st duprelation ≡ₚ members →
     relation_members st duprelation ≠ members →
     duprelation ∉ verify_duplicate_relations st potential members).
Proof.
  split; [apply verify_duplicate_relations_spec|].
  intros _ Hne Hin. apply verify_duplicate_relations_spec in Hin. tauto.
Qed.

End Relations.

(** C6 on the members of the spec: [(A,"outer"),(B,"inner")] against
    [(B,"inner"),(A,"outer")]. *)
Lemma verify_duplicate_relations_order_witness :
  (relation_members
     (store_with_relation 20 [(EWay 1, "outer"%string); (EWay 2, "inner"%string)]) 20
   ≡ₚ [(EWay 2, "inner"%string); (EWay 1, "outer"%string)]
   ∧ relation_members
       (store_with_relation 20 [(EWay 1, "outer"%string); (EWay 2, "inner"%string)]) 20
     ≠ [(EWay 2, "inner"%string); (EWay 1, "outer"%string)])
  ∧ 20%Z ∉ verify_duplicate_relations
       (store_with_relation 20 [(EWay 1, "outer"%string); (EWay 2, "inner"%string)])
       [20%Z] [(EWay 2, "inner"%string); (EWay 1, "outer"%string)].
Proof.
  assert (Hperm : relation_members
     (store_with_relation 20 [(EWay 1, "outer"%string); (EWay 2, "inner"%string)]) 20
   ≡ₚ [(EWay 2, "inner"%string); (EWay 1, "outer"%string)]).
  { vm_compute. apply perm_swap. }
  assert (Hne : relation_members
       (store_with_relation 20 [(EWay 1, "outer"%string); (EWay 2, "inner"%string)]) 20
     ≠ [(EWay 2, "inner"%string); (EWay 1, "outer"%string)]).
  { vm_compute. discriminate. }
  split; [by split|].
  exact (proj2 (verify_duplicate_relations_order _ [20%Z] _ 20%Z) Hperm Hne).
Defined.

(** ** Splitting disabled *)

(** C9: with a limit below 2, [split_long_ways] returns at once and the
    store is the one it was given: ways, node sequences, parent sets and
    member lists included; nothing is raised. *)
Theorem split_long_ways_disabled {coord : Type} (fuel : nat) (st : OsmData coord) :
  (max_points_in_way st < 2)%Z →
  split_long_ways fuel st = Some (Returns tt st).
Proof.
  intros Hlimit. unfold split_long_ways.
  by destruct (Z.ltb_spec (max_points_in_way st) 2); [|lia].
Qed.

(** C9 on a store whose only way has three nodes, with limit 1. *)
Lemma split_long_ways_disabled_witness :
  (max_points_in_way (with_heap_ways
     (insert 10%Z {| w_tags := ∅; w_nodes := [1; 2; 3]%Z; w_parents := [] |})
     (with_ways (λ l, l ++ [10%Z]) (empty_store never_merge 1))) < 2)%Z
  ∧ split_long_ways 0 (with_heap_ways
     (insert 10%Z {| w_tags := ∅; w_nodes := [1; 2; 3]%Z; w_parents := [] |})
     (with_ways (λ l, l ++ [10%Z]) (empty_store never_merge 1)))
    = Some (Returns tt (with_heap_ways
     (insert 10%Z {| w_tags := ∅; w_nodes := [1; 2; 3]%Z; w_parents := [] |})
     (with_ways (λ l, l ++ [10%Z]) (empty_store never_merge 1)))).
Proof.
  split; [reflexivity|]. apply split_long_ways_disabled. reflexivity.
Defined.

(** ** Polygons that yield nothing *)

Ltac not_in_list :=
  let H := fresh in
  intros H;
  repeat (apply elem_of_cons in H as [H|H]; [discriminate H|]);
  by apply elem_of_nil in H.

Section Polygons.

Context {coord : Type} (rnd : Z → coord → Z).
Implicit Types (st : OsmData coord) (g : OgrGeometry coord).

(** C8, as the code has it: a polygon without rings, and a polygon whose
    first ring is not of a linestring type unless it is the only ring
    and within the way-length limit, yields [None]; the store is left as it
    was but for one warning, and nothing is raised. *)
Theorem parse_polygon_skips g t st :
  GetGeometryCount g = 0
  ∨ (∃ ring0, GetGeometryRef g 0 = Some ring0
       ∧ (GetGeometryType ring0 ∉ linestring_types)
       ∧ ¬ (GetGeometryCount g = 1
            ∧ (Z.of_nat (GetPointCount ring0) ≤ max_points_in_way st)%Z)) →
  ∃ msg, parse_polygon rnd g t st
         = Returns None (with_warnings (λ l, l ++ [msg]) st).
Proof.
  intros [Hzero|(ring0 & Hring & Htype & Hlong)]; unfold parse_polygon.
  - rewrite Hzero. simpl. by eexists.
  - destruct (Nat.eqb_spec (GetGeometryCount g) 0) as [Hzero|_].
    { unfold GetGeometryRef, GetGeometryCount in *.
      destruct (GetGeometries g); [done|]. simpl in Hzero. lia. }
    rewrite Hring. unfold bind, deref, ret, gets. simpl.
    destruct (Nat.eqb_spec (GetGeometryCount g) 1) as [Hone|Hmany]; simpl.
    + destruct (Z.leb_spec (Z.of_nat (GetPointCount ring0)) (max_points_in_way st))
        as [Hshort|_]; [by destruct Hlong|].
      rewrite bool_decide_eq_false_2 by done. by eexists.
    + rewrite bool_decide_eq_false_2 by done. by eexists.
Qed.

End Polygons.

(** C8 on a polygon without rings and on one with two rings whose first
    is a point. *)
Lemma parse_polygon_skips_witness :
  (GetGeometryCount (Geometry (coord := Z) wkbPolygon [] []) = 0
   ∧ ∃ msg, parse_polygon round_Z (Geometry wkbPolygon [] []) ∅
              (empty_store never_merge 1800)
            = Returns None
                (with_warnings (λ l, l ++ [msg]) (empty_store never_merge 1800)))
  ∧ ∃ msg, parse_polygon round_Z
             (Geometry wkbPolygon []
                [linestring_Z wkbPoint [(0, 0)]%Z;
                 linestring_Z wkbLinearRing [(0, 0); (1, 0); (1, 1); (0, 0)]%Z]) ∅
             (empty_store never_merge 1800)
           = Returns None
               (with_warnings (λ l, l ++ [msg]) (empty_store never_merge 1800)).
Proof.
  split; [split; [reflexivity|]|].
  - apply (parse_polygon_skips round_Z (Geometry wkbPolygon [] []) ∅
             (empty_store never_merge 1800)).
    left. reflexivity.
  - apply (parse_polygon_skips round_Z).
    right. exists (linestring_Z wkbPoint [(0, 0)]%Z).
    split; [reflexivity|]. split.
    + unfold linestring_types. simpl. not_in_list.
    + simpl. intros [Hone _]. discriminate Hone.
Defined.

(** C8 as stated fails: a polygon whose only ring is a point geometry
    of two points goes to [__parse_linestring] before its type is looked
    at, and a way is produced. *)
Lemma parse_polygon_single_ring_not_checked :
  (GetGeometryType (linestring_Z wkbPoint [(0, 0); (1, 1)]%Z) ∉ linestring_types)
  ∧ returned (parse_polygon round_Z
       (Geometry wkbPolygon [] [linestring_Z wkbPoint [(0, 0); (1, 1)]%Z]) ∅
       (empty_store never_merge 1800))
    = Some (Some (EWay (-3))).
Proof.
  split; [|reflexivity]. unfold linestring_types. simpl. not_in_list.
Qed.

(** ** Node interning *)

Section Interning.

Context {coord : Type} (rnd : Z → coord → Z).
Implicit Types (st : OsmData coord) (t : tags).

Lemma add_node_unfold x y t st :
  add_node rnd x y t true st =
  match unique_node_index st !! key_of rnd st x y with
  | Some indices =>
      match merge_into_bucket t indices st with
      | Returns (Some duplicate_node) st' => Returns duplicate_node st'
      | Returns None st' =>
          let c := (id_counter st' + id_incr st')%Z in
          Returns c
            (with_nodes (λ l, l ++ [c])
              (with_index (alter (λ b, b ++ [length (nodes st')]) (key_of rnd st x y))
                (with_heap_points
                  (insert c {| p_x := x; p_y := y; p_tags := t; p_parents := [] |})
                  (with_id_counter c st'))))
      | Raises e => Raises e
      end
  | None =>
      let c := (id_counter st + id_incr st)%Z in
      Returns c
        (with_nodes (λ l, l ++ [c])
          (with_index (insert (key_of rnd st x y) [length (nodes st)])
            (with_heap_points
              (insert c {| p_x := x; p_y := y; p_tags := t; p_parents := [] |})
              (with_id_counter c st))))
  end.
Proof.
  unfold add_node, key_of, bind, round_number, gets, ret. simpl.
  destruct (unique_node_index st !! _) as [indices|]; [|done].
  destruct (merge_into_bucket t indices st) as [[n|] st'|e]; done.
Qed.

(** A policy that rejects every merge leaves the bucket scan empty-handed. *)
Lemma merge_into_bucket_reject t bucket st :
  (∀ existing incoming,
     merge_tags (translation st) "node" existing incoming = None) →
  Forall (λ i, i < length (nodes st)) bucket →
  merge_into_bucket t bucket st = Returns None st.
Proof.
  intros Hnever. induction 1 as [|i bucket Hi Hbucket IH]; [done|].
  simpl. unfold bind, gets.
  destruct (lookup_lt_is_Some_2 _ _ Hi) as [n Hn]. rewrite Hn.
  by rewrite Hnever.
Qed.


(** What [__add_node] does when no merge is accepted: a new node, with
    the next identity, at the end of [self.__nodes] and of its bucket. *)
Lemma add_node_creates x y t st :
  nodes_wf st →
  (∀ existing incoming,
     merge_tags (translation st) "node" existing incoming = None) →
  ∃ st', add_node rnd x y t true st
         = Returns (id_counter st + id_incr st)%Z st'
    ∧ nodes st' = nodes st ++ [(id_counter st + id_incr st)%Z]
    ∧ unique_node_index st'
      = <[key_of rnd st x y :=
            default [] (unique_node_index st !! key_of rnd st x y)
            ++ [length (nodes st)]]> (unique_node_index st)
    ∧ heap_points st'
      = <[(id_counter st + id_incr st)%Z :=
            {| p_x := x; p_y := y; p_tags := t; p_parents := [] |}]> (heap_points st)
    ∧ id_counter st' = (id_counter st + id_incr st)%Z
    ∧ id_incr st' = id_incr st
    ∧ translation st' = translation st
    ∧ rounding_digits st' = rounding_digits st.
Proof.
  intros [Hindex Hheap] Hnever. rewrite add_node_unfold.
  destruct (unique_node_index st !! key_of rnd st x y) as [bucket|] eqn:Hkey.
  - rewrite merge_into_bucket_reject by (done || by eapply Hindex).
    eexists. split; [done|]. simpl. repeat split; try done.
    apply map_eq. intros k. rewrite lookup_alter, lookup_insert.
    destruct (decide (key_of rnd st x y = k)) as [<-|]; [by rewrite Hkey|done].
  - eexists. split; [done|]. simpl. repeat split; done.
Qed.

Lemma nodes_wf_created st st' key bucket c p :
  nodes_wf st →
  Forall (λ i, i < length (nodes st)) bucket →
  nodes st' = nodes st ++ [c] →
  unique_node_index st' = <[key := bucket ++ [length (nodes st)]]> (unique_node_index st) →
  heap_points st' = <[c := p]> (heap_points st) →
  nodes_wf st'.
Proof.
  intros [Hindex Hheap] Hbucket Hnodes Hidx Hpts. split.
  - rewrite Hidx, Hnodes. apply map_Forall_insert_2.
    + rewrite length_app. simpl. apply Forall_app. split.
      * eapply Forall_impl; [exact Hbucket|]. simpl. intros; lia.
      * constructor; [lia|constructor].
    + eapply map_Forall_impl; [exact Hindex|]. simpl. intros _ b Hb.
      rewrite length_app. eapply Forall_impl; [exact Hb|]. simpl. intros; lia.
  - rewrite Hnodes, Hpts. apply Forall_app. split.
    + eapply Forall_impl; [exact Hheap|]. simpl. intros n [q Hq].
      destruct (decide (c = n)) as [->|Hne].
      * rewrite lookup_insert_eq. by eexists.
      * rewrite lookup_insert_ne by done. by eexists.
    + constructor; [|constructor]. rewrite lookup_insert_eq. by eexists.
Qed.

(** C4: two coordinates with the same quantized key, interned under a
    policy that rejects every merge, become two nodes with different
    identities, and the positions of both are in the bucket of that key. *)
Theorem add_node_rejected_twice x1 y1 t1 x2 y2 t2 st :
  nodes_wf st →
  id_incr st ≠ 0%Z →
  (∀ existing incoming,
     merge_tags (translation st) "node" existing incoming = None) →
  rnd (rounding_digits st) x1 = rnd (rounding_digits st) x2 →
  rnd (rounding_digits st) y1 = rnd (rounding_digits st) y2 →
  ∃ n1 st1 n2 st2,
    add_node rnd x1 y1 t1 true st = Returns n1 st1
    ∧ add_node rnd x2 y2 t2 true st1 = Returns n2 st2
    ∧ n1 ≠ n2
    ∧ nodes st2 = nodes st ++ [n1; n2]
    ∧ unique_node_index st2 !! key_of rnd st x1 y1
      = Some (default [] (unique_node_index st !! key_of rnd st x1 y1)
              ++ [length (nodes st); S (length (nodes st))])
    ∧ nodes st2 !! length (nodes st) = Some n1
    ∧ nodes st2 !! S (length (nodes st)) = Some n2.
Proof.
  intros Hwf Hincr Hnever Hx Hy.
  destruct (add_node_creates x1 y1 t1 st Hwf Hnever)
    as (st1 & Hrun1 & Hnodes1 & Hidx1 & Hpts1 & Hc1 & Hi1 & Htr1 & Hd1).
  assert (Hwf1 : nodes_wf st1).
  { eapply nodes_wf_created; [exact Hwf| |exact Hnodes1|exact Hidx1|exact Hpts1].
    destruct Hwf as [Hindex _].
    destruct (unique_node_index st !! key_of rnd st x1 y1) as [b|] eqn:Hb;
      [by eapply Hindex|constructor]. }
  assert (Hnever1 : ∀ existing incoming,
    merge_tags (translation st1) "node" existing incoming = None).
  { by rewrite Htr1. }
  destruct (add_node_creates x2 y2 t2 st1 Hwf1 Hnever1)
    as (st2 & Hrun2 & Hnodes2 & Hidx2 & Hpts2 & Hc2 & Hi2 & Htr2 & Hd2).
  assert (Hkey : key_of rnd st1 x2 y2 = key_of rnd st x1 y1).
  { unfold key_of. by rewrite Hd1, Hx, Hy. }
  exists (id_counter st + id_incr st)%Z, st1, (id_counter st1 + id_incr st1)%Z, st2.
  split; [done|]. split; [done|].
  split; [rewrite Hc1, Hi1; lia|].
  split; [by rewrite Hnodes2, Hnodes1, <- app_assoc|].
  split.
  { rewrite Hidx2, Hkey, lookup_insert_eq, Hidx1, lookup_insert_eq. simpl.
    rewrite Hnodes1, length_app. simpl.
    rewrite <- app_assoc. simpl. do 4 f_equal. lia. }
  rewrite Hnodes2, Hnodes1. split.
  - rewrite lookup_app_l by (rewrite length_app; simpl; lia).
    by rewrite list_lookup_middle.
  - apply list_lookup_middle. rewrite length_app. simpl. lia.
Qed.



End Interning.

Lemma nodes_wf_empty_store tr limit : nodes_wf (empty_store tr limit).
Proof. split; [apply map_Forall_empty|constructor]. Qed.

(** C4 on the empty store: (12, 31) and (17, 38) share the key (1, 3). *)
Lemma add_node_rejected_twice_witness :
  (nodes_wf (empty_store never_merge 1800)
   ∧ id_incr (empty_store never_merge 1800) ≠ 0%Z
   ∧ round_Z (rounding_digits (empty_store never_merge 1800)) 12
     = round_Z (rounding_digits (empty_store never_merge 1800)) 17
   ∧ round_Z (rounding_digits (empty_store never_merge 1800)) 31
     = round_Z (rounding_digits (empty_store never_merge 1800)) 38)
  ∧ ∃ n1 st1 n2 st2,
      add_node round_Z 12%Z 31%Z ∅ true (empty_store never_merge 1800) = Returns n1 st1
      ∧ add_node round_Z 17%Z 38%Z ∅ true st1 = Returns n2 st2
      ∧ n1 ≠ n2
      ∧ nodes st2 = nodes (empty_store never_merge 1800) ++ [n1; n2]
      ∧ unique_node_index st2
          !! key_of round_Z (empty_store never_merge 1800) 12%Z 31%Z
        = Some (default [] (unique_node_index (empty_store never_merge 1800)
                              !! key_of round_Z (empty_store never_merge 1800) 12%Z 31%Z)
                ++ [length (nodes (empty_store never_merge 1800));
                    S (length (nodes (empty_store never_merge 1800)))])
      ∧ nodes st2 !! length (nodes (empty_store never_merge 1800)) = Some n1
      ∧ nodes st2 !! S (length (nodes (empty_store never_merge 1800))) = Some n2.
Proof.
  split.
  - split; [apply nodes_wf_empty_store|]. split; [discriminate|].
    split; reflexivity.
  - apply (add_node_rejected_twice round_Z 12%Z 31%Z ∅ 17%Z 38%Z ∅
             (empty_store never_merge 1800)).
    + apply nodes_wf_empty_store.
    + discriminate.
    + reflexivity.
    + reflexivity.
    + reflexivity.
Defined.


(** ** The chunks of a split *)

Section Chunks.

Context {A : Type}.
Implicit Types (nodes : list A).

Lemma length_range_step stop step :
  length (range_step stop step) = (stop + step - 1) / step.
Proof. unfold range_step. by rewrite length_fmap, length_seq. Qed.

(** No chunk is longer than the limit. *)
Lemma split_chunks_bound limit nodes :
  Forall (λ chunk, length chunk ≤ limit) (split_chunks limit nodes).
Proof.
  unfold split_chunks. apply Forall_fmap, Forall_forall. intros i _. simpl.
  rewrite length_take. lia.
Qed.

(** There are no more chunks than nodes. *)
Lemma split_chunks_count limit nodes :
  2 ≤ limit → length (split_chunks limit nodes) ≤ length nodes.
Proof.
  intros Hlimit. unfold split_chunks. rewrite length_fmap, length_range_step.
  destruct (length nodes) as [|n].
  - simpl. rewrite Nat.div_small; lia.
  - apply Nat.lt_succ_r, Nat.Div0.div_lt_upper_bound. nia.
Qed.

(** The first chunk holds the first [limit] nodes. *)
Lemma split_chunks_head limit nodes :
  2 ≤ limit → nodes ≠ [] →
  ∃ rest, split_chunks limit nodes = take limit nodes :: rest.
Proof.
  intros Hlimit Hne. unfold split_chunks, range_step.
  assert (Hpos : 1 ≤ (length nodes + (limit - 1) - 1) / (limit - 1)).
  { apply Nat.div_le_lower_bound; [lia|]. destruct nodes; [done|]. simpl. lia. }
  destruct ((length nodes + (limit - 1) - 1) / (limit - 1)) as [|m]; [lia|].
  simpl. by eexists.
Qed.

(** A sequence of [2 * limit - 1] nodes falls into three chunks: the last
    one holds the final node alone. *)
Lemma split_chunks_odd limit nodes :
  2 ≤ limit → length nodes = 2 * limit - 1 →
  split_chunks limit nodes
  = [take limit nodes; drop (limit - 1) nodes; drop (2 * limit - 2) nodes]
  ∧ length (drop (2 * limit - 2) nodes) = 1.
Proof.
  intros Hlimit Hlen. split; [|rewrite length_drop; lia].
  unfold split_chunks, range_step. rewrite Hlen.
  replace (2 * limit - 1 + (limit - 1) - 1) with (3 * (limit - 1)) by lia.
  rewrite Nat.div_mul by lia.
  replace (2 * limit - 2) with (limit - 1 + (limit - 1)) by lia.
  cbn [seq fmap list_fmap]. rewrite Nat.mul_0_l, Nat.mul_1_l.
  replace (2 * (limit - 1)) with (limit - 1 + (limit - 1)) by lia.
  rewrite drop_0.
  rewrite (take_ge (drop (limit - 1) nodes)) by (rewrite length_drop; lia).
  by rewrite (take_ge (drop (limit - 1 + (limit - 1)) nodes))
    by (rewrite length_drop; lia).
Qed.

End Chunks.

(** Five nodes under a limit of three: chunks [1;2;3], [3;4;5] and [5]. *)
Lemma split_chunks_odd_witness :
  (2 ≤ 3 ∧ length [1; 2; 3; 4; 5]%Z = 2 * 3 - 1)
  ∧ split_chunks 3 [1; 2; 3; 4; 5]%Z
    = [take 3 [1; 2; 3; 4; 5]%Z; drop (3 - 1) [1; 2; 3; 4; 5]%Z;
       drop (2 * 3 - 2) [1; 2; 3; 4; 5]%Z]
  ∧ length (drop (2 * 3 - 2) [1; 2; 3; 4; 5]%Z) = 1.
Proof.
  split; [split; [lia|reflexivity]|].
  apply (split_chunks_odd 3 [1; 2; 3; 4; 5]%Z); [lia|reflexivity].
Defined.

(** ** The way splitter *)

Section Splitter.

Context {coord : Type}.
Implicit Types (st : OsmData coord) (way w : Z).

(** A loop whose body returns and keeps a preorder on stores returns and
    keeps it. *)
Lemma for_each_preserves {A : Type} (R : relation (OsmData coord))
    `{!Reflexive R, !Transitive R} (xs : list A) (body : A → M coord unit) :
  (∀ x st, x ∈ xs → ∃ st', body x st = Returns tt st' ∧ R st st') →
  ∀ st, ∃ st', for_each xs body st = Returns tt st' ∧ R st st'.
Proof.
  induction xs as [|x xs IH]; intros Hbody st.
  - exists st. by split.
  - destruct (Hbody x st) as (st1 & Hrun1 & HR1); [by left|].
    destruct (IH (λ y s Hy, Hbody y s (list_elem_of_further _ _ _ Hy)) st1)
      as (st2 & Hrun2 & HR2).
    exists st2. split; [|by etrans].
    simpl. unfold bind. by rewrite Hrun1.
Qed.

#[local] Instance view_kept_refl : Reflexive (@view_kept coord).
Proof. by intros st. Qed.

#[local] Instance view_kept_trans : Transitive (@view_kept coord).
Proof. unfold view_kept. intros st1 st2 st3 H12 H23. by rewrite H23. Qed.

#[local] Instance nodes_kept_refl : Reflexive (@nodes_kept coord).
Proof. intros st. unfold nodes_kept. by split_and!. Qed.

#[local] Instance nodes_kept_trans : Transitive (@nodes_kept coord).
Proof.
  intros st1 st2 st3 (Hw & Hc & Hi & Hl & Hn & Hp) (Hw' & Hc' & Hi' & Hl' & Hn' & Hp').
  split; [congruence|]. split; [congruence|]. split; [congruence|].
  split; [congruence|]. split.
  - intros w. by rewrite Hn'.
  - intros w Hw1. by apply Hp', Hp.
Qed.

Lemma reparent_node_view way new_way node st :
  ∃ st', reparent_node way new_way node st = Returns tt st' ∧ view_kept st st'.
Proof. by eexists. Qed.

(** The new ways take the next identities; they are blank, and nothing
    else on the heap changes. *)
Lemma create_fold_spec t count s created st :
  ∃ st',
    fold_each (seq s count) (create_way t) created st
    = Returns (created ++ fresh_ids (id_counter st) (id_incr st) count) st'
    ∧ ways st' = ways st
    ∧ id_counter st' = (id_counter st + Z.of_nat count * id_incr st)%Z
    ∧ id_incr st' = id_incr st
    ∧ max_points_in_way st' = max_points_in_way st
    ∧ (∀ w, w ∉ fresh_ids (id_counter st) (id_incr st) count →
            heap_ways st' !! w = heap_ways st !! w)
    ∧ (∀ w, w ∈ fresh_ids (id_counter st) (id_incr st) count →
            heap_ways st' !! w
            = Some {| w_tags := t; w_nodes := []; w_parents := [] |}).
Proof.
  revert s created st. induction count as [|count IH]; intros s created st.
  - exists st. simpl. rewrite app_nil_r. repeat split; try done; try lia.
    intros w Hw. by apply elem_of_nil in Hw.
  - simpl. unfold bind at 1. unfold create_way at 1, bind at 1.
    unfold new_OsmWay at 1, bind at 1, new_id at 1. simpl.
    destruct (IH (S s) (created ++ [(id_counter st + id_incr st)%Z])
                (with_heap_ways
                   (insert (id_counter st + id_incr st)%Z
                      {| w_tags := t; w_nodes := []; w_parents := [] |})
                   (with_id_counter (id_counter st + id_incr st)%Z st)))
      as (st' & Hrun & Hways & Hc & Hi & Hl & Hother & Hfresh).
    simpl in *. exists st'. split.
    { rewrite Hrun. by rewrite <- app_assoc. }
    split; [done|]. split; [lia|]. split; [done|]. split; [done|]. split.
    + intros w Hw. apply not_elem_of_cons in Hw as [Hne Hw].
      rewrite Hother by done. by rewrite lookup_insert_ne.
    + intros w Hw.
      destruct (decide (w ∈ fresh_ids (id_counter st + id_incr st) (id_incr st) count))
        as [Hin|Hnotin]; [by apply Hfresh|].
      apply elem_of_cons in Hw as [->|Hw]; [|done].
      rewrite Hother by done. by rewrite lookup_insert_eq.
Qed.

Lemma create_ways_spec t count st :
  ∃ st',
    create_ways t count st
    = Returns (fresh_ids (id_counter st) (id_incr st) count) st'
    ∧ ways st' = ways st
    ∧ id_counter st' = (id_counter st + Z.of_nat count * id_incr st)%Z
    ∧ id_incr st' = id_incr st
    ∧ max_points_in_way st' = max_points_in_way st
    ∧ (∀ w, w ∉ fresh_ids (id_counter st) (id_incr st) count →
            heap_ways st' !! w = heap_ways st !! w)
    ∧ (∀ w, w ∈ fresh_ids (id_counter st) (id_incr st) count →
            heap_ways st' !! w
            = Some {| w_tags := t; w_nodes := []; w_parents := [] |}).
Proof. apply (create_fold_spec t count 0 [] st). Qed.

(** The fresh identities lie ahead of the generator, and differ from one
    another when it moves. *)
Lemma fresh_ids_ahead counter incr count w :
  w ∈ fresh_ids counter incr count →
  ∃ j, 1 ≤ j ≤ count ∧ w = (counter + Z.of_nat j * incr)%Z.
Proof.
  revert counter. induction count as [|count IH]; intros counter Hw; simpl in Hw.
  - by apply elem_of_nil in Hw.
  - apply elem_of_cons in Hw as [->|Hw].
    + exists 1. split; lia.
    + destruct (IH _ Hw) as (j & Hj & ->). exists (S j). split; lia.
Qed.

Lemma fresh_ids_NoDup counter incr count :
  incr ≠ 0%Z → NoDup (fresh_ids counter incr count).
Proof.
  intros Hincr. revert counter.
  induction count as [|count IH]; intros counter; simpl; constructor; [|done].
  intros Hin. destruct (fresh_ids_ahead _ _ _ _ Hin) as (j & Hj & Heq). nia.
Qed.

Lemma length_fresh_ids counter incr count :
  length (fresh_ids counter incr count) = count.
Proof.
  revert counter. induction count as [|count IH]; intros counter; simpl; [done|].
  by rewrite IH.
Qed.

(** One chunk: the way takes its nodes and, unless it is the way that is
    being split, joins the list of ways. *)
Lemma assign_chunk_spec way part st :
  ∃ st', assign_chunk way part st = Returns tt st'
    ∧ ways st' = ways st ++ filter (λ w, w ≠ way) [part.1]
    ∧ heap_ways st' = alter (renode part.2) part.1 (heap_ways st)
    ∧ id_counter st' = id_counter st
    ∧ id_incr st' = id_incr st
    ∧ max_points_in_way st' = max_points_in_way st.
Proof.
  unfold assign_chunk, bind, set_way_nodes, modify, id_of. simpl.
  destruct (Z.eqb_spec part.1 way) as [Heq|Hne]; simpl.
  - exists (with_heap_ways (alter (renode part.2) part.1) st).
    split; [done|]. simpl.
    rewrite filter_cons_False by (by intros Hne; apply Hne).
    by rewrite app_nil_r.
  - destruct (for_each_preserves view_kept part.2 (reparent_node way part.1)
                (λ node s _, reparent_node_view way part.1 node s)
                (with_ways (λ l, l ++ [part.1])
                   (with_heap_ways (alter (renode part.2) part.1) st)))
      as (st' & Hrun & Hview).
    exists st'. split; [done|].
    unfold view_kept, ways_view in Hview. simpl in Hview.
    injection Hview as -> -> -> -> ->.
    by rewrite filter_cons_True.
Qed.

Lemma assign_chunks_spec way parts st :
  ∃ st', for_each parts (assign_chunk way) st = Returns tt st'
    ∧ ways st' = ways st ++ filter (λ w, w ≠ way) parts.*1
    ∧ heap_ways st'
      = foldl (λ h part, alter (renode part.2) part.1 h) (heap_ways st) parts
    ∧ id_counter st' = id_counter st
    ∧ id_incr st' = id_incr st
    ∧ max_points_in_way st' = max_points_in_way st.
Proof.
  revert st. induction parts as [|part parts IH]; intros st.
  - exists st. simpl. by rewrite app_nil_r.
  - destruct (assign_chunk_spec way part st)
      as (st1 & Hrun1 & Hways1 & Hheap1 & Hc1 & Hi1 & Hl1).
    destruct (IH st1) as (st2 & Hrun2 & Hways2 & Hheap2 & Hc2 & Hi2 & Hl2).
    exists st2. split; [simpl; unfold bind; by rewrite Hrun1|].
    split.
    { rewrite Hways2, Hways1, <- app_assoc. f_equal.
      rewrite fmap_cons. change (part.1 :: parts.*1) with ([part.1] ++ parts.*1).
      by rewrite filter_app. }
    split; [by rewrite Hheap2, Hheap1|].
    split; [congruence|]. split; congruence.
Qed.

(** The heap after the chunks are assigned. *)
Lemma assign_heap_other (parts : list (Z * list Z)) (h : gmap Z OsmWay) w :
  w ∉ parts.*1 →
  foldl (λ h part, alter (renode part.2) part.1 h) h parts !! w = h !! w.
Proof.
  revert h. induction parts as [|part parts IH]; intros h Hw; [done|].
  rewrite fmap_cons in Hw. apply not_elem_of_cons in Hw as [Hne Hw].
  simpl. rewrite IH by done. by rewrite lookup_alter_ne.
Qed.

Lemma assign_heap_parents (parts : list (Z * list Z)) (h : gmap Z OsmWay) w :
  w_parents <$> (foldl (λ h part, alter (renode part.2) part.1 h) h parts !! w)
  = w_parents <$> (h !! w).
Proof.
  revert h. induction parts as [|part parts IH]; intros h; [done|].
  simpl. rewrite IH, lookup_alter. case_decide as Heq; [|done].
  subst w. by destruct (h !! part.1).
Qed.

Lemma assign_heap_nodes (parts : list (Z * list Z)) (h : gmap Z OsmWay) w :
  w ∈ parts.*1 → is_Some (h !! w) →
  ∃ ns, ns ∈ parts.*2
    ∧ w_nodes <$> (foldl (λ h part, alter (renode part.2) part.1 h) h parts !! w)
      = Some ns.
Proof.
  revert h. induction parts as [|part parts IH]; intros h Hw Hsome.
  { by apply elem_of_nil in Hw. }
  simpl. destruct (decide (w ∈ parts.*1)) as [Hin|Hnotin].
  - destruct (IH (alter (renode part.2) part.1 h) Hin) as (ns & Hns & Hlook).
    { rewrite lookup_alter. case_decide as Heq; [subst w|done].
      destruct Hsome as [o ->]. by eexists. }
    exists ns. split; [|done]. by apply list_elem_of_further.
  - rewrite fmap_cons in Hw. apply elem_of_cons in Hw as [->|Hw]; [|done].
    rewrite assign_heap_other by done. rewrite lookup_alter_eq.
    destruct Hsome as [o ->]. exists part.2. split; [|done].
    apply list_elem_of_here.
Qed.

(** The relations of a split way take its new parts as members; the ways
    keep their nodes. *)
Lemma add_way_part_kept rel way_role w st :
  ∃ st', add_way_part rel way_role w st = Returns tt st' ∧ nodes_kept st st'.
Proof.
  eexists. split; [done|]. unfold nodes_kept. simpl. split_and!; try done.
  - intros w'. unfold way_nodes. simpl. rewrite lookup_alter.
    case_decide as Heq; [subst w'|done]. by destruct (heap_ways st !! w).
  - intros w'. rewrite lookup_alter. case_decide as Heq; [subst w'|done].
    destruct (heap_ways st !! w) as [o|]; [|done]. simpl.
    intros Hrel. unfold set_add. case_bool_decide; [done|].
    apply Forall_app. split; [done|]. by repeat constructor.
Qed.

Lemma split_in_parent_kept way_parts rel st :
  is_relation rel → way_parts ≠ [] →
  ∃ st', split_in_parent way_parts rel st = Returns tt st' ∧ nodes_kept st st'.
Proof.
  intros Hrel Hne. destruct rel as [| |r]; [done..|].
  destruct way_parts as [|first others]; [done|].
  unfold split_in_parent, split_way_in_relation, bind, gets.
  apply (for_each_preserves nodes_kept).
  intros w s _. apply add_way_part_kept.
Qed.

Lemma from_option_fmap_eq {A B : Type} (f : A → B) (d : B) (a b : option A) :
  f <$> a = f <$> b → from_option f d a = from_option f d b.
Proof. destruct a, b; simpl; congruence. Qed.

Lemma filter_all {A : Type} (P : A → Prop) `{!∀ x, Decision (P x)} (l : list A) :
  Forall P l → filter P l = l.
Proof.
  induction 1 as [|x l Hx Hl IH]; [done|]. by rewrite filter_cons_True, IH.
Qed.

(** An identity that was given out differs from those to come. *)
Lemma fresh_ids_not_given counter incr count w :
  incr ≠ 0%Z → ((w - counter) * incr ≤ 0)%Z →
  w ∉ fresh_ids counter incr count.
Proof.
  intros Hincr Hpast Hin.
  destruct (fresh_ids_ahead _ _ _ _ Hin) as (j & Hj & ->). nia.
Qed.

(** One step of the splitter on a way that is too long: the way and its
    new parts are within the limit, the other ways keep their nodes, and
    the stores stay consistent. *)
Lemma split_long_way_spec way st :
  ways_wf st → way ∈ ways st →
  (2 ≤ max_points_in_way st)%Z → too_long st way →
  ∃ st' created,
    split_long_way way st = Returns tt st'
    ∧ ways st' = ways st ++ created
    ∧ S (length created) ≤ length (way_nodes st way)
    ∧ max_points_in_way st' = max_points_in_way st
    ∧ (∀ w, w ∈ way :: created → ¬ too_long st' w)
    ∧ (∀ w, w ∈ ways st → w ≠ way → way_nodes st' w = way_nodes st w)
    ∧ ways_wf st'.
Proof.
  intros (Hnodup & Hincr & Hall) Hway Hlimit Hlong.
  rewrite Forall_forall in Hall.
  set (limit := Z.to_nat (max_points_in_way st)).
  set (chunks := split_chunks limit (way_nodes st way)).
  assert (Hlimit' : 2 ≤ limit) by (unfold limit; lia).
  assert (Hne : way_nodes st way ≠ []).
  { intros Hnil. unfold too_long in Hlong. rewrite Hnil in Hlong. simpl in Hlong. lia. }
  assert (Hcount : length chunks ≤ length (way_nodes st way))
    by (by apply split_chunks_count).
  destruct (split_chunks_head limit (way_nodes st way) Hlimit' Hne) as [rest Hhead].
  assert (Hpos : 1 ≤ length chunks).
  { unfold chunks. rewrite Hhead. simpl. lia. }
  assert (Hbound : Forall (λ chunk, length chunk ≤ limit) chunks)
    by apply split_chunks_bound.
  (* the new ways *)
  destruct (create_ways_spec (way_tags st way) (length chunks - 1) st)
    as (s1 & Hrun1 & Hways1 & Hc1 & Hi1 & Hl1 & Hother1 & Hfresh1).
  set (created := fresh_ids (id_counter st) (id_incr st) (length chunks - 1)) in *.
  assert (Hlen_created : length created = length chunks - 1)
    by apply length_fresh_ids.
  assert (Hnot_given : ∀ w, w ∈ ways st → w ∉ created).
  { intros w Hw. apply fresh_ids_not_given; [done|]. by apply Hall. }
  (* the chunks *)
  destruct (assign_chunks_spec way (zip (way :: created) chunks) s1)
    as (s2 & Hrun2 & Hways2 & Hheap2 & Hc2 & Hi2 & Hl2).
  assert (Hfst : (zip (way :: created) chunks).*1 = way :: created).
  { apply fst_zip. simpl. lia. }
  assert (Hsnd : (zip (way :: created) chunks).*2 = chunks).
  { apply snd_zip. simpl. lia. }
  rewrite Hfst in Hways2.
  rewrite filter_cons_False in Hways2 by (by intros Hn; apply Hn).
  rewrite filter_all in Hways2.
  2:{ apply Forall_forall. intros w Hw ->. by apply (Hnot_given way). }
  assert (Hway_heap : is_Some (heap_ways st !! way)).
  { unfold way_nodes in Hne. destruct (heap_ways st !! way); [by eexists|done]. }
  assert (Hparts : ∀ w, w ∈ way :: created → length (way_nodes s2 w) ≤ limit).
  { intros w Hw.
    destruct (assign_heap_nodes (zip (way :: created) chunks) (heap_ways s1) w)
      as (ns & Hns & Hlook).
    - by rewrite Hfst.
    - apply elem_of_cons in Hw as [->|Hw].
      + rewrite Hother1 by (by apply Hnot_given). done.
      + rewrite Hfresh1 by done. by eexists.
    - rewrite Hsnd in Hns. rewrite Forall_forall in Hbound.
      unfold way_nodes. rewrite Hheap2.
      destruct (foldl _ _ _ !! w) as [o|]; [|done].
      simpl in *. injection Hlook as ->. by apply Hbound. }
  assert (Hheap_old : ∀ w, w ∈ ways st → w ≠ way →
            heap_ways s2 !! w = heap_ways st !! w).
  { intros w Hw Hneq. rewrite Hheap2, assign_heap_other.
    - apply Hother1. by apply Hnot_given.
    - rewrite Hfst. apply not_elem_of_cons. split; [done|]. by apply Hnot_given. }
  assert (Hparents2 : ∀ w, w ∈ ways st ++ created →
            Forall is_relation (get_parents s2 (EWay w))).
  { intros w Hw. simpl.
    rewrite (from_option_fmap_eq w_parents [] _ (heap_ways s1 !! w))
      by (rewrite Hheap2; apply assign_heap_parents).
    apply elem_of_app in Hw as [Hw|Hw].
    - rewrite Hother1 by (by apply Hnot_given). by apply (Hall w Hw).
    - rewrite Hfresh1 by done. constructor. }
  (* the relations *)
  assert (Hloop : ∃ s3,
    for_each (get_parents s2 (EWay way)) (split_in_parent (way :: created)) s2
    = Returns tt s3 ∧ nodes_kept s2 s3).
  { apply (for_each_preserves nodes_kept).
    intros rel s Hrel. apply split_in_parent_kept; [|done].
    assert (Hrels : Forall is_relation (get_parents s2 (EWay way))).
    { apply Hparents2, elem_of_app. by left. }
    rewrite Forall_forall in Hrels. by apply Hrels. }
  destruct Hloop as (s3 & Hrun3 & Hw3 & Hc3 & Hi3 & Hl3 & Hn3 & Hp3).
  exists s3, created. split.
  { unfold split_long_way, split_way, bind, gets.
    destruct (Z.eqb_spec (max_points_in_way st - 1) 0); [lia|].
    destruct (Z.ltb_spec (max_points_in_way st - 1) 0); [lia|].
    fold limit. fold chunks. unfold created in *. rewrite Hrun1.
    rewrite Hrun2. unfold ret. exact Hrun3. }
  split; [by rewrite Hw3, Hways2, Hways1|].
  split; [lia|]. split; [congruence|]. split.
  { intros w Hw. unfold too_long. rewrite Hn3, Hl3, Hl2, Hl1.
    specialize (Hparts w Hw). unfold limit in Hparts. lia. }
  split.
  { intros w Hw Hneq. rewrite Hn3. unfold way_nodes.
    by rewrite Hheap_old. }
  split; [|split].
  - rewrite Hw3, Hways2, Hways1. apply NoDup_app. split; [done|].
    split; [exact Hnot_given|]. by apply fresh_ids_NoDup.
  - congruence.
  - rewrite Hw3, Hways2, Hways1. apply Forall_forall. intros w Hw.
    split; [|by apply Hp3, Hparents2].
    rewrite Hc3, Hi3, Hc2, Hi2, Hc1, Hi1.
    apply elem_of_app in Hw as [Hw|Hw].
    + destruct (Hall w Hw) as [Hpast _]. nia.
    + destruct (fresh_ids_ahead _ _ _ _ Hw) as (j & Hj & ->). nia.
Qed.

End Splitter.

(** ** The loop of the splitter *)

Section SplitLoop.

Context {coord : Type}.
Implicit Types (st : OsmData coord) (way w : Z).

Lemma sum_list_with_ext_in {A : Type} (f g : A → nat) (l : list A) :
  (∀ x, x ∈ l → f x = g x) → sum_list_with f l = sum_list_with g l.
Proof.
  induction l as [|x l IH]; intros Hfg; [done|]. simpl.
  rewrite (Hfg x) by apply list_elem_of_here.
  rewrite IH; [done|]. intros y Hy. by apply Hfg, list_elem_of_further.
Qed.

Lemma filter_ext_in {A : Type} (P Q : A → Prop)
    `{!∀ x, Decision (P x), !∀ x, Decision (Q x)} (l : list A) :
  (∀ x, x ∈ l → P x ↔ Q x) → filter P l = filter Q l.
Proof.
  induction l as [|x l IH]; intros HPQ; [done|].
  assert (Hl : filter P l = filter Q l).
  { apply IH. intros y Hy. by apply HPQ, list_elem_of_further. }
  destruct (decide (P x)) as [HP|HP].
  - rewrite !filter_cons_True, Hl; [done| |done].
    by apply (HPQ x); [apply list_elem_of_here|].
  - rewrite !filter_cons_False, Hl; [done| |done].
    intros HQ. apply HP. by apply (HPQ x); [apply list_elem_of_here|].
Qed.

Lemma filter_nothing {A : Type} (P : A → Prop) `{!∀ x, Decision (P x)} (l : list A) :
  (∀ x, x ∈ l → ¬ P x) → filter P l = [].
Proof.
  induction l as [|x l IH]; intros HP; [done|].
  rewrite filter_cons_False by (apply HP, list_elem_of_here).
  apply IH. intros y Hy. by apply HP, list_elem_of_further.
Qed.

Lemma NoDup_lookup_apart (l : list Z) i x :
  NoDup l → l !! i = Some x → (x ∉ take i l) ∧ (x ∉ drop (S i) l).
Proof.
  intros Hnodup Hx. rewrite <- (take_drop_middle l i x Hx) in Hnodup.
  apply NoDup_app in Hnodup as (_ & Hapart & Hrest).
  apply NoDup_cons in Hrest as [Hnotin _]. split; [|done].
  intros Hin. apply (Hapart x Hin). apply list_elem_of_here.
Qed.

Lemma too_long_ltb st way :
  (max_points_in_way st <? Z.of_nat (length (way_nodes st way)))%Z
  = bool_decide (too_long st way).
Proof.
  unfold too_long. destruct (Z.ltb_spec (max_points_in_way st)
    (Z.of_nat (length (way_nodes st way)))).
  - by rewrite bool_decide_eq_true_2.
  - rewrite bool_decide_eq_false_2; [done|lia].
Qed.

(** With fuel beyond the measure, the loop returns: it has split the
    ways from position [i] on that were too long, and no others. *)
Lemma split_ways_loop_spec fuel : ∀ i st,
  ways_wf st →
  (2 ≤ max_points_in_way st)%Z →
  split_measure st i < fuel →
  (∀ w, w ∈ take i (ways st) → ¬ too_long st w) →
  ∃ st',
    split_ways_loop fuel i st
    = Some (Returns (filter (too_long st) (drop i (ways st))) st')
    ∧ ways st `prefix_of` ways st'
    ∧ max_points_in_way st' = max_points_in_way st
    ∧ (∀ w, w ∈ ways st' → ¬ too_long st' w).
Proof.
  induction fuel as [|fuel IH]; intros i st Hwf Hlimit Hfuel Hdone; [lia|].
  simpl. destruct (ways st !! i) as [way|] eqn:Hway.
  - assert (Hin : way ∈ ways st) by (by eapply list_elem_of_lookup_2).
    destruct (NoDup_lookup_apart (ways st) i way) as [Hbefore Hafter];
      [apply Hwf|done|].
    assert (Hi : S i ≤ length (ways st)).
    { apply Nat.le_succ_l. by eapply lookup_lt_Some. }
    unfold split_measure in Hfuel. rewrite (drop_S _ _ _ Hway) in *.
    simpl in Hfuel.
    rewrite too_long_ltb. destruct (decide (too_long st way)) as [Hlong|Hshort].
    + rewrite bool_decide_eq_true_2 by done.
      rewrite filter_cons_True by done.
      destruct (split_long_way_spec way st Hwf Hin Hlimit Hlong)
        as (st1 & created & Hrun & Hways & Hcount & Hl & Hparts & Hold & Hwf1).
      rewrite Hrun.
      assert (Hcreated : ∀ w, w ∈ created → ¬ too_long st1 w).
      { intros w Hw. by apply Hparts, list_elem_of_further. }
      assert (Hsame : ∀ w, w ∈ ways st → w ≠ way →
                too_long st1 w ↔ too_long st w).
      { intros w Hw Hne. unfold too_long. by rewrite Hold, Hl. }
      assert (Hafter_in : ∀ w, w ∈ drop (S i) (ways st) → w ∈ ways st ∧ w ≠ way).
      { intros w Hw. split; [by apply (subseteq_drop (S i))|].
        intros ->. by apply Hafter. }
      destruct (IH (S i) st1) as (st' & Hloop & Hprefix & Hl' & Hall).
      * done.
      * by rewrite Hl.
      * unfold split_measure. rewrite Hways, drop_app_le, sum_list_with_app by done.
        rewrite (sum_list_with_ext_in (split_weight st1) (split_weight st)
                   (drop (S i) (ways st))).
        2:{ intros w Hw. destruct (Hafter_in w Hw) as [Hw1 Hw2].
            unfold split_weight. rewrite Hold by done.
            destruct (decide (too_long st1 w)) as [H1|H1],
                     (decide (too_long st w)) as [H2|H2]; try done.
            - by apply Hsame in H1.
            - by apply Hsame in H2. }
        rewrite (sum_list_with_ext_in (split_weight st1) (λ _, 1) created).
        2:{ intros w Hw. unfold split_weight.
            by rewrite decide_False by (by apply Hcreated). }
        assert (Hones : sum_list_with (λ _ : Z, 1) created = length created).
        { clear. induction created as [|w l IHl]; [done|]. simpl. by rewrite IHl. }
        rewrite Hones.
        assert (Hweight : split_weight st way = S (length (way_nodes st way))).
        { unfold split_weight. by rewrite decide_True. }
        rewrite Hweight in Hfuel. lia.
      * intros w Hw. rewrite Hways, take_app_le, (take_S_r _ _ _ Hway) in Hw by done.
        apply elem_of_app in Hw as [Hw|Hw].
        -- assert (w ≠ way) by (by intros ->).
           rewrite Hsame; [by apply Hdone| |done]. by apply (subseteq_take i).
        -- apply list_elem_of_singleton in Hw as ->.
           apply Hparts, list_elem_of_here.
      * rewrite Hloop. rewrite Hways, drop_app_le, filter_app by done.
        rewrite (filter_nothing (too_long st1) created) by done.
        rewrite app_nil_r.
        rewrite (filter_ext_in (too_long st1) (too_long st) (drop (S i) (ways st))).
        2:{ intros w Hw. destruct (Hafter_in w Hw). by apply Hsame. }
        exists st'. split; [done|]. split.
        { etrans; [|exact Hprefix]. rewrite Hways. by apply prefix_app_r. }
        split; [congruence|done].
    + rewrite bool_decide_eq_false_2 by done.
      rewrite filter_cons_False by done.
      apply IH; [done|done| |].
      * unfold split_measure.
        assert (Hweight : split_weight st way = 1).
        { unfold split_weight. by rewrite decide_False. }
        rewrite Hweight in Hfuel. lia.
      * intros w Hw. rewrite (take_S_r _ _ _ Hway) in Hw.
        apply elem_of_app in Hw as [Hw|Hw]; [by apply Hdone|].
        by apply list_elem_of_singleton in Hw as ->.
  - apply lookup_ge_None_1 in Hway.
    rewrite drop_ge by done. exists st. split; [done|]. split; [done|].
    split; [done|]. intros w Hw. apply Hdone. by rewrite take_ge.
Qed.

(** C10: every chunk that [__split_way] makes has at most
    [max_points_in_way] nodes; so with fuel beyond the measure of the store
    the loop of [split_long_ways] returns, the ways it has split are the
    ways of the store it was given that were too long, each once, and no
    way that it appended; afterwards no way is too long. *)
Theorem split_long_ways_terminates fuel st :
  ways_wf st →
  (2 ≤ max_points_in_way st)%Z →
  split_measure st 0 < fuel →
  Forall (λ w, Forall (λ chunk, length chunk ≤ Z.to_nat (max_points_in_way st))
                 (split_chunks (Z.to_nat (max_points_in_way st)) (way_nodes st w)))
         (ways st)
  ∧ NoDup (filter (too_long st) (ways st))
  ∧ ∃ st',
      split_ways_loop fuel 0 st
      = Some (Returns (filter (too_long st) (ways st)) st')
      ∧ split_long_ways fuel st = Some (Returns tt st')
      ∧ ways st `prefix_of` ways st'
      ∧ (∀ w, w ∈ ways st' →
           (Z.of_nat (length (way_nodes st' w)) ≤ max_points_in_way st)%Z).
Proof.
  intros Hwf Hlimit Hfuel.
  split; [apply Forall_forall; intros w _; apply split_chunks_bound|].
  split; [apply NoDup_filter, Hwf|].
  destruct (split_ways_loop_spec fuel 0 st Hwf Hlimit Hfuel)
    as (st' & Hloop & Hprefix & Hl & Hall).
  { intros w Hw. by apply elem_of_nil in Hw. }
  rewrite drop_0 in Hloop. exists st'. split; [done|]. split.
  { unfold split_long_ways. rewrite Hloop.
    by destruct (Z.ltb_spec (max_points_in_way st) 2); [lia|]. }
  split; [done|]. intros w Hw. specialize (Hall w Hw).
  unfold too_long in Hall. lia.
Qed.

End SplitLoop.

Lemma long_ring_store_wf : ways_wf long_ring_store.
Proof.
  unfold ways_wf.
  replace (ways long_ring_store) with [(-4)%Z] by (by vm_compute).
  split; [apply NoDup_singleton|]. split; [by vm_compute|].
  constructor; [|constructor]. split; [by vm_compute|].
  replace (get_parents long_ring_store (EWay (-4))) with [ERelation (-5)]
    by (by vm_compute).
  by repeat constructor.
Qed.

(** C10 on the store of a three-point way under a limit of two. *)
Lemma split_long_ways_terminates_witness :
  (ways_wf long_ring_store
   ∧ (2 ≤ max_points_in_way long_ring_store)%Z
   ∧ split_measure long_ring_store 0 < 10)
  ∧ Forall (λ w, Forall (λ chunk,
              length chunk ≤ Z.to_nat (max_points_in_way long_ring_store))
              (split_chunks (Z.to_nat (max_points_in_way long_ring_store))
                 (way_nodes long_ring_store w)))
           (ways long_ring_store)
  ∧ NoDup (filter (too_long long_ring_store) (ways long_ring_store))
  ∧ ∃ st',
      split_ways_loop 10 0 long_ring_store
      = Some (Returns (filter (too_long long_ring_store) (ways long_ring_store)) st')
      ∧ split_long_ways 10 long_ring_store = Some (Returns tt st')
      ∧ ways long_ring_store `prefix_of` ways st'
      ∧ (∀ w, w ∈ ways st' →
           (Z.of_nat (length (way_nodes st' w))
            ≤ max_points_in_way long_ring_store)%Z).
Proof.
  assert (Hlimit : (2 ≤ max_points_in_way long_ring_store)%Z) by (by vm_compute).
  assert (Hfuel : split_measure long_ring_store 0 < 10) by (vm_compute; lia).
  split; [by split; [apply long_ring_store_wf|]|].
  exact (split_long_ways_terminates 10 long_ring_store
           long_ring_store_wf Hlimit Hfuel).
Defined.

(** C1 fails on the code: with a limit of 2, the way of 3 = 2 * 2 - 1
    nodes is split into three ways, not two; the third one holds the last
    node alone, and the relation gets all three as "outer" members. *)
Theorem split_long_ways_three_parts :
  (max_points_in_way long_ring_store = 2%Z
   ∧ ways long_ring_store = [(-4)%Z]
   ∧ way_nodes long_ring_store (-4) = [-1; -2; -3]%Z
   ∧ relation_members long_ring_store (-5) = [(EWay (-4), "outer"%string)])
  ∧ ∃ st',
      split_long_ways 10 long_ring_store = Some (Returns tt st')
      ∧ ways st' = [-4; -6; -7]%Z
      ∧ way_nodes st' (-4) = [-1; -2]%Z
      ∧ way_nodes st' (-6) = [-2; -3]%Z
      ∧ way_nodes st' (-7) = [(-3)%Z]
      ∧ relation_members st' (-5)
        = [(EWay (-4), "outer"%string); (EWay (-6), "outer"%string);
           (EWay (-7), "outer"%string)].
Proof.
  split; [by vm_compute|].
  eexists. split; [vm_compute; reflexivity|]. by vm_compute.
Qed.

(** ** Linestrings: what [__parse_linestring] leaves alone *)

Section Parsers.

Context {coord : Type} (rnd : Z → coord → Z).
Implicit Types (st : OsmData coord) (t : tags).

#[local] Instance relations_kept_refl : Reflexive (@relations_kept coord).
Proof. by intros st. Qed.

#[local] Instance relations_kept_trans : Transitive (@relations_kept coord).
Proof. intros st1 st2 st3 [H1 H2] [H3 H4]. split; congruence. Qed.











(** ** Multipolygons *)








End Parsers.


(** The members of that relation as the model computes them. *)
Example parse_collection_multipolygon_members :
  (λ o, match o with
        | Returns r st' => Some (r, relations st', relation_members st' (-1))
        | Raises _ => None
        end)
    (parse_collection round_Z (λ _ _, ret []) two_part_multipolygon ∅
       (empty_store always_merge 1800))
  = Some ([Some (ERelation (-1))], [(-1)%Z],
          [(EWay (-6), "outer"%string); (EWay (-10), "inner"%string);
           (EWay (-14), "outer"%string)]).
Proof. by vm_compute. Qed.

(** A part without rings has no exterior ring to parse: the call on what
    [GetGeometryRef(0)] answers raises, after the relation was added. *)
Example parse_collection_empty_part_raises :
  parse_collection round_Z (λ _ _, ret [])
    (Geometry wkbMultiPolygon []
       [Geometry wkbPolygon [] [];
        Geometry wkbPolygon []
          [linestring_Z wkbLinearRing [(0, 0); (900, 0); (900, 900); (0, 0)]%Z]])
    ∅ (empty_store always_merge 1800)
  = Raises "AttributeError"%string.
Proof. reflexivity. Qed.

Section Rotations.

Context {A : Type}.
Implicit Types (l : list A).

Lemma rotate_nil k : rotate k ([] : list A) = [].
Proof. unfold rotate. by rewrite drop_nil, take_nil. Qed.

Lemma rotate_0 l : rotate 0 l = l.
Proof.
  unfold rotate. destruct l as [|a l]; [done|].
  rewrite Nat.Div0.mod_0_l. by rewrite drop_0, take_0, app_nil_r.
Qed.

Lemma rotate_small k l : k ≤ length l → rotate k l = drop k l ++ take k l.
Proof.
  intros Hk. unfold rotate.
  destruct (decide (k = length l)) as [->|Hne].
  - rewrite Nat.Div0.mod_same, drop_0, take_0, drop_all, firstn_all. 
    by rewrite app_nil_r.
  - by rewrite Nat.mod_small by lia.
Qed.

Lemma rotate_mod k l : rotate k l = rotate (k mod length l) l.
Proof. unfold rotate. by rewrite Nat.Div0.mod_mod. Qed.

(** A rotation is undone by rotating on, around the ring. *)
Lemma rotate_back k l : ∃ j, rotate j (rotate k l) = l.
Proof.
  destruct (decide (l = [])) as [->|Hne]; [exists 0; by rewrite ?reverse_nil, !rotate_nil|].
  rewrite (rotate_mod k l).
  assert (Hr : k mod length l ≤ length l).
  { apply Nat.lt_le_incl, Nat.mod_upper_bound. by destruct l. }
  set (r := k mod length l) in *. clearbody r.
  exists (length l - r). rewrite (rotate_small r l) by done.
  rewrite rotate_small by (rewrite length_app, length_drop, length_take; lia).
  rewrite drop_app_length', take_app_length' by (rewrite length_drop; lia).
  apply take_drop.
Qed.

Lemma rotate_rotate j k l : ∃ i, rotate j (rotate k l) = rotate i l.
Proof.
  destruct (decide (l = [])) as [->|Hne]; [exists 0; by rewrite !rotate_nil|].
  assert (Hlen : 0 < length l) by (destruct l; [done|simpl; lia]).
  exists (j + k). apply list_eq. intros i.
  destruct (decide (i < length l)) as [Hi|Hi].
  - rewrite !lookup_rotate_r; rewrite ?length_rotate; try done.
    + f_equal. unfold rotate_nat_add.
      rewrite !Z2Nat.id by (apply Z.mod_pos_bound; lia).
      f_equal. rewrite Zplus_mod_idemp_r. f_equal. lia.
    + unfold rotate_nat_add. 
      pose proof (Z.mod_pos_bound (Z.of_nat j + Z.of_nat i) (Z.of_nat (length l))).
      lia.
  - rewrite !lookup_ge_None_2; rewrite ?length_rotate; try done; lia.
Qed.

Lemma rotate_reverse k l : ∃ j, reverse (rotate k l) = rotate j (reverse l).
Proof.
  destruct (decide (l = [])) as [->|Hne]; [exists 0; by rewrite ?reverse_nil, !rotate_nil|].
  rewrite (rotate_mod k l).
  assert (Hr : k mod length l ≤ length l).
  { apply Nat.lt_le_incl, Nat.mod_upper_bound. by destruct l. }
  set (r := k mod length l) in *. clearbody r.
  exists (length l - r). rewrite (rotate_small r l) by done.
  rewrite rotate_small by (rewrite length_reverse; lia).
  rewrite reverse_app. rewrite <- (take_drop r l) at 4 6.
  rewrite reverse_app.
  assert (Hd : length (reverse (drop r l)) = length l - r)
    by (by rewrite length_reverse, length_drop).
  rewrite <- Hd. by rewrite drop_app_length, take_app_length.
Qed.

Lemma rotate_cons_snoc (a : A) l : rotate 1 (a :: l) = l ++ [a].
Proof.
  destruct l as [|b l]; [done|].
  rewrite rotate_small by (simpl; lia). simpl. by rewrite ?drop_0, ?take_0.
Qed.

Lemma rotate_snoc_cons (a : A) l : rotate (length l) (l ++ [a]) = a :: l.
Proof.
  rewrite rotate_small by (rewrite length_app; simpl; lia).
  by rewrite drop_app_length, take_app_length.
Qed.

End Rotations.

Section CanonicalForm.

Implicit Types (nodes : list Z).

(** The canonical form of a closed sequence, spelled out around the first
    place of its lowest identity. *)
Lemma get_ordered_nodes_split nodes :
  is_closed id_of nodes = true →
  ∃ pre m post,
    open_ring nodes = pre ++ m :: post
    ∧ 2 ≤ length (open_ring nodes)
    ∧ nodes = close_ring (open_ring nodes)
    ∧ Forall (λ a, (id_of m < id_of a)%Z) pre
    ∧ Forall (λ a, (id_of m ≤ id_of a)%Z) post
    ∧ get_ordered_nodes id_of nodes = close_ring (m :: post ++ pre).
Proof.
  intros Hclosed. destruct (is_closed_ring nodes Hclosed) as [Hring Hlen].
  destruct (first_lowest_split id_of (open_ring nodes))
    as (pre & m & post & Hsplit & Hpre & Hpost).
  { intros Hnil. rewrite Hnil in Hlen. simpl in Hlen. lia. }
  exists pre, m, post. split; [done|]. split; [done|]. split; [done|].
  split; [done|]. split; [done|].
  rewrite Hring, Hsplit, get_ordered_nodes_ring by (by rewrite <- ?Hsplit).
  rewrite close_ring_cons. by rewrite <- app_assoc.
Qed.

Lemma rotate_to_place {A : Type} (pre : list A) m post :
  rotate (length pre) (pre ++ m :: post) = m :: post ++ pre.
Proof.
  rewrite rotate_small by (rewrite length_app; simpl; lia).
  by rewrite drop_app_length, take_app_length.
Qed.

(** What is closed by [close_ring] is closed. *)
Lemma ring_rotate_closed k nodes :
  2 ≤ length (open_ring nodes) → is_closed id_of (ring_rotate k nodes) = true.
Proof.
  intros Hlen. unfold ring_rotate. apply is_closed_close_ring.
  by rewrite length_rotate.
Qed.

Lemma open_ring_rotate k nodes :
  2 ≤ length (open_ring nodes) →
  open_ring (ring_rotate k nodes) = rotate k (open_ring nodes).
Proof.
  intros Hlen. unfold ring_rotate. apply open_close_ring.
  intros Hnil. apply (f_equal length) in Hnil.
  rewrite length_rotate in Hnil. simpl in Hnil. lia.
Qed.

(** The canonical form of a closed sequence is a rotation of it: the same
    nodes in the same order around the ring. *)
Theorem get_ordered_nodes_rotation nodes :
  is_closed id_of nodes = true →
  ∃ k, k < length nodes - 1
    ∧ get_ordered_nodes id_of nodes = ring_rotate k nodes.
Proof.
  intros Hclosed.
  destruct (get_ordered_nodes_split nodes Hclosed)
    as (pre & m & post & Hsplit & Hlen & Hring & Hpre & Hpost & Hcanon).
  exists (length pre). split.
  - unfold open_ring in Hsplit. apply (f_equal length) in Hsplit.
    rewrite length_take, length_app in Hsplit. simpl in Hsplit. lia.
  - rewrite Hcanon. unfold ring_rotate. by rewrite Hsplit, rotate_to_place.
Qed.

(** Canonicalising twice is canonicalising once. *)
Theorem get_ordered_nodes_idempotent nodes :
  get_ordered_nodes id_of (get_ordered_nodes id_of nodes)
  = get_ordered_nodes id_of nodes.
Proof.
  destruct (is_closed id_of nodes) eqn:Hclosed.
  - destruct (get_ordered_nodes_split nodes Hclosed)
      as (pre & m & post & Hsplit & Hlen & Hring & Hpre & Hpost & Hcanon).
    rewrite Hcanon.
    pose proof (get_ordered_nodes_ring id_of [] m (post ++ pre)) as Hagain.
    simpl app in Hagain. rewrite Hagain.
    + by rewrite close_ring_cons.
    + constructor.
    + apply Forall_app. split; [done|].
      eapply Forall_impl; [exact Hpre|]. simpl. intros; lia.
    + rewrite Hsplit in Hlen. rewrite length_app in *. simpl in *.
      rewrite length_app. lia.
  - rewrite (get_ordered_nodes_open id_of nodes Hclosed).
    by apply get_ordered_nodes_open.
Qed.

End CanonicalForm.

Section RotationOf.

Context {A : Type}.
Implicit Types (l k : list A).

#[global] Instance rotation_of_refl : Reflexive (@rotation_of A).
Proof. intros l. exists 0. by rewrite rotate_0. Qed.

#[global] Instance rotation_of_sym : Symmetric (@rotation_of A).
Proof.
  intros l k [n ->]. destruct (rotate_back n k) as [j Hj].
  exists j. by rewrite Hj.
Qed.

#[global] Instance rotation_of_trans : Transitive (@rotation_of A).
Proof. intros l k m [n ->] [j ->]. apply rotate_rotate. Qed.

Lemma rotation_of_reverse l k :
  rotation_of l k → rotation_of (reverse l) (reverse k).
Proof. intros [n ->]. apply rotate_reverse. Qed.

Lemma rotation_of_cons_reverse (a : A) l :
  rotation_of (a :: reverse l) (reverse (a :: l)).
Proof.
  exists (length (reverse l)). by rewrite reverse_cons, rotate_snoc_cons.
Qed.

Lemma rotation_of_length l k : rotation_of l k → length l = length k.
Proof. intros [n ->]. apply length_rotate. Qed.

End RotationOf.

Section DuplicateWays.

Context {coord : Type}.
Implicit Types (st : OsmData coord) (nodes : list Z).

(** The canonical form of any sequence, open or closed. *)
Lemma get_ordered_nodes_cases nodes :
  (is_closed id_of nodes = false ∧ get_ordered_nodes id_of nodes = nodes)
  ∨ (is_closed id_of nodes = true
     ∧ 2 ≤ length (open_ring nodes)
     ∧ nodes = close_ring (open_ring nodes)
     ∧ ∃ ring, rotation_of ring (open_ring nodes)
         ∧ get_ordered_nodes id_of nodes = close_ring ring).
Proof.
  destruct (is_closed id_of nodes) eqn:Hclosed.
  - right. split; [done|].
    destruct (is_closed_ring nodes Hclosed) as [Hring Hlen].
    split; [done|]. split; [done|].
    destruct (get_ordered_nodes_rotation nodes Hclosed) as (k & _ & Hk).
    exists (rotate k (open_ring nodes)). split; [by exists k|done].
  - left. split; [done|]. by apply get_ordered_nodes_open.
Qed.

Lemma same_cycle_ring nodes others ring :
  2 ≤ length ring → rotation_of ring (open_ring others) →
  is_closed id_of others = true →
  nodes = close_ring ring → same_cycle nodes others.
Proof.
  intros Hlen [k ->] Hclosed ->. right. split; [done|]. by exists k.
Qed.

Lemma open_ring_reverse_closed nodes :
  is_closed id_of nodes = true →
  is_closed id_of (reverse nodes) = true
  ∧ rotation_of (open_ring (reverse nodes)) (reverse (open_ring nodes)).
Proof.
  intros Hclosed. destruct (is_closed_ring nodes Hclosed) as [Hring Hlen].
  destruct (open_ring nodes) as [|b ring] eqn:Hopen; [simpl in Hlen; lia|].
  rewrite Hring, reverse_close_ring. split.
  - apply is_closed_close_ring. simpl in *. by rewrite length_reverse.
  - rewrite open_close_ring by done. apply rotation_of_cons_reverse.
Qed.

Lemma reverse_close_ring_rotation (ring : list Z) :
  2 ≤ length ring →
  ∃ ring', reverse (close_ring ring) = close_ring ring'
    ∧ rotation_of ring' (reverse ring).
Proof.
  intros Hlen. destruct ring as [|a ring]; [simpl in Hlen; lia|].
  exists (a :: reverse ring). split; [apply reverse_close_ring|].
  apply rotation_of_cons_reverse.
Qed.

Lemma close_ring_inj (ring ring' : list Z) :
  ring ≠ [] → ring' ≠ [] → close_ring ring = close_ring ring' → ring = ring'.
Proof.
  intros Hne Hne' Heq. apply (f_equal open_ring) in Heq.
  by rewrite !open_close_ring in Heq.
Qed.

Lemma nonempty_length {A : Type} (l : list A) : 2 ≤ length l → l ≠ [].
Proof. intros Hlen ->. simpl in Hlen. lia. Qed.

(** Sequences with the same canonical form go around the same ring. *)
Lemma same_canonical_form nodes others :
  get_ordered_nodes id_of nodes = get_ordered_nodes id_of others →
  same_cycle nodes others.
Proof.
  intros Heq.
  destruct (get_ordered_nodes_cases nodes)
    as [[Hopen Hcanon]|(Hclosed & Hlen & Hring & ring & Hrot & Hcanon)];
  destruct (get_ordered_nodes_cases others)
    as [[Hopen' Hcanon']|(Hclosed' & Hlen' & Hring' & ring' & Hrot' & Hcanon')];
  rewrite Hcanon, Hcanon' in Heq.
  - by left.
  - apply (same_cycle_ring nodes others ring'); try done.
    by rewrite (rotation_of_length _ _ Hrot').
  - exfalso. rewrite <- Heq in Hopen'.
    rewrite is_closed_close_ring in Hopen'; [done|].
    by rewrite (rotation_of_length _ _ Hrot).
  - assert (Hlr : 2 ≤ length ring) by (by rewrite (rotation_of_length _ _ Hrot)).
    assert (Hlr' : 2 ≤ length ring') by (by rewrite (rotation_of_length _ _ Hrot')).
    apply close_ring_inj in Heq; [|by apply nonempty_length..]. subst ring'.
    apply (same_cycle_ring nodes others (open_ring nodes)); try done.
    etrans; [symmetry; exact Hrot|done].
Qed.

(** A sequence whose canonical form is that of another one read
    backwards goes around the ring of the other one read backwards. *)
Lemma reverse_canonical_form nodes others :
  get_ordered_nodes id_of nodes = reverse (get_ordered_nodes id_of others) →
  same_cycle nodes (reverse others).
Proof.
  intros Heq.
  destruct (get_ordered_nodes_cases others)
    as [[Hopen' Hcanon']|(Hclosed' & Hlen' & Hring' & ring' & Hrot' & Hcanon')];
  rewrite Hcanon' in Heq.
  - destruct (get_ordered_nodes_cases nodes)
      as [[Hopen Hcanon]|(Hclosed & Hlen & Hring & ring & Hrot & Hcanon)];
    rewrite Hcanon in Heq; [by left|].
    assert (Hlr : 2 ≤ length ring) by (by rewrite (rotation_of_length _ _ Hrot)).
    apply (same_cycle_ring nodes (reverse others) (open_ring nodes)); try done.
    + rewrite <- Heq, open_close_ring by (by apply nonempty_length).
      by symmetry.
    + rewrite <- Heq. by apply is_closed_close_ring.
  - assert (Hlr' : 2 ≤ length ring') by (by rewrite (rotation_of_length _ _ Hrot')).
    destruct (reverse_close_ring_rotation ring' Hlr') as (back & Hback & Hrotb).
    rewrite Hback in Heq.
    destruct (open_ring_reverse_closed others Hclosed') as [Hrclosed Hropen].
    assert (Hlb : 2 ≤ length back).
    { by rewrite (rotation_of_length _ _ Hrotb), length_reverse. }
    assert (Hcycle : rotation_of back (open_ring (reverse others))).
    { etrans; [exact Hrotb|]. etrans; [|symmetry; exact Hropen].
      by apply rotation_of_reverse. }
    destruct (get_ordered_nodes_cases nodes)
      as [[Hopen Hcanon]|(Hclosed & Hlen & Hring & ring & Hrot & Hcanon)];
    rewrite Hcanon in Heq.
    + by apply (same_cycle_ring nodes (reverse others) back).
    + assert (Hlr : 2 ≤ length ring) by (by rewrite (rotation_of_length _ _ Hrot)).
      apply close_ring_inj in Heq; [|by apply nonempty_length..]. subst back.
      apply (same_cycle_ring nodes (reverse others) (open_ring nodes)); try done.
      etrans; [symmetry; exact Hrot|done].
Qed.

(** Duplicate detection is sound: a way that [__verify_duplicate_ways]
    reports is one of the candidates, has as many nodes as the new
    sequence, and goes around the same ring: in the same direction when
    it is reported as "way", in the opposite one when as "reverse_way". *)
Theorem verify_duplicate_ways_sound st potential nodes dupway role :
  (dupway, role) ∈ verify_duplicate_ways st potential nodes →
  dupway ∈ potential
  ∧ length (way_nodes st dupway) = length nodes
  ∧ ((role = "way"%string ∧ same_cycle (way_nodes st dupway) nodes)
     ∨ (role = "reverse_way"%string
        ∧ same_cycle (way_nodes st dupway) (reverse nodes))).
Proof.
  unfold verify_duplicate_ways. rewrite list_elem_of_In, in_flat_map.
  intros (w & Hw%list_elem_of_In & Hin%list_elem_of_In).
  destruct (Nat.eqb_spec (length (way_nodes st w)) (length nodes)) as [Hlen|];
    [|by apply elem_of_nil in Hin].
  case_bool_decide as Hsame.
  - apply list_elem_of_singleton in Hin. injection Hin as -> ->.
    split; [done|]. split; [done|]. left. split; [done|].
    by apply same_canonical_form.
  - case_bool_decide as Hrev; [|by apply elem_of_nil in Hin].
    apply list_elem_of_singleton in Hin. injection Hin as -> ->.
    split; [done|]. split; [done|]. right. split; [done|].
    by apply reverse_canonical_form.
Qed.

End DuplicateWays.

Section ChunkJoints.

Context {A : Type}.
Implicit Types (nodes : list A).

(** The chunks, by position: chunk [k] starts at place [k * (limit - 1)]. *)
Lemma split_chunks_unfold limit nodes :
  split_chunks limit nodes
  = (λ k, take limit (drop (k * (limit - 1)) nodes))
      <$> seq 0 ((length nodes + (limit - 1) - 1) / (limit - 1)).
Proof. unfold split_chunks, range_step. by rewrite <- list_fmap_compose. Qed.

Lemma chunk_count_covers len step :
  1 ≤ step →
  len ≤ (len + step - 1) / step * step
  ∧ (1 ≤ len → ((len + step - 1) / step - 1) * step < len).
Proof.
  intros Hstep.
  pose proof (Nat.div_mod_eq (len + step - 1) step) as Hdiv.
  pose proof (Nat.mod_upper_bound (len + step - 1) step) as Hmod.
  set (q := (len + step - 1) / step) in *.
  set (r := (len + step - 1) mod step) in *. split; [nia|].
  intros Hlen. destruct q as [|q]; [nia|]. simpl. nia.
Qed.

Lemma drop_1_take (n : nat) (l : list A) : drop 1 (take (S n) l) = take n (drop 1 l).
Proof. destruct l as [|a l]; simpl; by rewrite ?take_nil, ?drop_0. Qed.

Lemma concat_chunk_tails step nodes count first :
  concat ((λ k, drop 1 (take (S step) (drop (k * step) nodes))) <$> seq first count)
  = take (count * step) (drop (first * step + 1) nodes).
Proof.
  revert first. induction count as [|count IH]; intros first; [done|].
  simpl seq. rewrite fmap_cons. simpl concat. rewrite IH, drop_1_take, drop_drop.
  replace (drop (S first * step + 1) nodes)
    with (drop step (drop (first * step + 1) nodes))
    by (rewrite drop_drop; f_equal; lia).
  apply take_take_drop.
Qed.

Lemma join_split_chunks limit nodes :
  2 ≤ limit → join_chunks (split_chunks limit nodes) = nodes.
Proof.
  intros Hlimit. rewrite split_chunks_unfold.
  destruct (chunk_count_covers (length nodes) (limit - 1)) as [Hcover _]; [lia|].
  destruct ((length nodes + (limit - 1) - 1) / (limit - 1)) as [|count].
  - simpl in *. symmetry. apply nil_length_inv. lia.
  - cbn [seq fmap list_fmap join_chunks]. rewrite drop_0.
    change (list_fmap _ _ ?f ?l) with (f <$> l).
    rewrite <- list_fmap_compose. unfold compose.
    destruct limit as [|step]; [lia|]. simpl in Hcover.
    replace (S step - 1) with step in * by lia.
    rewrite (concat_chunk_tails step nodes count 1).
    replace (1 * step + 1) with (S step) by lia.
    rewrite take_take_drop. apply take_ge. lia.
Qed.

(** Joining the chunks gives the node sequence back: nothing is lost,
    nothing but the first node of each later chunk is doubled. *)
Theorem split_chunks_join limit nodes :
  2 ≤ limit → join_chunks (split_chunks limit nodes) = nodes.
Proof. apply join_split_chunks. Qed.

(** Consecutive chunks share one node: a chunk that is followed by
    another one is full, and its last node is the first node of the
    next. *)
Theorem split_chunks_overlap limit nodes j chunk next :
  2 ≤ limit →
  split_chunks limit nodes !! j = Some chunk →
  split_chunks limit nodes !! S j = Some next →
  length chunk = limit ∧ is_Some (last chunk) ∧ last chunk = head next.
Proof.
  intros Hlimit. rewrite split_chunks_unfold, !list_lookup_fmap.
  intros Hchunk Hnext.
  destruct (seq 0 _ !! j) as [k|] eqn:Hk; [|done].
  destruct (seq 0 _ !! S j) as [k'|] eqn:Hk'; [|done].
  apply lookup_seq in Hk as [-> Hj]. apply lookup_seq in Hk' as [-> Hj'].
  simpl in *. injection Hchunk as <-. injection Hnext as <-.
  destruct (chunk_count_covers (length nodes) (limit - 1)) as [_ Hlast]; [lia|].
  assert (Hlen : 1 ≤ length nodes).
  { destruct nodes; [|simpl; lia]. simpl in Hj'.
    rewrite Nat.div_small in Hj' by lia. lia. }
  specialize (Hlast Hlen).
  assert (Hroom : S j * (limit - 1) < length nodes) by nia.
  assert (Hfull : length (take limit (drop (j * (limit - 1)) nodes)) = limit).
  { rewrite length_take, length_drop. simpl in Hroom. lia. }
  split; [exact Hfull|].
  rewrite last_lookup, Hfull, head_lookup.
  rewrite !lookup_take_lt, !lookup_drop by lia.
  replace (j * (limit - 1) + pred limit) with (S j * (limit - 1) + 0)
    by (simpl; lia).
  split; [apply lookup_lt_is_Some; simpl in *; lia|]. f_equal.
Qed.

End ChunkJoints.

(** ** Rules for the specifications of computations *)

Section Rules.

Context {coord : Type}.
Implicit Types (st : OsmData coord) (P I : OsmData coord → Prop).

Lemma hoare_bind {A B : Type} P (m : M coord A) (Q : A → OsmData coord → Prop)
    (k : A → M coord B) (R : B → OsmData coord → Prop) :
  hoare P m Q → (∀ a, hoare (Q a) (k a) R) → hoare P (bind m k) R.
Proof.
  intros Hm Hk st b st' HP. unfold bind.
  destruct (m st) as [a st1|e] eqn:Hrun; [|done].
  intros Hrun'. eapply Hk; [|exact Hrun']. by eapply Hm.
Qed.

Lemma hoare_weaken {A : Type} (P P' : OsmData coord → Prop) (m : M coord A)
    (Q Q' : A → OsmData coord → Prop) :
  hoare P' m Q' → (∀ st, P st → P' st) → (∀ a st, Q' a st → Q a st) →
  hoare P m Q.
Proof. intros Hm HP HQ st a st' Hst Hrun. eapply HQ, Hm; [by apply HP|done]. Qed.

Lemma hoare_ret {A : Type} P (a : A) (Q : A → OsmData coord → Prop) :
  (∀ st, P st → Q a st) → hoare P (ret a) Q.
Proof. intros HQ st a' st' HP [= <- <-]. by apply HQ. Qed.

Lemma hoare_gets {A : Type} P (f : OsmData coord → A) (Q : A → OsmData coord → Prop) :
  (∀ st, P st → Q (f st) st) → hoare P (gets f) Q.
Proof. intros HQ st a' st' HP [= <- <-]. by apply HQ. Qed.

Lemma hoare_modify P (f : OsmData coord → OsmData coord)
    (Q : unit → OsmData coord → Prop) :
  (∀ st, P st → Q tt (f st)) → hoare P (modify f) Q.
Proof. intros HQ st a' st' HP [= <- <-]. by apply HQ. Qed.

Lemma hoare_and {A : Type} P P' (m : M coord A) (Q Q' : A → OsmData coord → Prop) :
  hoare P m Q → hoare P' m Q' →
  hoare (λ st, P st ∧ P' st) m (λ a st, Q a st ∧ Q' a st).
Proof. intros H1 H2 st a st' [HP HP'] Hrun. split; [by eapply H1|by eapply H2]. Qed.

(** A loop with an invariant that depends on the accumulator. *)
Lemma hoare_fold_each {A S : Type} (I : S → OsmData coord → Prop)
    (xs : list A) (body : S → A → M coord S) :
  (∀ s x, x ∈ xs → hoare (I s) (body s x) I) →
  ∀ s, hoare (I s) (fold_each xs body s) I.
Proof.
  induction xs as [|x xs IH]; intros Hbody s.
  - by apply hoare_ret.
  - simpl. eapply hoare_bind; [apply Hbody, list_elem_of_here|].
    intros s'. apply IH. intros s'' y Hy. by apply Hbody, list_elem_of_further.
Qed.

Lemma keeps_bind {A B : Type} I (m : M coord A) (k : A → M coord B) :
  keeps I m → (∀ a, keeps I (k a)) → keeps I (bind m k).
Proof. intros Hm Hk. by eapply hoare_bind. Qed.

Lemma keeps_ret {A : Type} I (a : A) : keeps I (ret (coord := coord) a).
Proof. by apply hoare_ret. Qed.

Lemma keeps_gets {A : Type} I (f : OsmData coord → A) : keeps I (gets f).
Proof. by apply hoare_gets. Qed.

Lemma keeps_raise {A : Type} I e : keeps I (raise (coord := coord) (A := A) e).
Proof. by intros st a st' _ Hrun. Qed.

Lemma keeps_modify I (f : OsmData coord → OsmData coord) :
  (∀ st, I st → I (f st)) → keeps I (modify f).
Proof. intros Hf. by apply hoare_modify. Qed.


Lemma keeps_new_id I :
  (∀ st c, I st → I (with_id_counter c st)) → keeps I (new_id (coord := coord)).
Proof. intros HI st c st' Hst [= <- <-]. by apply HI. Qed.

Lemma keeps_deref {A : Type} I (o : option A) : keeps I (deref (coord := coord) o).
Proof. destruct o; [apply keeps_ret|apply keeps_raise]. Qed.

Lemma keeps_for_each {A : Type} I (xs : list A) (body : A → M coord unit) :
  (∀ x, x ∈ xs → keeps I (body x)) → keeps I (for_each xs body).
Proof.
  induction xs as [|x xs IH]; intros Hbody; [apply keeps_ret|].
  simpl. apply keeps_bind; [apply Hbody, list_elem_of_here|].
  intros _. apply IH. intros y Hy. by apply Hbody, list_elem_of_further.
Qed.

Lemma keeps_fold_each {A S : Type} I (xs : list A) (body : S → A → M coord S) :
  (∀ s x, x ∈ xs → keeps I (body s x)) → ∀ s, keeps I (fold_each xs body s).
Proof. intros Hbody. by apply (hoare_fold_each (λ _, I)). Qed.

Lemma keeps_and {A : Type} I J (m : M coord A) :
  keeps I m → keeps J m → keeps (λ st, I st ∧ J st) m.
Proof. intros HI HJ. by apply hoare_and. Qed.







(** What returns and keeps one invariant, and keeps another one whenever
    it returns, returns and keeps both. *)
Lemma safe_keeps {A : Type} I J (m : M coord A) :
  safe I m → keeps J m → safe (λ st, I st ∧ J st) m.
Proof.
  intros Hsafe Hkeeps st [HI HJ]. destruct (Hsafe st HI) as (a & st' & Hrun & HI').
  exists a, st'. split; [done|]. split; [done|]. by eapply Hkeeps.
Qed.

Lemma safe_hoare {A : Type} I P (m : M coord A) (Q : A → OsmData coord → Prop) st :
  safe I m → hoare P m Q → I st → P st →
  ∃ a st', m st = Returns a st' ∧ I st' ∧ Q a st'.
Proof.
  intros Hsafe Hhoare HI HP. destruct (Hsafe st HI) as (a & st' & Hrun & HI').
  exists a, st'. split; [done|]. split; [done|]. by eapply Hhoare.
Qed.

End Rules.

(** One step through a computation that keeps an invariant: the
    structure of the computation is taken apart, what is left are its
    calls and its updates of the store. *)
Ltac keeps_step :=
  lazymatch goal with
  | |- keeps _ (bind _ _) => apply keeps_bind; [|intros ?]
  | |- keeps _ (ret _) => apply keeps_ret
  | |- keeps _ (gets _) => apply keeps_gets
  | |- keeps _ (raise _) => apply keeps_raise
  | |- keeps _ (deref _) => apply keeps_deref
  | |- keeps _ (for_each _ _) => apply keeps_for_each; intros ? ?
  | |- keeps _ (fold_each _ _ _) => apply keeps_fold_each; intros ? ? ?
  | |- keeps _ (match ?x with _ => _ end) => destruct x
  | |- keeps _ (if ?b then _ else _) => destruct b
  end.


(** ** The parsers keep the way stores consistent *)

Section WaysKept.

Context {coord : Type} (rnd : Z → coord → Z) (zero : coord).
Implicit Types (st : OsmData coord) (t : tags).








End WaysKept.


Section WaysKeptByParsers.

Context {coord : Type} (rnd : Z → coord → Z) (zero : coord).
Implicit Types (st : OsmData coord) (t : tags).








End WaysKeptByParsers.

(** ** The parsers return on consistent node stores *)

Section NodesSafe.

Context {coord : Type} (rnd : Z → coord → Z) (zero : coord).
Implicit Types (st : OsmData coord) (t : tags).









End NodesSafe.


Section NodesSafeParsers.

Context {coord : Type} (rnd : Z → coord → Z) (zero : coord).
Implicit Types (st : OsmData coord) (t : tags) (g : OgrGeometry coord).




End NodesSafeParsers.

(** ** The dispatcher *)

Section Dispatcher.

Context {coord : Type} (rnd : Z → coord → Z) (zero : coord).
Implicit Types (st : OsmData coord) (t : tags) (g : OgrGeometry coord).

Lemma nesting_member g sub :
  sub ∈ GetGeometries g → nesting sub < nesting g.
Proof.
  destruct g as [ty ps gs]. simpl. intros Hsub. apply Nat.lt_succ_r.
  induction gs as [|g gs IH]; [by apply elem_of_nil in Hsub|].
  simpl. apply elem_of_cons in Hsub as [->|Hsub]; [lia|].
  specialize (IH Hsub). lia.
Qed.

Lemma for_each_ext {A : Type} (xs : list A) (f1 f2 : A → M coord unit) st :
  (∀ x s, x ∈ xs → f1 x s = f2 x s) → for_each xs f1 st = for_each xs f2 st.
Proof.
  revert st. induction xs as [|x xs IH]; intros st Hf; [done|].
  simpl. unfold bind. rewrite (Hf x st) by apply list_elem_of_here.
  destruct (f2 x st) as [[] st1|e]; [|done].
  apply IH. intros y s Hy. by apply Hf, list_elem_of_further.
Qed.

Lemma bind_ext {A B : Type} (m1 m2 : M coord A) (k1 k2 : A → M coord B) st :
  (∀ s, m1 s = m2 s) → (∀ a s, k1 a s = k2 a s) → bind m1 k1 st = bind m2 k2 st.
Proof.
  intros Hm Hk. unfold bind. rewrite Hm. destruct (m2 st) as [a s|e]; [|done].
  apply Hk.
Qed.

(** [__parse_collection] calls [__parse_geometry] on the members of the
    collection, and on nothing else. *)
Lemma parse_collection_ext
    (f1 f2 : OgrGeometry coord → tags → M coord (list (option entity))) g t st :
  (∀ sub t' s, sub ∈ GetGeometries g → f1 sub t' s = f2 sub t' s) →
  parse_collection rnd f1 g t st = parse_collection rnd f2 g t st.
Proof.
  intros Hf. unfold parse_collection.
  case_bool_decide; [done|]. case_bool_decide; [done|].
  apply bind_ext; [done|]. intros relation s1.
  apply bind_ext; [|done]. intros s2. apply for_each_ext.
  intros sub s Hsub. apply bind_ext; [|done]. intros s3. by apply Hf.
Qed.

Lemma parse_geometry_body_ext
    (f1 f2 : OgrGeometry coord → tags → M coord (list (option entity))) g t st :
  (∀ sub t' s, sub ∈ GetGeometries g → f1 sub t' s = f2 sub t' s) →
  parse_geometry_body rnd zero f1 g t st = parse_geometry_body rnd zero f2 g t st.
Proof.
  intros Hf. unfold parse_geometry_body.
  do 3 (case_bool_decide; [done|]). case_bool_decide; [|done].
  by apply parse_collection_ext.
Qed.

(** Following the calls as deep as the geometry is nested is following
    them all. *)
Lemma parse_geometry_at_enough depth : ∀ g t st,
  nesting g ≤ depth →
  parse_geometry_at rnd zero depth g t st = parse_geometry rnd zero g t st.
Proof.
  induction depth as [depth IH] using lt_wf_ind. intros g t st Hdepth.
  unfold parse_geometry.
  destruct depth as [|depth]; [destruct g; simpl in Hdepth; lia|].
  destruct (nesting g) as [|n] eqn:Hn; [destruct g; simpl in Hn; lia|].
  simpl. apply parse_geometry_body_ext. intros sub t' s Hsub.
  pose proof (nesting_member g sub Hsub) as Hless.
  rewrite !IH by lia. done.
Qed.

(** [__parse_geometry] as the source has it: the method calls itself on
    the members of a collection. *)
Lemma parse_geometry_unfold g t st :
  parse_geometry rnd zero g t st
  = parse_geometry_body rnd zero (parse_geometry rnd zero) g t st.
Proof.
  unfold parse_geometry at 1.
  destruct (nesting g) as [|n] eqn:Hn; [destruct g; simpl in Hn; lia|].
  simpl. apply parse_geometry_body_ext. intros sub t' s Hsub.
  pose proof (nesting_member g sub Hsub) as Hless.
  apply parse_geometry_at_enough. lia.
Qed.

End Dispatcher.

Section Outcome.

Context {coord : Type} (rnd : Z → coord → Z) (zero : coord).
Implicit Types (st : OsmData coord) (t : tags) (g : OgrGeometry coord).


Lemma multi_types_collection (ty : wkb_type) :
  ty ∈ [wkbMultiPolygon; wkbMultiPolygon25D]
  ∨ ty ∈ [wkbMultiLineString; wkbMultiLineString25D] →
  ty ∈ collection_types.
Proof.
  intros Hty. apply (bool_decide_eq_true_1 _).
  assert (Hone : bool_decide (ty ∈ [wkbMultiPolygon; wkbMultiPolygon25D])
                 || bool_decide (ty ∈ [wkbMultiLineString; wkbMultiLineString25D])
                 = true).
  { destruct Hty as [H|H]; rewrite (bool_decide_eq_true_2 _ H);
      by rewrite ?orb_true_r. }
  by destruct ty; vm_compute in Hone; vm_compute.
Qed.










End Outcome.

(** ** Linestrings: no node twice in a row *)

Section NoRepeats.

Context {coord : Type} (rnd : Z → coord → Z).
Implicit Types (st : OsmData coord) (t : tags) (I : OsmData coord → Prop).









End NoRepeats.

(** ** Polygons: what [__parse_polygon] returns *)

Section PolygonResult.

Context {coord : Type} (rnd : Z → coord → Z).
Implicit Types (st : OsmData coord) (t : tags) (g : OgrGeometry coord).










End PolygonResult.

(** ** Multilinestrings *)

Section MultiLineStrings.

Context {coord : Type} (rnd : Z → coord → Z).
Implicit Types (st : OsmData coord) (t : tags) (g : OgrGeometry coord).



End MultiLineStrings.

(** ** One step of the splitter, phase by phase *)

Section SplitPhases.

Context {coord : Type}.
Implicit Types (st : OsmData coord) (way w : Z).

#[local] Existing Instance nodes_kept_refl.
#[local] Existing Instance nodes_kept_trans.

(** With the ways to assign all different, each takes the nodes that are
    paired with it. *)
Lemma assign_heap_at (parts : list (Z * list Z)) (h : gmap Z OsmWay) j w ns :
  NoDup parts.*1 → parts !! j = Some (w, ns) →
  foldl (λ h part, alter (renode part.2) part.1 h) h parts !! w
  = renode ns <$> (h !! w).
Proof.
  revert h j. induction parts as [|part parts IH]; intros h j Hnodup Hj; [done|].
  rewrite fmap_cons in Hnodup. apply NoDup_cons in Hnodup as [Hnotin Hnodup].
  simpl. destruct j as [|j]; simpl in Hj.
  - injection Hj as ->. simpl in *.
    rewrite assign_heap_other by done. by rewrite lookup_alter_eq.
  - rewrite (IH _ j) by done. rewrite lookup_alter_ne; [done|].
    intros Heq. apply Hnotin. rewrite Heq.
    apply list_elem_of_fmap. exists (w, ns). split; [done|].
    by eapply list_elem_of_lookup_2.
Qed.

(** The three phases of [split_long_ways] on a way that is too long:
    the new ways are made, the chunks are assigned, and the parts join the
    relations of the way. *)
Lemma split_long_way_run way st :
  ways_wf st → way ∈ ways st →
  (2 ≤ max_points_in_way st)%Z → too_long st way →
  let chunks := split_chunks (Z.to_nat (max_points_in_way st)) (way_nodes st way) in
  let created := fresh_ids (id_counter st) (id_incr st) (length chunks - 1) in
  ∃ s1 s2 s3,
    create_ways (way_tags st way) (length chunks - 1) st = Returns created s1
    ∧ for_each (zip (way :: created) chunks) (assign_chunk way) s1 = Returns tt s2
    ∧ for_each (get_parents s2 (EWay way)) (split_in_parent (way :: created)) s2
      = Returns tt s3
    ∧ split_long_way way st = Returns tt s3
    ∧ length (way :: created) = length chunks
    ∧ NoDup (way :: created)
    ∧ (∀ w, w ∈ ways st → w ∉ created)
    ∧ (∀ w, w ∉ created → heap_ways s1 !! w = heap_ways st !! w)
    ∧ (∀ w, w ∈ created →
         heap_ways s1 !! w
         = Some {| w_tags := way_tags st way; w_nodes := []; w_parents := [] |})
    ∧ heap_ways s2
      = foldl (λ h part, alter (renode part.2) part.1 h) (heap_ways s1)
              (zip (way :: created) chunks)
    ∧ ways s2 = ways st ++ created
    ∧ nodes_kept s2 s3
    ∧ Forall is_relation (get_parents s2 (EWay way))
    ∧ get_parents s2 (EWay way) = get_parents st (EWay way).
Proof.
  intros (Hnodup & Hincr & Hall) Hway Hlimit Hlong chunks created.
  rewrite Forall_forall in Hall.
  set (limit := Z.to_nat (max_points_in_way st)) in *.
  assert (Hlimit' : 2 ≤ limit) by (unfold limit; lia).
  assert (Hne : way_nodes st way ≠ []).
  { intros Hnil. unfold too_long in Hlong. rewrite Hnil in Hlong. simpl in Hlong. lia. }
  destruct (split_chunks_head limit (way_nodes st way) Hlimit' Hne) as [rest Hhead].
  assert (Hpos : 1 ≤ length chunks).
  { unfold chunks. rewrite Hhead. simpl. lia. }
  destruct (create_ways_spec (way_tags st way) (length chunks - 1) st)
    as (s1 & Hrun1 & Hways1 & Hc1 & Hi1 & Hl1 & Hother1 & Hfresh1).
  fold created in Hrun1, Hother1, Hfresh1.
  assert (Hlen_created : length created = length chunks - 1)
    by apply length_fresh_ids.
  assert (Hnot_given : ∀ w, w ∈ ways st → w ∉ created).
  { intros w Hw. apply fresh_ids_not_given; [done|]. by apply Hall. }
  destruct (assign_chunks_spec way (zip (way :: created) chunks) s1)
    as (s2 & Hrun2 & Hways2 & Hheap2 & Hc2 & Hi2 & Hl2).
  assert (Hfst : (zip (way :: created) chunks).*1 = way :: created).
  { apply fst_zip. simpl. lia. }
  rewrite Hfst in Hways2.
  rewrite filter_cons_False in Hways2 by (by intros Hn; apply Hn).
  rewrite filter_all in Hways2.
  2:{ apply Forall_forall. intros w Hw ->. by apply (Hnot_given way). }
  assert (Hparents2 : ∀ w, get_parents s2 (EWay w) = get_parents s1 (EWay w)).
  { intros w. simpl. apply from_option_fmap_eq.
    rewrite Hheap2. apply assign_heap_parents. }
  assert (Hparents_way : get_parents s2 (EWay way) = get_parents st (EWay way)).
  { rewrite Hparents2. simpl. rewrite Hother1; [done|]. by apply Hnot_given. }
  assert (Hrels : Forall is_relation (get_parents s2 (EWay way))).
  { rewrite Hparents_way. by apply (Hall way Hway). }
  assert (Hloop : ∃ s3,
    for_each (get_parents s2 (EWay way)) (split_in_parent (way :: created)) s2
    = Returns tt s3 ∧ nodes_kept s2 s3).
  { apply (for_each_preserves nodes_kept).
    intros rel s Hrel. apply split_in_parent_kept; [|done].
    rewrite Forall_forall in Hrels. by apply Hrels. }
  destruct Hloop as (s3 & Hrun3 & Hkept3).
  exists s1, s2, s3. split; [done|]. split; [done|]. split; [done|]. split.
  { unfold split_long_way, split_way, bind, gets.
    destruct (Z.eqb_spec (max_points_in_way st - 1) 0); [lia|].
    destruct (Z.ltb_spec (max_points_in_way st - 1) 0); [lia|].
    fold limit. fold chunks. fold created. rewrite Hrun1.
    rewrite Hrun2. unfold ret. exact Hrun3. }
  split; [simpl; lia|]. split.
  { apply NoDup_cons. split; [by apply Hnot_given|by apply fresh_ids_NoDup]. }
  split; [done|]. split; [done|]. split; [done|]. split; [done|].
  split; [by rewrite Hways2, Hways1|]. by split.
Qed.

End SplitPhases.

Section SplitParts.

Context {coord : Type}.
Implicit Types (st : OsmData coord) (way w : Z).

(** The relations of a way take its parts in without touching the tags
    of any way. *)
Lemma keeps_tags_split_in_parent (T : Z → option tags) way_parts rel :
  keeps (λ st : OsmData coord, ∀ w, w_tags <$> (heap_ways st !! w) = T w)
        (split_in_parent way_parts rel).
Proof.
  unfold split_in_parent, split_way_in_relation, add_way_part, addparent,
    update_parents, append_member.
  repeat first
    [ keeps_step
    | apply keeps_modify; intros st Htags; first [exact Htags|idtac] ].
  intros w. simpl. rewrite <- Htags, lookup_alter.
  case_decide as Heq; [subst w|done]. by destruct (heap_ways st !! _).
Qed.

Lemma split_long_way_effect way st :
  ways_wf st → way ∈ ways st →
  (2 ≤ max_points_in_way st)%Z → too_long st way →
  ∃ st' created,
    split_long_way way st = Returns tt st'
    ∧ ways st' = ways st ++ created
    ∧ Forall2 (λ part chunk, way_nodes st' part = chunk
                             ∧ way_tags st' part = way_tags st way)
        (way :: created)
        (split_chunks (Z.to_nat (max_points_in_way st)) (way_nodes st way))
    ∧ join_chunks (way_nodes st' <$> way :: created) = way_nodes st way.
Proof.
  intros Hwf Hway Hlimit Hlong.
  destruct (split_long_way_run way st Hwf Hway Hlimit Hlong)
    as (s1 & s2 & s3 & Hrun1 & Hrun2 & Hrun3 & Hrun & Hlen & Hnodup & Hnot_given
        & Hother1 & Hfresh1 & Hheap2 & Hways2 & Hkept3 & Hrels & Hparents).
  set (chunks := split_chunks (Z.to_nat (max_points_in_way st)) (way_nodes st way)) in *.
  set (created := fresh_ids (id_counter st) (id_incr st) (length chunks - 1)) in *.
  destruct Hkept3 as (Hw3 & _ & _ & _ & Hn3 & _).
  assert (Hway_heap : is_Some (heap_ways st !! way)).
  { unfold too_long, way_nodes in Hlong.
    destruct (heap_ways st !! way); [by eexists|simpl in Hlong; lia]. }
  assert (Htags3 : ∀ w, w_tags <$> (heap_ways s3 !! w) = w_tags <$> (heap_ways s2 !! w)).
  { eapply (keeps_for_each
              (λ s : OsmData coord, ∀ w, w_tags <$> (heap_ways s !! w)
                                         = w_tags <$> (heap_ways s2 !! w)));
      [|by intros w|exact Hrun3].
    intros rel _. apply keeps_tags_split_in_parent. }
  assert (Hparts : Forall2 (λ part chunk, way_nodes s3 part = chunk
                              ∧ way_tags s3 part = way_tags st way)
                     (way :: created) chunks).
  { apply Forall2_same_length_lookup. split; [done|].
    intros j part chunk Hpart Hchunk.
    assert (Hzip : zip (way :: created) chunks !! j = Some (part, chunk)).
    { apply lookup_zip_with_Some. by exists part, chunk. }
    assert (Hfst : (zip (way :: created) chunks).*1 = way :: created).
    { apply fst_zip. lia. }
    pose proof (assign_heap_at (zip (way :: created) chunks) (heap_ways s1)
                  j part chunk) as Hat.
    rewrite Hfst, <- Hheap2 in Hat. specialize (Hat Hnodup Hzip).
    assert (Hs1 : ∃ o, heap_ways s1 !! part = Some o ∧ w_tags o = way_tags st way).
    { destruct j as [|j]; simpl in Hpart.
      - injection Hpart as <-.
        rewrite Hother1 by (by apply Hnot_given).
        destruct Hway_heap as [o Ho]. exists o. split; [done|].
        unfold way_tags. by rewrite Ho.
      - rewrite Hfresh1 by (by eapply list_elem_of_lookup_2). by eexists. }
    destruct Hs1 as (o & Ho & Htag). rewrite Ho in Hat. simpl in Hat.
    split.
    - rewrite Hn3. unfold way_nodes. by rewrite Hat.
    - unfold way_tags at 1.
      apply (from_option_fmap_eq w_tags ∅ _ (heap_ways s2 !! part)) in Htags3 as ->.
      by rewrite Hat. }
  exists s3, created. split; [done|]. split; [by rewrite Hw3|]. split; [done|].
  replace (way_nodes s3 <$> way :: created) with chunks.
  - apply join_split_chunks. lia.
  - symmetry. apply list_eq_same_length with (length chunks); [done| |].
    + by rewrite length_fmap.
    + intros j a b Hj. rewrite list_lookup_fmap. intros Ha Hb.
      destruct ((way :: created) !! j) as [part|] eqn:Hpart; [|done].
      simpl in Ha. injection Ha as <-.
      by destruct (Forall2_lookup_lr _ _ _ _ _ _ Hparts Hpart Hb) as [-> _].
Qed.

(** One step of the splitter, in full: the parts are the way itself
    followed by the new ways, which are appended to the list of ways; they
    take the chunks of the node sequence in order and the tags of the
    way; joined, they give the node sequence back. *)
Theorem split_long_way_parts way st :
  ways_wf st → way ∈ ways st →
  (2 ≤ max_points_in_way st)%Z → too_long st way →
  ∃ st' created,
    split_long_way way st = Returns tt st'
    ∧ ways st' = ways st ++ created
    ∧ Forall2 (λ part chunk, way_nodes st' part = chunk
                             ∧ way_tags st' part = way_tags st way)
        (way :: created)
        (split_chunks (Z.to_nat (max_points_in_way st)) (way_nodes st way))
    ∧ join_chunks (way_nodes st' <$> way :: created) = way_nodes st way.
Proof. apply split_long_way_effect. Qed.

End SplitParts.

(** ** What the splitter leaves alone *)

Section SplitFrame.

Context {coord : Type}.
Implicit Types (st : OsmData coord) (way w : Z).

Lemma split_frame_refl st : split_frame st st.
Proof. by repeat split. Qed.

(** An update of the ways alone. *)
Lemma split_frame_ways st0 st st' :
  split_frame st0 st →
  nodes st' = nodes st → unique_node_index st' = unique_node_index st →
  relations st' = relations st → heap_points st' = heap_points st →
  heap_relations st' = heap_relations st →
  split_frame st0 st'.
Proof.
  intros (Hn & Hi & Hr & Hp & Ht) Hn' Hi' Hr' Hp' Ht'.
  unfold split_frame. rewrite Hn', Hi', Hr', Hp', Ht'. done.
Qed.

Lemma split_frame_alter_point st0 st (f : OsmPoint coord → OsmPoint coord) n :
  (∀ p, point_placed (f p) = point_placed p) →
  split_frame st0 st → split_frame st0 (with_heap_points (alter f n) st).
Proof.
  intros Hf (Hn & Hi & Hr & Hp & Ht). split_and!; try done.
  intros m. rewrite <- Hp. simpl. rewrite lookup_alter.
  case_decide as Heq; [subst m|done].
  destruct (heap_points st !! n) as [p|]; [|done]. simpl. by rewrite Hf.
Qed.

Lemma split_frame_alter_relation st0 st (f : OsmRelation → OsmRelation) r :
  (∀ o, r_tags (f o) = r_tags o) →
  split_frame st0 st → split_frame st0 (with_heap_relations (alter f r) st).
Proof.
  intros Hf (Hn & Hi & Hr & Hp & Ht). split_and!; try done.
  intros m. rewrite <- Ht. simpl. rewrite lookup_alter.
  case_decide as Heq; [subst m|done].
  destruct (heap_relations st !! r) as [o|]; [|done]. simpl. by rewrite Hf.
Qed.

Lemma keeps_frame_split_long_way st0 way :
  keeps (split_frame st0) (split_long_way (coord := coord) way).
Proof.
  unfold split_long_way, split_way, create_ways, create_way, new_OsmWay,
    assign_chunk, set_way_nodes, reparent_node, removeparent, addparent,
    update_parents, split_in_parent, split_way_in_relation, add_way_part,
    addparent, update_parents, append_member.
  repeat first
    [ keeps_step
    | apply keeps_new_id; intros st c Hframe; by apply (split_frame_ways st0 st)
    | apply keeps_modify; intros st Hframe;
      first [ by apply (split_frame_ways st0 st)
            | by apply split_frame_alter_point
            | by apply split_frame_alter_relation ] ].
Qed.

(** Whatever the loop of the splitter has done when it returns, it has
    left the nodes and the relations alone. *)
Lemma split_ways_loop_frame st0 fuel : ∀ i st split st',
  split_ways_loop fuel i st = Some (Returns split st') →
  split_frame st0 st → split_frame st0 st'.
Proof.
  induction fuel as [|fuel IH]; intros i st split st' Hrun Hframe; [done|].
  simpl in Hrun. destruct (ways st !! i) as [way|]; [|by injection Hrun as _ <-].
  destruct (max_points_in_way st <? Z.of_nat (length (way_nodes st way)))%Z.
  - destruct (split_long_way way st) as [[] st1|e] eqn:Hstep; [|done].
    destruct (split_ways_loop fuel (S i) st1) as [[rest st2|e]|] eqn:Hrest;
      [|done..].
    injection Hrun as _ <-. eapply IH; [exact Hrest|].
    by eapply (keeps_frame_split_long_way st0 way st).
  - by eapply IH.
Qed.

(** [split_long_ways] touches the ways only: with fuel beyond the
    measure of the store it returns, and the list of nodes, the node
    index, the place and tags of every node, the list of relations and
    the tags of every relation are as they were. *)
Theorem split_long_ways_frame fuel st :
  ways_wf st → split_measure st 0 < fuel →
  ∃ st', split_long_ways fuel st = Some (Returns tt st') ∧ split_frame st st'.
Proof.
  intros Hwf Hfuel. unfold split_long_ways.
  destruct (Z.ltb_spec (max_points_in_way st) 2) as [Hoff|Hon].
  { exists st. split; [done|apply split_frame_refl]. }
  destruct (split_ways_loop_spec fuel 0 st Hwf Hon Hfuel)
    as (st' & Hloop & _).
  { intros w Hw. by apply elem_of_nil in Hw. }
  rewrite Hloop. exists st'. split; [done|].
  eapply split_ways_loop_frame; [exact Hloop|apply split_frame_refl].
Qed.

End SplitFrame.

(** ** The parents of the nodes of a split way *)

Section SplitParents.

Context {coord : Type}.
Implicit Types (st : OsmData coord) (way w : Z).

(** A loop with an invariant that depends on the part of the sequence
    that the loop has been through. *)
Lemma hoare_for_each_prefix {A : Type} (I : list A → OsmData coord → Prop)
    (xs : list A) (body : A → M coord unit) :
  (∀ pre x, hoare (I pre) (body x) (λ _, I (pre ++ [x]))) →
  hoare (I []) (for_each xs body) (λ _, I xs).
Proof.
  intros Hbody.
  assert (Hgen : ∀ pre, hoare (I pre) (for_each xs body) (λ _, I (pre ++ xs))).
  { induction xs as [|x xs IH]; intros pre.
    - rewrite app_nil_r. by apply hoare_ret.
    - simpl. eapply hoare_bind; [apply Hbody|]. intros ?.
      replace (pre ++ x :: xs) with ((pre ++ [x]) ++ xs) by (by rewrite <- app_assoc).
      apply IH. }
  apply (Hgen []).
Qed.

Lemma elem_of_set_add (p q : entity) (s : list entity) :
  q ∈ set_add p s ↔ q ∈ s ∨ q = p.
Proof.
  unfold set_add. case_bool_decide as Hin.
  - split; [by left|]. intros [Hq| ->]; done.
  - rewrite elem_of_app, list_elem_of_singleton. done.
Qed.

Lemma elem_of_set_discard (p q : entity) (s : list entity) :
  q ∈ set_discard p s ↔ q ∈ s ∧ q ≠ p.
Proof. unfold set_discard. rewrite list_elem_of_filter. tauto. Qed.

(** The parents of the nodes after [node.removeparent(way);
    node.addparent(new_way)]. *)
Lemma reparent_node_parents way new_way node st st' m :
  reparent_node way new_way node st = Returns tt st' →
  (is_Some (heap_points st' !! m) ↔ is_Some (heap_points st !! m))
  ∧ ∀ q, q ∈ get_parents st' (EPoint m) ↔
      if decide (m = node)
      then is_Some (heap_points st !! m)
           ∧ ((q ∈ get_parents st (EPoint m) ∧ q ≠ EWay way) ∨ q = EWay new_way)
      else q ∈ get_parents st (EPoint m).
Proof.
  intros [= <-]. simpl. destruct (decide (m = node)) as [->|Hne].
  - rewrite !lookup_alter_eq.
    destruct (heap_points st !! node) as [o|]; simpl.
    + split; [split; by eexists|]. intros q.
      rewrite elem_of_set_add, elem_of_set_discard.
      split; [intros H|intros [_ H]]; [|done].
      split; [by eexists|done].
    + split; [done|]. intros q. split; [by intros ?%elem_of_nil|].
      by intros [[? ?] _].
  - by rewrite !lookup_alter_ne.
Qed.

Lemma hoare_reparent_node way new_way node moved :
  new_way ≠ way →
  hoare (reparented way moved) (reparent_node (coord := coord) way new_way node)
        (λ _, reparented way (moved ++ [(node, new_way)])).
Proof.
  intros Hnew st [] st' Hmoved Hrun n c Hin.
  destruct (reparent_node_parents way new_way node st st' n Hrun) as [Hheap Hparents].
  apply elem_of_app in Hin as [Hin|Hin%list_elem_of_singleton].
  - destruct (Hmoved n c Hin) as (Hc & Hdropped & Hadded). split; [done|].
    split.
    + rewrite Hparents. case_decide; [|done].
      intros [_ [[_ Hway]|Hway]]; [done|]. by injection Hway as ->.
    + intros Hsome. rewrite Hparents. case_decide as Heq; [|by apply Hadded, Hheap].
      split; [by apply Hheap|]. left. split; [by apply Hadded, Hheap|].
      intros [= ->]. done.
  - injection Hin as -> ->. split; [done|]. split.
    + rewrite Hparents. rewrite decide_True by done.
      intros [_ [[_ Hway]|Hway]]; [done|]. by injection Hway as ->.
    + intros Hsome. rewrite Hparents. rewrite decide_True by done.
      split; [by apply Hheap|]. by right.
Qed.

Lemma reparented_same_points way moved st st' :
  heap_points st' = heap_points st → reparented way moved st →
  reparented way moved st'.
Proof. intros Hpoints Hmoved n c Hin. simpl. rewrite Hpoints. by apply Hmoved. Qed.

Lemma hoare_assign_chunk way part moved :
  hoare (reparented way moved) (assign_chunk (coord := coord) way part)
        (λ _, reparented way (moved ++ moved_nodes way [part])).
Proof.
  unfold assign_chunk, moved_nodes, id_of. simpl. rewrite app_nil_r.
  eapply hoare_bind.
  { apply keeps_modify. intros st Hmoved. by apply (reparented_same_points way moved st). }
  intros ?. destruct (Z.eqb_spec part.1 way) as [Heq|Hne]; simpl.
  - rewrite decide_True by done. rewrite app_nil_r. apply keeps_ret.
  - rewrite decide_False by done.
    eapply hoare_bind.
    { apply keeps_modify. intros st Hmoved.
      by apply (reparented_same_points way moved st). }
    intros ?.
    eapply hoare_weaken;
      [apply (hoare_for_each_prefix
                (λ pre, reparented way (moved ++ ((λ n, (n, part.1)) <$> pre))))
      | |].
    + intros pre node. rewrite fmap_app, app_assoc. simpl.
      by apply hoare_reparent_node.
    + intros st Hmoved. simpl. by rewrite app_nil_r.
    + intros ? st Hmoved. exact Hmoved.
Qed.

Lemma hoare_assign_chunks way parts :
  hoare (reparented way []) (for_each parts (assign_chunk (coord := coord) way))
        (λ _, reparented way (moved_nodes way parts)).
Proof.
  apply (hoare_for_each_prefix (λ pre, reparented way (moved_nodes way pre))).
  intros pre part. eapply hoare_weaken; [apply hoare_assign_chunk|done|].
  intros ? st Hmoved. unfold moved_nodes in *.
  by rewrite flat_map_app.
Qed.

(** Making the new ways and taking the parts into the relations leave
    the nodes as they are. *)
Lemma keeps_points_create_ways (H : gmap Z (OsmPoint coord)) t count :
  keeps (λ st, heap_points st = H) (create_ways t count).
Proof.
  unfold create_ways, create_way, new_OsmWay.
  repeat first
    [ keeps_step
    | apply keeps_new_id; by intros st c Hpoints
    | apply keeps_modify; by intros st Hpoints ].
Qed.

Lemma keeps_points_split_in_parent (H : gmap Z (OsmPoint coord)) way_parts rel :
  keeps (λ st, heap_points st = H) (split_in_parent way_parts rel).
Proof.
  unfold split_in_parent, split_way_in_relation, add_way_part, addparent,
    update_parents, append_member.
  repeat first [ keeps_step | apply keeps_modify; by intros st Hpoints ].
Qed.

(** Every node from place [limit - 1] on lies in a chunk other than the
    first. *)
Lemma late_nodes_in_chunks {A : Type} limit (nodes : list A) n :
  2 ≤ limit → n ∈ drop (limit - 1) nodes →
  ∃ j chunk, split_chunks limit nodes !! S j = Some chunk ∧ n ∈ chunk.
Proof.
  intros Hlimit Hn. apply list_elem_of_lookup in Hn as [k Hk].
  rewrite lookup_drop in Hk.
  set (i := limit - 1 + k) in *. set (step := limit - 1).
  assert (Hi : i < length nodes) by (by eapply lookup_lt_Some).
  pose proof (Nat.div_mod_eq i step) as Hdiv.
  pose proof (Nat.mod_upper_bound i step) as Hmod.
  destruct (chunk_count_covers (length nodes) step) as [Hcover _]; [unfold step; lia|].
  assert (Hq : 1 ≤ i / step).
  { apply Nat.div_le_lower_bound; unfold step, i; lia. }
  destruct (i / step) as [|j] eqn:Hj; [lia|].
  exists j, (take limit (drop (S j * step) nodes)). split.
  - rewrite split_chunks_unfold, list_lookup_fmap. fold step.
    rewrite (lookup_seq_lt _ _ (S j)); [done|]. nia.
  - apply list_elem_of_lookup. exists (i mod step).
    rewrite lookup_take_lt by (unfold step in *; lia).
    rewrite lookup_drop. rewrite <- Hk. f_equal. lia.
Qed.

Lemma elem_of_moved_nodes way (parts : list (Z * list Z)) n c :
  (n, c) ∈ moved_nodes way parts ↔
  c ≠ way ∧ ∃ chunk, (c, chunk) ∈ parts ∧ n ∈ chunk.
Proof.
  unfold moved_nodes. rewrite list_elem_of_In, in_flat_map. split.
  - intros ([c' chunk] & Hpart%list_elem_of_In & Hin%list_elem_of_In). simpl in Hin.
    case_decide as Heq; [by apply elem_of_nil in Hin|].
    apply list_elem_of_fmap in Hin as (n' & [= -> ->] & Hn').
    split; [done|]. by exists chunk.
  - intros (Hc & chunk & Hpart & Hn). exists (c, chunk).
    split; [by apply list_elem_of_In|]. apply list_elem_of_In. simpl.
    rewrite decide_False by done. apply list_elem_of_fmap. by exists n.
Qed.

(** After a way is split, none of the nodes of its new parts has it as
    a parent any more, the node at which it now ends included, since the
    second part begins there; and each node of a new part that is on the
    heap has that part as a parent. *)
Theorem split_long_way_reparents way st :
  ways_wf st → way ∈ ways st →
  (2 ≤ max_points_in_way st)%Z → too_long st way →
  ∃ st' created joint,
    split_long_way way st = Returns tt st'
    ∧ ways st' = ways st ++ created
    ∧ last (way_nodes st' way) = Some joint
    ∧ (EWay way ∉ get_parents st' (EPoint joint))
    ∧ (∀ n, n ∈ drop (Z.to_nat (max_points_in_way st) - 1) (way_nodes st way) →
            EWay way ∉ get_parents st' (EPoint n))
    ∧ (∀ part n, part ∈ created → n ∈ way_nodes st' part →
                 is_Some (heap_points st' !! n) →
                 EWay part ∈ get_parents st' (EPoint n)).
Proof.
  intros Hwf Hway Hlimit Hlong.
  destruct (split_long_way_run way st Hwf Hway Hlimit Hlong)
    as (s1 & s2 & s3 & Hrun1 & Hrun2 & Hrun3 & Hrun & Hlen & Hnodup & Hnot_given
        & Hother1 & Hfresh1 & Hheap2 & Hways2 & Hkept3 & Hrels & Hparents).
  destruct (split_long_way_effect way st Hwf Hway Hlimit Hlong)
    as (st' & created' & Hrun' & Hways' & Hparts & _).
  rewrite Hrun in Hrun'. injection Hrun' as <-.
  assert (Hways3 : ways s3 = ways st
            ++ fresh_ids (id_counter st) (id_incr st)
                 (length (split_chunks (Z.to_nat (max_points_in_way st))
                            (way_nodes st way)) - 1)).
  { destruct Hkept3 as [-> _]. exact Hways2. }
  rewrite Hways3 in Hways'. apply app_inv_head in Hways'. subst created'.
  set (limit := Z.to_nat (max_points_in_way st)) in *.
  set (chunks := split_chunks limit (way_nodes st way)) in *.
  set (created := fresh_ids (id_counter st) (id_incr st) (length chunks - 1)) in *.
  assert (Hlimit' : 2 ≤ limit) by (unfold limit; lia).
  (* the nodes of the new parts *)
  assert (Hmoved : reparented way (moved_nodes way (zip (way :: created) chunks)) s3).
  { assert (Hp1 : heap_points s1 = heap_points st).
    { by eapply (keeps_points_create_ways (heap_points st) _ _ st). }
    assert (Hm2 : reparented way (moved_nodes way (zip (way :: created) chunks)) s2).
    { eapply (hoare_assign_chunks way _ s1); [|exact Hrun2].
      intros n c Hin. by apply elem_of_nil in Hin. }
    apply (reparented_same_points way _ s2); [|done].
    eapply (keeps_for_each (λ s : OsmData coord, heap_points s = heap_points s2));
      [|done|exact Hrun3].
    intros rel _. apply keeps_points_split_in_parent. }
  assert (Hin_zip : ∀ j part chunk,
            created !! j = Some part → chunks !! S j = Some chunk →
            (part, chunk) ∈ zip (way :: created) chunks).
  { intros j part chunk Hpart Hchunk.
    apply (list_elem_of_lookup_2 _ (S j)).
    apply lookup_zip_with_Some. by exists part, chunk. }
  assert (Hlate : ∀ n, n ∈ drop (limit - 1) (way_nodes st way) →
            EWay way ∉ get_parents s3 (EPoint n)).
  { intros n Hn.
    destruct (late_nodes_in_chunks limit (way_nodes st way) n Hlimit' Hn)
      as (j & chunk & Hchunk & Hin).
    fold chunks in Hchunk.
    assert (Hj : j < length created).
    { apply lookup_lt_Some in Hchunk. simpl in Hlen. lia. }
    destruct (lookup_lt_is_Some_2 _ _ Hj) as [part Hpart].
    destruct (Hmoved n part) as (_ & Hdropped & _); [|done].
    apply elem_of_moved_nodes. split.
    - intros ->. apply NoDup_cons in Hnodup as [Hnotin _].
      apply Hnotin. by eapply list_elem_of_lookup_2.
    - exists chunk. split; [by eapply Hin_zip|done]. }
  (* the node at which the way now ends *)
  assert (Hhead : way_nodes s3 way = take limit (way_nodes st way)).
  { assert (Hne : way_nodes st way ≠ []).
    { intros Hnil. unfold too_long in Hlong. rewrite Hnil in Hlong.
      simpl in Hlong. lia. }
    destruct (split_chunks_head limit (way_nodes st way) Hlimit' Hne) as [rest Hrest].
    fold chunks in Hrest. rewrite Hrest in Hparts.
    by apply Forall2_cons in Hparts as [[-> _] _]. }
  assert (Hlen_way : limit < length (way_nodes st way)).
  { unfold too_long in Hlong. unfold limit. lia. }
  assert (Hjoint : last (way_nodes s3 way) = way_nodes st way !! (limit - 1)).
  { rewrite Hhead, last_lookup, length_take.
    replace (pred (limit `min` length (way_nodes st way))) with (limit - 1) by lia.
    apply lookup_take_lt. lia. }
  destruct (lookup_lt_is_Some_2 (way_nodes st way) (limit - 1)) as [joint Hj]; [lia|].
  exists s3, created, joint. split; [done|]. split; [exact Hways3|].
  split; [by rewrite Hjoint|]. split.
  { apply Hlate. apply list_elem_of_lookup. exists 0.
    rewrite lookup_drop. by rewrite Nat.add_0_r. }
  split; [exact Hlate|].
  intros part n Hpart Hn Hsome.
  apply list_elem_of_lookup in Hpart as [j Hpart].
  destruct (Forall2_lookup_l _ _ _ (S j) part Hparts Hpart) as (chunk & Hchunk & Hnodes & _).
  destruct (Hmoved n part) as (_ & _ & Hadded); [|by apply Hadded].
  apply elem_of_moved_nodes. split.
  - intros ->. apply NoDup_cons in Hnodup as [Hnotin _].
    apply Hnotin. by eapply list_elem_of_lookup_2.
  - exists chunk. split; [by eapply Hin_zip|]. by rewrite <- Hnodes.
Qed.

End SplitParents.

(** ** The relations of a split way *)

Section SplitRoles.

Context {coord : Type}.
Implicit Types (st s : OsmData coord) (way w r : Z).

Lemma with_members_nil o : with_members [] o = o.
Proof. destruct o. unfold with_members. simpl. by rewrite app_nil_r. Qed.

Lemma with_members_app ms1 ms2 o :
  with_members ms2 (with_members ms1 o) = with_members (ms1 ++ ms2) o.
Proof. unfold with_members. simpl. by rewrite app_assoc. Qed.

Lemma alter_with_members ms1 ms2 r (h : gmap Z OsmRelation) :
  alter (with_members ms2) r (alter (with_members ms1) r h)
  = alter (with_members (ms1 ++ ms2)) r h.
Proof.
  apply map_eq. intros k. destruct (decide (k = r)) as [->|Hne].
  - rewrite !lookup_alter_eq. destruct (h !! r); [|done]. simpl.
    by rewrite with_members_app.
  - by rewrite !lookup_alter_ne.
Qed.

(** What [__split_way_in_relation] does to the relation, and to the
    parents of the parts. *)
Lemma add_way_parts_effect r role parts : ∀ s s',
  for_each parts (add_way_part r role) s = Returns tt s' →
  heap_relations s'
  = alter (with_members ((λ part, (EWay part, role)) <$> parts)) r (heap_relations s)
  ∧ ∀ w, heap_ways s' !! w
         = (if decide (w ∈ parts)
            then (λ o, {| w_tags := w_tags o; w_nodes := w_nodes o;
                          w_parents := set_add (ERelation r) (w_parents o) |})
            else id) <$> (heap_ways s !! w).
Proof.
  induction parts as [|part parts IH]; intros s s' Hrun.
  - injection Hrun as <-. split.
    + apply map_eq. intros k. destruct (decide (k = r)) as [->|Hne].
      * rewrite lookup_alter_eq. destruct (heap_relations s !! r); [|done].
        simpl. by rewrite with_members_nil.
      * by rewrite lookup_alter_ne.
    + intros w. rewrite decide_False by (by intros ?%elem_of_nil).
      by destruct (heap_ways s !! w).
  - simpl in Hrun. unfold bind at 1 in Hrun.
    change (add_way_part r role part s)
      with (Returns tt
              (with_heap_relations (alter (with_members [(EWay part, role)]) r)
                 (with_heap_ways
                    (alter (λ o, {| w_tags := w_tags o; w_nodes := w_nodes o;
                                    w_parents := set_add (ERelation r) (w_parents o) |})
                       part) s))) in Hrun.
    destruct (IH _ _ Hrun) as [Hrels Hways]. simpl in Hrels, Hways. split.
    + rewrite Hrels. by rewrite alter_with_members.
    + intros w. rewrite Hways.
      destruct (decide (w = part)) as [->|Hne].
      * rewrite lookup_alter_eq. rewrite (decide_True _ _ (list_elem_of_here _ _)).
        destruct (heap_ways s !! part) as [o|]; [|by case_decide].
        simpl. case_decide as Hin; simpl; [|done].
        f_equal. f_equal. unfold set_add at 1. simpl.
        rewrite bool_decide_eq_true_2; [done|].
        apply elem_of_set_add. by right.
      * rewrite lookup_alter_ne by done.
        destruct (decide (w ∈ parts)) as [Hin|Hnotin].
        -- rewrite decide_True by (by apply list_elem_of_further). done.
        -- rewrite decide_False; [done|].
           intros [->|Hin]%elem_of_cons; done.
Qed.

Lemma foldl_set_add_NoDup (ps parents : list entity) :
  NoDup (ps ++ parents) →
  foldl (λ acc p, set_add p acc) ps parents = ps ++ parents.
Proof.
  revert ps. induction parents as [|p parents IH]; intros ps Hnodup; simpl.
  - by rewrite app_nil_r.
  - assert (Hp : p ∉ ps).
    { apply NoDup_app in Hnodup as (_ & Hapart & _). intros Hin.
      apply (Hapart p Hin), list_elem_of_here. }
    unfold set_add at 2. rewrite bool_decide_eq_false_2 by done.
    rewrite IH; [by rewrite <- app_assoc|]. by rewrite <- app_assoc.
Qed.

(** The loop of [split_long_ways] over the relations of a way that was
    split: each relation takes the new parts in, under the role that the
    way has in it, and becomes a parent of each. *)
Lemma split_in_parents_effect way created : ∀ (parents : list entity) s s',
  Forall is_relation parents → NoDup parents →
  for_each parents (split_in_parent (way :: created)) s = Returns tt s' →
  (∀ r, heap_relations s' !! r
        = (if decide (ERelation r ∈ parents)
           then with_members (part_members s r way created) else id)
          <$> (heap_relations s !! r))
  ∧ (∀ w, heap_ways s' !! w
          = (if decide (w ∈ created)
             then (λ o, {| w_tags := w_tags o; w_nodes := w_nodes o;
                           w_parents := foldl (λ acc p, set_add p acc)
                                              (w_parents o) parents |})
             else id) <$> (heap_ways s !! w)).
Proof.
  induction parents as [|p parents IH]; intros s s' Hrels Hnodup Hrun.
  - injection Hrun as <-. split.
    + intros r. rewrite decide_False by (by intros ?%elem_of_nil).
      by destruct (heap_relations s !! r).
    + intros w. destruct (heap_ways s !! w) as [[]|]; by case_decide.
  - apply Forall_cons in Hrels as [Hp Hrels].
    apply NoDup_cons in Hnodup as [Hnotin Hnodup].
    destruct p as [| |r0]; [done..|].
    simpl in Hrun. unfold bind at 1 in Hrun.
    change (bind (gets (λ st, get_member_role st r0 (EWay way)))
              (λ way_role, for_each created (add_way_part r0 way_role)) s)
      with (for_each created
              (add_way_part r0 (get_member_role s r0 (EWay way))) s) in Hrun.
    destruct (for_each created (add_way_part r0 (get_member_role s r0 (EWay way))) s)
      as [[] s1|e] eqn:Hstep; [|done].
    destruct (add_way_parts_effect _ _ _ _ _ Hstep) as [Hrels1 Hways1].
    destruct (IH s1 s' Hrels Hnodup Hrun) as [Hrels' Hways']. split.
    + intros r. rewrite Hrels', Hrels1.
      destruct (decide (r = r0)) as [->|Hne].
      * rewrite decide_False by done.
        rewrite (decide_True _ _ (list_elem_of_here _ _)).
        rewrite lookup_alter_eq. by destruct (heap_relations s !! r0).
      * rewrite lookup_alter_ne by done.
        assert (Hrole : part_members s1 r way created = part_members s r way created).
        { unfold part_members, get_member_role, relation_members.
          by rewrite Hrels1, lookup_alter_ne. }
        rewrite Hrole.
        destruct (decide (ERelation r ∈ parents)) as [Hin|Hout].
        -- by rewrite (decide_True _ _ (list_elem_of_further _ _ _ Hin)).
        -- rewrite decide_False; [done|].
           intros [[= ->]|Hin]%elem_of_cons; done.
    + intros w. rewrite Hways', Hways1.
      destruct (heap_ways s !! w) as [o|]; [|by repeat case_decide].
      by case_decide.
Qed.

Lemma keeps_relations_create_ways (H : gmap Z OsmRelation) t count :
  keeps (λ st : OsmData coord, heap_relations st = H) (create_ways t count).
Proof.
  unfold create_ways, create_way, new_OsmWay.
  repeat first
    [ keeps_step
    | apply keeps_new_id; by intros st c Hrels
    | apply keeps_modify; by intros st Hrels ].
Qed.

Lemma keeps_relations_assign_chunk (H : gmap Z OsmRelation) way part :
  keeps (λ st : OsmData coord, heap_relations st = H) (assign_chunk way part).
Proof.
  unfold assign_chunk, set_way_nodes, reparent_node, removeparent, addparent,
    update_parents.
  repeat first [ keeps_step | apply keeps_modify; by intros st Hrels ].
Qed.

(** Splitting a way keeps it in its relations, parts and all: every
    relation that is a parent of the way takes the new parts in as
    members, after the members it has, in order and under the role of
    the way; the other relations stay as they are; and each new part has
    the parents of the way. *)
Theorem split_long_way_roles way st :
  ways_wf st → way ∈ ways st →
  (2 ≤ max_points_in_way st)%Z → too_long st way →
  NoDup (get_parents st (EWay way)) →
  ∃ st' created,
    split_long_way way st = Returns tt st'
    ∧ ways st' = ways st ++ created
    ∧ relations st' = relations st
    ∧ (∀ r, heap_relations st' !! r
            = (if decide (ERelation r ∈ get_parents st (EWay way))
               then with_members (part_members st r way created) else id)
              <$> (heap_relations st !! r))
    ∧ (∀ part, part ∈ created →
               get_parents st' (EWay part) = get_parents st (EWay way)).
Proof.
  intros Hwf Hway Hlimit Hlong Hset.
  destruct (split_long_way_run way st Hwf Hway Hlimit Hlong)
    as (s1 & s2 & s3 & Hrun1 & Hrun2 & Hrun3 & Hrun & Hlen & Hnodup & Hnot_given
        & Hother1 & Hfresh1 & Hheap2 & Hways2 & Hkept3 & Hrels & Hparents).
  set (chunks := split_chunks (Z.to_nat (max_points_in_way st)) (way_nodes st way)) in *.
  set (created := fresh_ids (id_counter st) (id_incr st) (length chunks - 1)) in *.
  assert (Hr1 : heap_relations s1 = heap_relations st).
  { by eapply (keeps_relations_create_ways (heap_relations st) _ _ st). }
  assert (Hr2 : heap_relations s2 = heap_relations st).
  { eapply (keeps_for_each (λ s : OsmData coord, heap_relations s = heap_relations st));
      [|exact Hr1|exact Hrun2].
    intros part _. apply keeps_relations_assign_chunk. }
  rewrite Hparents in Hrun3, Hrels.
  destruct (split_in_parents_effect way created _ s2 s3 Hrels Hset Hrun3)
    as [Hrels3 Hways3].
  exists s3, created. split; [done|]. split.
  { destruct Hkept3 as [-> _]. exact Hways2. }
  split.
  { by destruct (keeps_frame_split_long_way st way st tt s3 (split_frame_refl st) Hrun)
      as (_ & _ & Hrel & _). }
  split.
  - intros r. rewrite Hrels3, Hr2.
    replace (part_members s2 r way created) with (part_members st r way created);
      [done|].
    unfold part_members, get_member_role, relation_members. by rewrite Hr2.
  - intros part Hpart. simpl. rewrite Hways3, decide_True by done.
    assert (Hzip : (zip (way :: created) chunks).*1 = way :: created).
    { apply fst_zip. lia. }
    assert (Hblank : w_parents <$> (heap_ways s2 !! part) = Some []).
    { rewrite Hheap2, assign_heap_parents. by rewrite Hfresh1. }
    destruct (heap_ways s2 !! part) as [o|]; [|done]. simpl in *.
    injection Hblank as ->. by rewrite (foldl_set_add_NoDup []).
Qed.

End SplitRoles.

(** ** Interning, whatever the policy *)

Section Indexed.

Context {coord : Type} (rnd : Z → coord → Z).
Implicit Types (st : OsmData coord) (t : tags).


End Indexed.

(** ** Parsing, then splitting *)

Section ParseThenSplit.

Context {coord : Type} (rnd : Z → coord → Z) (zero : coord).
Implicit Types (st : OsmData coord) (t : tags) (g : OgrGeometry coord).


End ParseThenSplit.

(** ** The properties on sample stores and geometries *)



(** The ring [2;3;1;2] is brought to [1;2;3;1] by a rotation. *)
Lemma get_ordered_nodes_rotation_witness :
  is_closed id_of [2; 3; 1; 2]%Z = true
  ∧ ∃ k, k < length [2; 3; 1; 2]%Z - 1
      ∧ get_ordered_nodes id_of [2; 3; 1; 2]%Z = ring_rotate k [2; 3; 1; 2]%Z.
Proof.
  split; [reflexivity|].
  apply (get_ordered_nodes_rotation [2; 3; 1; 2]%Z). reflexivity.
Defined.

(** The way [3;1;2;3] is reported for the new sequence [2;3;1;2]. *)
Lemma verify_duplicate_ways_sound_witness :
  (10%Z, "way"%string)
    ∈ verify_duplicate_ways (store_with_way 10 [3; 1; 2; 3]%Z) [10%Z] [2; 3; 1; 2]%Z
  ∧ (10%Z ∈ [10%Z]
     ∧ length (way_nodes (store_with_way 10 [3; 1; 2; 3]%Z) 10) = length [2; 3; 1; 2]%Z
     ∧ (("way"%string = "way"%string
         ∧ same_cycle (way_nodes (store_with_way 10 [3; 1; 2; 3]%Z) 10) [2; 3; 1; 2]%Z)
        ∨ ("way"%string = "reverse_way"%string
           ∧ same_cycle (way_nodes (store_with_way 10 [3; 1; 2; 3]%Z) 10)
                        (reverse [2; 3; 1; 2]%Z)))).
Proof.
  assert (Hin : (10%Z, "way"%string)
    ∈ verify_duplicate_ways (store_with_way 10 [3; 1; 2; 3]%Z) [10%Z] [2; 3; 1; 2]%Z)
    by exact (list_elem_of_here (10%Z, "way"%string) []).
  split; [exact Hin|].
  exact (verify_duplicate_ways_sound (store_with_way 10 [3; 1; 2; 3]%Z)
           [10%Z] [2; 3; 1; 2]%Z 10%Z "way"%string Hin).
Defined.

(** Five nodes under a limit of three. *)
Lemma split_chunks_join_witness :
  2 ≤ 3 ∧ join_chunks (split_chunks 3 [1; 2; 3; 4; 5]%Z) = [1; 2; 3; 4; 5]%Z.
Proof. split; [lia|]. apply (split_chunks_join 3 [1; 2; 3; 4; 5]%Z). lia. Defined.

Lemma split_chunks_overlap_witness :
  (2 ≤ 3
   ∧ split_chunks 3 [1; 2; 3; 4; 5]%Z !! 0 = Some [1; 2; 3]%Z
   ∧ split_chunks 3 [1; 2; 3; 4; 5]%Z !! 1 = Some [3; 4; 5]%Z)
  ∧ length [1; 2; 3]%Z = 3
  ∧ is_Some (last [1; 2; 3]%Z)
  ∧ last [1; 2; 3]%Z = head [3; 4; 5]%Z.
Proof.
  split; [split; [lia|split; reflexivity]|].
  apply (split_chunks_overlap 3 [1; 2; 3; 4; 5]%Z 0 [1; 2; 3]%Z [3; 4; 5]%Z);
    [lia|reflexivity|reflexivity].
Defined.



(** The nodes of that way as the model computes them: two, not three. *)
Example parse_linestring_drops_repeated_point :
  (λ o, match o with
        | Returns way st' => Some (way_nodes st' way)
        | Raises _ => None
        end)
    (parse_linestring round_Z
       (linestring_Z wkbLineString [(0, 0); (0, 0); (100, 0)]%Z) ∅
       (empty_store always_merge 1800))
  = Some [-1; -2]%Z.
Proof. reflexivity. Qed.




Example parse_geometry_collection_raises :
  raises_AttributeError collection_of_a_point = true
  ∧ parse_geometry round_Z 0%Z collection_of_a_point ∅
      (empty_store never_merge 1800)
    = Raises "AttributeError"%string.
Proof. split; reflexivity. Qed.


Lemma long_ring_store_way : (-4)%Z ∈ ways long_ring_store.
Proof. exact (list_elem_of_here (-4)%Z []). Qed.

Lemma long_ring_store_limit : (2 ≤ max_points_in_way long_ring_store)%Z.
Proof. by vm_compute. Qed.

Lemma long_ring_store_too_long : too_long long_ring_store (-4).
Proof. by vm_compute. Qed.

Lemma long_ring_store_parents : NoDup (get_parents long_ring_store (EWay (-4))).
Proof. exact (NoDup_singleton (ERelation (-5))). Qed.

(** The way of three nodes under a limit of two, split. *)
Lemma split_long_way_parts_witness :
  (ways_wf long_ring_store ∧ (-4)%Z ∈ ways long_ring_store
   ∧ (2 ≤ max_points_in_way long_ring_store)%Z ∧ too_long long_ring_store (-4))
  ∧ ∃ st' created,
      split_long_way (-4) long_ring_store = Returns tt st'
      ∧ ways st' = ways long_ring_store ++ created
      ∧ Forall2 (λ part chunk, way_nodes st' part = chunk
                               ∧ way_tags st' part = way_tags long_ring_store (-4))
          ((-4)%Z :: created)
          (split_chunks (Z.to_nat (max_points_in_way long_ring_store))
             (way_nodes long_ring_store (-4)))
      ∧ join_chunks (way_nodes st' <$> (-4)%Z :: created)
        = way_nodes long_ring_store (-4).
Proof.
  split.
  - split; [apply long_ring_store_wf|]. split; [apply long_ring_store_way|].
    split; [apply long_ring_store_limit|apply long_ring_store_too_long].
  - exact (split_long_way_parts (-4) long_ring_store long_ring_store_wf
             long_ring_store_way long_ring_store_limit long_ring_store_too_long).
Defined.

Lemma split_long_way_roles_witness :
  (ways_wf long_ring_store ∧ (-4)%Z ∈ ways long_ring_store
   ∧ (2 ≤ max_points_in_way long_ring_store)%Z ∧ too_long long_ring_store (-4)
   ∧ NoDup (get_parents long_ring_store (EWay (-4))))
  ∧ ∃ st' created,
      split_long_way (-4) long_ring_store = Returns tt st'
      ∧ ways st' = ways long_ring_store ++ created
      ∧ relations st' = relations long_ring_store
      ∧ (∀ r, heap_relations st' !! r
              = (if decide (ERelation r ∈ get_parents long_ring_store (EWay (-4)))
                 then with_members (part_members long_ring_store r (-4) created)
                 else id)
                <$> (heap_relations long_ring_store !! r))
      ∧ (∀ part, part ∈ created →
                 get_parents st' (EWay part)
                 = get_parents long_ring_store (EWay (-4))).
Proof.
  split.
  - split; [apply long_ring_store_wf|]. split; [apply long_ring_store_way|].
    split; [apply long_ring_store_limit|].
    split; [apply long_ring_store_too_long|apply long_ring_store_parents].
  - exact (split_long_way_roles (-4) long_ring_store long_ring_store_wf
             long_ring_store_way long_ring_store_limit long_ring_store_too_long
             long_ring_store_parents).
Defined.

Lemma split_long_way_reparents_witness :
  (ways_wf long_ring_store ∧ (-4)%Z ∈ ways long_ring_store
   ∧ (2 ≤ max_points_in_way long_ring_store)%Z ∧ too_long long_ring_store (-4))
  ∧ ∃ st' created joint,
      split_long_way (-4) long_ring_store = Returns tt st'
      ∧ ways st' = ways long_ring_store ++ created
      ∧ last (way_nodes st' (-4)) = Some joint
      ∧ (EWay (-4) ∉ get_parents st' (EPoint joint))
      ∧ (∀ n, n ∈ drop (Z.to_nat (max_points_in_way long_ring_store) - 1)
                    (way_nodes long_ring_store (-4)) →
              EWay (-4) ∉ get_parents st' (EPoint n))
      ∧ (∀ part n, part ∈ created → n ∈ way_nodes st' part →
                   is_Some (heap_points st' !! n) →
                   EWay part ∈ get_parents st' (EPoint n)).
Proof.
  split.
  - split; [apply long_ring_store_wf|]. split; [apply long_ring_store_way|].
    split; [apply long_ring_store_limit|apply long_ring_store_too_long].
  - exact (split_long_way_reparents (-4) long_ring_store long_ring_store_wf
             long_ring_store_way long_ring_store_limit long_ring_store_too_long).
Defined.

(** The parents of the three nodes after the split, as the model
    computes them: the way -4 is left with the nodes -1 and -2, and only
    -1 has it as a parent. *)
Example split_long_way_parents_of_nodes :
  (λ o, match o with
        | Returns _ st' =>
            Some (way_nodes st' (-4), get_parents st' (EPoint (-1)),
                  get_parents st' (EPoint (-2)), get_parents st' (EPoint (-3)))
        | Raises _ => None
        end)
    (split_long_way (-4) long_ring_store)
  = Some ([-1; -2]%Z, [EWay (-4)], [EWay (-6)], [EWay (-6); EWay (-7)]).
Proof. by vm_compute. Qed.

Lemma split_long_ways_frame_witness :
  (ways_wf long_ring_store ∧ split_measure long_ring_store 0 < 10)
  ∧ ∃ st', split_long_ways 10 long_ring_store = Some (Returns tt st')
      ∧ split_frame long_ring_store st'.
Proof.
  assert (Hfuel : split_measure long_ring_store 0 < 10) by (vm_compute; lia).
  split; [by split; [apply long_ring_store_wf|]|].
  exact (split_long_ways_frame 10 long_ring_store long_ring_store_wf Hfuel).
Defined.


(** ** Linestrings: the back-references from nodes to ways *)

Section WayLinks.

Context {coord : Type} (rnd : Z → coord → Z).
Implicit Types (st : OsmData coord) (t : tags).









End WayLinks.




(** ** Linestrings: the same line parsed twice *)

Section ParsedTwice.

Context {coord : Type} (rnd : Z → coord → Z).
Implicit Types (st : OsmData coord) (t : tags).















(** A linestring without points is never recognised again: every time it
    is parsed, whatever the policy and whatever the store holds,
    [__parse_linestring] lists a new way without nodes. *)
Theorem parse_linestring_empty_twice g t st :
  GetPoints g = [] → id_incr st ≠ 0%Z →
  ∃ way1 st1 way2 st2,
    parse_linestring rnd g t st = Returns way1 st1
    ∧ parse_linestring rnd g t st1 = Returns way2 st2
    ∧ way1 ≠ way2
    ∧ ways st2 = ways st ++ [way1; way2]
    ∧ way_nodes st2 way1 = [] ∧ way_nodes st2 way2 = []
    ∧ nodes st2 = nodes st.
Proof.
  intros Hpoints Hincr. unfold parse_linestring. rewrite Hpoints.
  unfold add_way, new_OsmWay, new_id, bind, modify, set_way_nodes, gets, ret. simpl.
  eexists _, _, _, _. split; [reflexivity|]. split; [reflexivity|]. simpl.
  split; [lia|]. split; [by rewrite <- app_assoc|].
  unfold way_nodes. simpl. split; [|split; [|done]].
  - rewrite lookup_alter_ne, lookup_insert_ne by lia.
    by rewrite lookup_alter_eq, lookup_insert_eq.
  - by rewrite lookup_alter_eq, lookup_insert_eq.
Qed.

End ParsedTwice.




(** A line without points, parsed twice into the empty store. *)
Lemma parse_linestring_empty_twice_witness :
  (GetPoints (linestring_Z wkbLineString []) = []
   ∧ id_incr (empty_store always_merge 1800) ≠ 0%Z)
  ∧ ∃ way1 st1 way2 st2,
      parse_linestring round_Z (linestring_Z wkbLineString []) ∅
        (empty_store always_merge 1800) = Returns way1 st1
      ∧ parse_linestring round_Z (linestring_Z wkbLineString []) ∅ st1
        = Returns way2 st2
      ∧ way1 ≠ way2
      ∧ ways st2 = ways (empty_store always_merge 1800) ++ [way1; way2]
      ∧ way_nodes st2 way1 = [] ∧ way_nodes st2 way2 = []
      ∧ nodes st2 = nodes (empty_store always_merge 1800).
Proof.
  split.
  - split; [reflexivity|discriminate].
  - apply (parse_linestring_empty_twice round_Z (linestring_Z wkbLineString []) ∅
             (empty_store always_merge 1800)).
    + reflexivity.
    + discriminate.
Defined.

(** ** The splitter run again *)

Section SplitAgain.

Context {coord : Type}.
Implicit Types (st : OsmData coord) (way w : Z).

(** Where no listed way is too long the loop walks the list and changes
    nothing. *)
Lemma split_ways_loop_settled fuel : ∀ i st,
  (∀ w, w ∈ ways st → ¬ too_long st w) →
  length (ways st) - i < fuel →
  split_ways_loop fuel i st = Some (Returns [] st).
Proof.
  induction fuel as [|fuel IH]; intros i st Hshort Hfuel; [lia|].
  simpl. destruct (ways st !! i) as [way|] eqn:Hway; [|done].
  rewrite too_long_ltb, bool_decide_eq_false_2
    by (by eapply Hshort, list_elem_of_lookup_2).
  apply IH; [done|]. apply lookup_lt_Some in Hway. lia.
Qed.

(** [split_long_ways] is idempotent: run on the store that it has left,
    it returns and leaves that store as it is. *)
Theorem split_long_ways_idempotent fuel st :
  ways_wf st → split_measure st 0 < fuel →
  ∃ st',
    split_long_ways fuel st = Some (Returns tt st')
    ∧ ∀ fuel', length (ways st') < fuel' →
        split_long_ways fuel' st' = Some (Returns tt st').
Proof.
  intros Hwf Hfuel. unfold split_long_ways.
  destruct (Z.ltb_spec (max_points_in_way st) 2) as [Hoff|Hon].
  { exists st. split; [done|]. intros fuel' _.
    by destruct (Z.ltb_spec (max_points_in_way st) 2); [|lia]. }
  destruct (split_ways_loop_spec fuel 0 st Hwf Hon Hfuel)
    as (st' & Hloop & _ & Hlimit & Hshort).
  { intros w Hw. by apply elem_of_nil in Hw. }
  rewrite Hloop. exists st'. split; [done|]. intros fuel' Hfuel'.
  rewrite Hlimit. destruct (Z.ltb_spec (max_points_in_way st) 2); [lia|].
  rewrite (split_ways_loop_settled fuel' 0 st' Hshort); [done|lia].
Qed.

End SplitAgain.

(** The ring of three points under a limit of two. *)
Lemma split_long_ways_idempotent_witness :
  (ways_wf long_ring_store ∧ split_measure long_ring_store 0 < 10)
  ∧ ∃ st',
      split_long_ways 10 long_ring_store = Some (Returns tt st')
      ∧ ∀ fuel', length (ways st') < fuel' →
          split_long_ways fuel' st' = Some (Returns tt st').
Proof.
  assert (Hfuel : split_measure long_ring_store 0 < 10) by (vm_compute; lia).
  split; [by split; [apply long_ring_store_wf|]|].
  exact (split_long_ways_idempotent 10 long_ring_store long_ring_store_wf Hfuel).
Defined.
